(** * Flush coordinator and merging iterator: model and verified properties

    Shallow embedding of [db/memtablelist.cc] (the ordered list of immutable
    memtables and its commit protocol) and of the merging-iterator helpers
    ([SwitchToForward], [ClearHeaps], [MergeIteratorBuilder],
    [WrapToMergingIterator]).

    Conventions.
    - A [MemTable*] is an address; the memtables themselves live in a shared
      store [Heap], so that the list, a flush batch and the caller alias the
      same objects, as in the C++ code.
    - An assertion is modelled as a check that aborts the call
      ([AssertionFailed]); the two loops of the commit scan carry fuel and
      report [OutOfFuel] when it runs out.
    - [int] counters are unbounded integers: signed overflow is undefined in
      C++ and would need 2^31 memtables.
    - [port::Mutex::AssertHeld] has no effect on the sequential state and is
      left out; the metadata log is a deterministic collaborator. *)

From stdpp Require Import base functions list gmap sets strings.
From Stdlib Require Import ZArith Lia.

#[local] Set Warnings "-clear-no-such-hyp".

Local Open Scope Z_scope.

(** ** Outcome of a call *)

Inductive Result (A : Type) : Type :=
| Returned (a : A)
| AssertionFailed
| NullDereference
| OutOfFuel.
Arguments Returned {A} a.
Arguments AssertionFailed {A}.
Arguments NullDereference {A}.
Arguments OutOfFuel {A}.

#[global] Instance Result_ret : MRet Result := @Returned.
#[global] Instance Result_bind : MBind Result := λ A B k r,
  match r with
  | Returned a => k a
  | AssertionFailed => AssertionFailed
  | NullDereference => NullDereference
  | OutOfFuel => OutOfFuel
  end.

(** [assert(c)] *)
Definition assert (c : bool) : Result unit :=
  if c then Returned tt else AssertionFailed.

(** ** Status *)

Inductive Code := kNotFound | kCorruption | kNotSupported | kInvalidArgument | kIOError.

(** Modelled from the spec: [Status] (leveldb/status.h) is "ok/error plus an
    opaque payload"; [Status()] is ok and [Status::IOError(msg)] builds the
    IO-error kind. *)
Inductive Status :=
| StatusOK
| StatusError (code : Code) (msg : string).

Definition ok (s : Status) : bool :=
  match s with StatusOK => true | StatusError _ _ => false end.

Definition Status_IOError (msg : string) : Status := StatusError kIOError msg.

Module MTL.

(** ** Memtables and the shared store *)

Definition MemTablePtr := nat.

(** Modelled from the spec: a [VersionEdit] is the pending metadata-log
    record of a memtable; [NumEntries] counts its entries and [Clear]
    empties it.  An entry names the file it adds. *)
Definition VersionEdit := list N.
Definition NumEntries (e : VersionEdit) : nat := length e.
Definition Clear (e : VersionEdit) : VersionEdit := [].

(** Modelled from the spec: the flush-state fields of [MemTable]
    (db/memtable.h) and its reference count. *)
Record MemTable := mkMemTable {
  flush_in_progress_ : bool;
  flush_completed_ : bool;
  file_number_ : N;
  edit_ : VersionEdit;
  refs_ : Z
}.

Definition set_flush_in_progress (b : bool) (m : MemTable) : MemTable :=
  mkMemTable b (flush_completed_ m) (file_number_ m) (edit_ m) (refs_ m).
Definition set_flush_completed (b : bool) (m : MemTable) : MemTable :=
  mkMemTable (flush_in_progress_ m) b (file_number_ m) (edit_ m) (refs_ m).
Definition set_file_number (n : N) (m : MemTable) : MemTable :=
  mkMemTable (flush_in_progress_ m) (flush_completed_ m) n (edit_ m) (refs_ m).
Definition set_edit (e : VersionEdit) (m : MemTable) : MemTable :=
  mkMemTable (flush_in_progress_ m) (flush_completed_ m) (file_number_ m) e (refs_ m).

(** Modelled from the spec: [Ref]/[Unref] count holders of the memtable. *)
Definition Ref (m : MemTable) : MemTable :=
  mkMemTable (flush_in_progress_ m) (flush_completed_ m) (file_number_ m) (edit_ m) (refs_ m + 1).
Definition Unref (m : MemTable) : MemTable :=
  mkMemTable (flush_in_progress_ m) (flush_completed_ m) (file_number_ m) (edit_ m) (refs_ m - 1).

Definition Heap := MemTablePtr → MemTable.

(** A memtable as its constructor leaves it. *)
Definition fresh_memtable : MemTable := mkMemTable false false 0%N [] 0.

(** ** Collaborators of the commit protocol *)

(** Modelled from the spec: the metadata-log apply, [apply(edit, lock) →
    status].  The collaborator is deterministic: its answer is a function of
    the calls it has received so far and of the edit; every call is recorded
    with its answer. *)
Record VersionSet := mkVersionSet {
  oracle : list (VersionEdit * Status) → VersionEdit → Status;
  calls : list (VersionEdit * Status)
}.

Definition LogAndApply (vs : VersionSet) (e : VersionEdit) : Status * VersionSet :=
  let s := oracle vs (calls vs) e in
  (s, mkVersionSet (oracle vs) (calls vs ++ [(e, s)])).

(** The lines written by [Log(info_log, ...)]. *)
Inductive LogLine :=
| CommitStarted (file : N)
| CommitDone (file : N) (bulk : bool)
| CommitFailed (file : N).

(** ** The list *)

Record MemTableList := mkMemTableList {
  memlist_ : list MemTablePtr;          (* front of the list first *)
  size_ : Z;
  num_flush_not_started_ : Z;
  commit_in_progress_ : bool;
  imm_flush_needed : bool               (* nullptr = false *)
}.

Definition empty_list : MemTableList := mkMemTableList [] 0 0 false false.

(** Everything a call can read or write: the list object, the memtables it
    points to, and the collaborators handed to
    [InstallMemtableFlushResults]. *)
Record World := mkWorld {
  this : MemTableList;
  heap : Heap;
  vset : VersionSet;
  info_log : list LogLine;
  pending_outputs : gset N
}.

Definition set_this (l : MemTableList) (w : World) : World :=
  mkWorld l (heap w) (vset w) (info_log w) (pending_outputs w).
Definition set_heap (h : Heap) (w : World) : World :=
  mkWorld (this w) h (vset w) (info_log w) (pending_outputs w).
Definition set_vset (v : VersionSet) (w : World) : World :=
  mkWorld (this w) (heap w) v (info_log w) (pending_outputs w).
Definition Log (line : LogLine) (w : World) : World :=
  mkWorld (this w) (heap w) (vset w) (info_log w ++ [line]) (pending_outputs w).
Definition erase_pending (n : N) (w : World) : World :=
  mkWorld (this w) (heap w) (vset w) (info_log w) (pending_outputs w ∖ {[n]}).

(** Assignment to the fields of the memtable at address [m]. *)
Definition update (m : MemTablePtr) (f : MemTable → MemTable) (w : World) : World :=
  set_heap (<[m := f (heap w m)]> (heap w)) w.

Definition set_memlist (l : list MemTablePtr) (w : World) : World :=
  set_this (mkMemTableList l (size_ (this w)) (num_flush_not_started_ (this w))
              (commit_in_progress_ (this w)) (imm_flush_needed (this w))) w.
Definition set_size (n : Z) (w : World) : World :=
  set_this (mkMemTableList (memlist_ (this w)) n (num_flush_not_started_ (this w))
              (commit_in_progress_ (this w)) (imm_flush_needed (this w))) w.
Definition set_num_flush_not_started (n : Z) (w : World) : World :=
  set_this (mkMemTableList (memlist_ (this w)) (size_ (this w)) n
              (commit_in_progress_ (this w)) (imm_flush_needed (this w))) w.
Definition set_commit_in_progress (b : bool) (w : World) : World :=
  set_this (mkMemTableList (memlist_ (this w)) (size_ (this w))
              (num_flush_not_started_ (this w)) b (imm_flush_needed (this w))) w.
Definition Release_Store (b : bool) (w : World) : World :=
  set_this (mkMemTableList (memlist_ (this w)) (size_ (this w))
              (num_flush_not_started_ (this w)) (commit_in_progress_ (this w)) b) w.

(** [std::list::remove(m)]: every element equal to [m] goes. *)
Definition list_remove (m : MemTablePtr) (l : list MemTablePtr) : list MemTablePtr :=
  filter (λ x, x ≠ m) l.

(** ** Operations *)

(** [MemTableList::size] *)
Definition size (w : World) : Result Z :=
  assert (num_flush_not_started_ (this w) <=? size_ (this w));;
  Returned (size_ (this w)).

(** [MemTableList::IsFlushPending] *)
Definition IsFlushPending (min_write_buffer_number_to_merge : Z) (w : World) : Result bool :=
  if min_write_buffer_number_to_merge <=? num_flush_not_started_ (this w) then
    assert (imm_flush_needed (this w));;
    Returned true
  else Returned false.

(** The body of the loop of [PickMemtablesToFlush], over the members still
    to visit ([memlist_.rbegin()] to [memlist_.rend()]). *)
Fixpoint pick_loop (its : list MemTablePtr) (w : World) (ret : list MemTablePtr)
  : Result (World * list MemTablePtr) :=
  match its with
  | [] => Returned (w, ret)
  | m :: its' =>
      if negb (flush_in_progress_ (heap w m)) then
        assert (negb (flush_completed_ (heap w m)));;
        let w := set_num_flush_not_started (num_flush_not_started_ (this w) - 1) w in
        let w := if num_flush_not_started_ (this w) =? 0 then Release_Store false w else w in
        let w := update m (set_flush_in_progress true) w in
        pick_loop its' w (ret ++ [m])
      else pick_loop its' w ret
  end.

(** [MemTableList::PickMemtablesToFlush] *)
Definition PickMemtablesToFlush (w : World) (ret : list MemTablePtr)
  : Result (World * list MemTablePtr) :=
  pick_loop (reverse (memlist_ (this w))) w ret.

(** [MemTableList::Add] *)
Definition Add (m : MemTablePtr) (w : World) : Result World :=
  assert (num_flush_not_started_ (this w) <=? size_ (this w));;
  let w := set_size (size_ (this w) + 1) w in
  let w := set_memlist (m :: memlist_ (this w)) w in
  let w := set_num_flush_not_started (num_flush_not_started_ (this w) + 1) w in
  let w := if num_flush_not_started_ (this w) =? 1 then Release_Store true w else w in
  Returned w.

(** The loop of the failure path of [InstallMemtableFlushResults]. *)
Fixpoint reset_loop (mems : list MemTablePtr) (file_number : N) (w : World) : Result World :=
  match mems with
  | [] => Returned w
  | m :: mems' =>
      assert (flush_in_progress_ (heap w m));;
      assert (file_number_ (heap w m) =? 0)%N;;
      let w := update m (set_flush_in_progress false) w in
      let w := update m (set_flush_completed false) w in
      let w := update m (λ x, set_edit (Clear (edit_ x)) x) w in
      let w := set_num_flush_not_started (num_flush_not_started_ (this w) + 1) w in
      let w := Release_Store true w in
      let w := erase_pending file_number w in
      reset_loop mems' file_number w
  end.

(** The loop that records a successful flush on every member of the batch. *)
Fixpoint mark_loop (mems : list MemTablePtr) (file_number : N) (first : bool) (w : World)
  : Result World :=
  match mems with
  | [] => Returned w
  | m :: mems' =>
      assert (first || (NumEntries (edit_ (heap w m)) =? 0)%nat);;
      let w := update m (set_flush_completed true) w in
      let w := update m (set_file_number file_number) w in
      mark_loop mems' file_number false w
  end.

(** The [if (s.ok())] branch inside the [do] loop: commit new state. *)
Definition commit_one (m : MemTablePtr) (first : bool) (w : World) : Result World :=
  let w := Log (CommitDone (file_number_ (heap w m)) (negb first)) w in
  let w := set_memlist (list_remove m (memlist_ (this w))) w in
  assert (0 <? file_number_ (heap w m))%N;;
  let w := erase_pending (file_number_ (heap w m)) w in
  let w := update m Unref w in
  let w := set_size (size_ (this w) - 1) w in
  Returned w.

(** The [else] branch inside the [do] loop: commit failed, set up state so
    that the memtable can be flushed again. *)
Definition rollback_one (m : MemTablePtr) (w : World) : World * Status :=
  let w := Log (CommitFailed (file_number_ (heap w m))) w in
  let w := update m (set_flush_completed false) w in
  let w := update m (set_flush_in_progress false) w in
  let w := update m (λ x, set_edit (Clear (edit_ x)) x) w in
  let w := set_num_flush_not_started (num_flush_not_started_ (this w) + 1) w in
  let w := erase_pending (file_number_ (heap w m)) w in
  let w := update m (set_file_number 0%N) w in
  let w := Release_Store true w in
  (w, Status_IOError "Unable to commit flushed memtable").

(** The [do { ... } while (...)] loop, entered with the member [m] and the
    status [s] of the metadata-log apply. *)
Fixpoint batch_loop (fuel : nat) (file_number : N) (first : bool) (m : MemTablePtr)
    (s : Status) (w : World) : Result (World * Status) :=
  match fuel with
  | O => OutOfFuel
  | S fuel' =>
      '(w, s) ← (if ok s
                 then w' ← commit_one m first w; Returned (w', s)
                 else Returned (rollback_one m w));
      match last (memlist_ (this w)) with
      | Some m' =>
          if (file_number_ (heap w m') =? file_number)%N
          then batch_loop fuel' file_number false m' s w
          else Returned (w, s)
      | None => Returned (w, s)
      end
  end.

(** The [while (!memlist_.empty() && s.ok())] loop. *)
Fixpoint commit_scan (fuel : nat) (file_number : N) (s : Status) (w : World)
  : Result (World * Status) :=
  match fuel with
  | O => OutOfFuel
  | S fuel' =>
      match last (memlist_ (this w)) with
      | None => Returned (w, s)
      | Some m =>
          if negb (ok s) then Returned (w, s)
          else if negb (flush_completed_ (heap w m)) then Returned (w, s)
          else
            let w := Log (CommitStarted (file_number_ (heap w m))) w in
            let '(s, vs) := LogAndApply (vset w) (edit_ (heap w m)) in
            let w := set_vset vs w in
            '(w, s) ← batch_loop fuel' file_number true m s w;
            commit_scan fuel' file_number s w
      end
  end.

(** [MemTableList::InstallMemtableFlushResults] *)
Definition InstallMemtableFlushResults (fuel : nat) (mems : list MemTablePtr)
    (flushStatus : Status) (file_number : N) (w : World) : Result (World * Status) :=
  if negb (ok flushStatus) then
    w ← reset_loop mems file_number w;
    Returned (w, flushStatus)
  else
    w ← mark_loop mems file_number true w;
    let s := StatusOK in
    if commit_in_progress_ (this w) then Returned (w, s)
    else
      let w := set_commit_in_progress true w in
      '(w, s) ← commit_scan fuel file_number s w;
      let w := set_commit_in_progress false w in
      Returned (w, s).

End MTL.

(** * The merging iterator *)

Module Merger.

Section merger.

Context {Key : Type}.

(** Modelled from the spec: the comparator is an external collaborator, "a
    total order over keys, plus an explicit equality predicate". *)
Record Comparator := mkComparator {
  Compare : Key → Key → comparison;
  Equal : Key → Key → bool
}.

(** The order in which the children keep their keys; a child seeks with it,
    not through the [comparator_] pointer of the merging iterator. *)
Variable key_order : Comparator.

(** Modelled from the spec: a child is an independently sorted key sequence
    with a cursor ([IteratorWrapper] over an [InternalIterator]).  [Seek]
    positions it on the first key that is not before the target, [Next]
    advances it by one and requires a valid position. *)
Record IteratorWrapper := mkIteratorWrapper {
  keys : list Key;
  pos : nat
}.

Definition child_Valid (c : IteratorWrapper) : bool :=
  bool_decide (pos c < length (keys c))%nat.

(** Whether the child at index [i] exists and is valid. *)
Definition valid_at (cs : list IteratorWrapper) (i : nat) : bool :=
  match cs !! i with
  | Some c => child_Valid c
  | None => false
  end.

Definition child_key (c : IteratorWrapper) : Result Key :=
  match keys c !! pos c with
  | Some k => Returned k
  | None => AssertionFailed
  end.

Fixpoint seek_pos (target : Key) (ks : list Key) : nat :=
  match ks with
  | [] => O
  | k :: ks' =>
      match Compare key_order k target with
      | Lt => S (seek_pos target ks')
      | _ => O
      end
  end.

Definition child_Seek (target : Key) (c : IteratorWrapper) : IteratorWrapper :=
  mkIteratorWrapper (keys c) (seek_pos target (keys c)).

Definition child_Next (c : IteratorWrapper) : Result IteratorWrapper :=
  assert (child_Valid c);;
  Returned (mkIteratorWrapper (keys c) (S (pos c))).

Inductive Direction := kForward | kReverse.

(** A heap of child pointers is represented by the children it holds, in
    the order they were pushed; a child pointer is its index in
    [children_]. *)
Record MergingIterator := mkMergingIterator {
  is_arena_mode_ : bool;
  comparator_ : option Comparator;           (* nullptr = None *)
  children_ : list IteratorWrapper;
  current_ : option nat;                     (* nullptr = None *)
  direction_ : Direction;
  minHeap_ : list nat;
  maxHeap_ : option (list nat);              (* allocated lazily *)
  prefix_seek_mode_ : bool
}.

Definition set_children (cs : list IteratorWrapper) (it : MergingIterator) :=
  mkMergingIterator (is_arena_mode_ it) (comparator_ it) cs (current_ it)
    (direction_ it) (minHeap_ it) (maxHeap_ it) (prefix_seek_mode_ it).
Definition set_direction (d : Direction) (it : MergingIterator) :=
  mkMergingIterator (is_arena_mode_ it) (comparator_ it) (children_ it) (current_ it)
    d (minHeap_ it) (maxHeap_ it) (prefix_seek_mode_ it).
Definition set_minHeap (h : list nat) (it : MergingIterator) :=
  mkMergingIterator (is_arena_mode_ it) (comparator_ it) (children_ it) (current_ it)
    (direction_ it) h (maxHeap_ it) (prefix_seek_mode_ it).
Definition set_maxHeap (h : option (list nat)) (it : MergingIterator) :=
  mkMergingIterator (is_arena_mode_ it) (comparator_ it) (children_ it) (current_ it)
    (direction_ it) (minHeap_ it) h (prefix_seek_mode_ it).

(** Modelled from the spec: [MergingIterator::key] is "[current]'s key", the
    key of the child that [current_] points to.  It reads through the
    pointer: when [current_] is null a null pointer is dereferenced. *)
Definition key (it : MergingIterator) : Result Key :=
  match current_ it with
  | None => NullDereference
  | Some i =>
      match children_ it !! i with
      | Some c => child_key c
      | None => NullDereference
      end
  end.

(** [MergingIterator::ClearHeaps] *)
Definition ClearHeaps (it : MergingIterator) : MergingIterator :=
  let it := set_minHeap [] it in
  match maxHeap_ it with
  | Some _ => set_maxHeap (Some []) it
  | None => it
  end.

(** [MergingIterator::InitMaxHeap] *)
Definition InitMaxHeap (it : MergingIterator) : MergingIterator :=
  match maxHeap_ it with
  | None => set_maxHeap (Some []) it
  | Some _ => it
  end.

(** The body of the loop of [SwitchToForward] for the child at index [i]. *)
Definition switch_child (i : nat) (it : MergingIterator) : Result MergingIterator :=
  match children_ it !! i with
  | None => NullDereference
  | Some child =>
      child ←
        (if decide (current_ it = Some i) then Returned child
         else
           k ← key it;
           let child := child_Seek k child in
           if child_Valid child then
             cmp ← from_option Returned NullDereference (comparator_ it);
             k ← key it;
             ck ← child_key child;
             if Equal cmp k ck then child_Next child else Returned child
           else Returned child);
      let it := set_children (<[i := child]> (children_ it)) it in
      if child_Valid child
      then Returned (set_minHeap (minHeap_ it ++ [i]) it)
      else Returned it
  end.

Fixpoint switch_loop (indices : list nat) (it : MergingIterator)
  : Result MergingIterator :=
  match indices with
  | [] => Returned it
  | i :: rest => it ← switch_child i it; switch_loop rest it
  end.

(** [MergingIterator::SwitchToForward] *)
Definition SwitchToForward (it : MergingIterator) : Result MergingIterator :=
  let it := ClearHeaps it in
  it ← switch_loop (seq 0 (length (children_ it))) it;
  Returned (set_direction kForward it).

(** ** Construction *)

(** Modelled from the spec: the allocation arena, "allocateAligned(size) →
    raw storage"; it records the sizes it has handed out. *)
Record Arena := mkArena { blocks : list N }.

Definition AllocateAligned (size : N) (a : Arena) : nat * Arena :=
  (length (blocks a), mkArena (blocks a ++ [size])).

(** [sizeof(MergingIterator)] *)
Variable sizeof_MergingIterator : N.

(** Modelled from the spec: the constructor of [MergingIterator] over [n]
    children; the forward heap receives the valid children.  The choice of
    [current_] among them (the top of the heap) is not modelled: the
    iterator starts with [current_] null. *)
Definition new_MergingIterator (cmp : option Comparator)
    (children : list IteratorWrapper) (is_arena_mode prefix_seek_mode : bool)
  : MergingIterator :=
  mkMergingIterator is_arena_mode cmp children None kForward
    (filter (λ i, valid_at children i = true) (seq 0 (length children)))
    None prefix_seek_mode.

(** Modelled from the spec: [MergingIterator::AddIterator] adds one more
    child. *)
Definition MergingIterator_AddIterator (iter : IteratorWrapper) (it : MergingIterator)
  : MergingIterator :=
  let it := set_children (children_ it ++ [iter]) it in
  if child_Valid iter
  then set_minHeap (minHeap_ it ++ [pred (length (children_ it))]) it
  else it.

Record MergeIteratorBuilder := mkMergeIteratorBuilder {
  merge_iter : option MergingIterator;       (* nullptr = None *)
  arena : option Arena                       (* nullptr = None *)
}.

(** [NewMergingIterator]; the [new]-allocated iterator does not touch the
    arena. *)
Definition NewMergingIterator (cmp : option Comparator)
    (children : list IteratorWrapper) (n : Z) (a : option Arena)
    (prefix_seek_mode : bool) : Result (MergingIterator * option Arena) :=
  assert (0 <=? n);;
  match a with
  | None =>
      Returned (new_MergingIterator cmp (take (Z.to_nat n) children) false
                  prefix_seek_mode, None)
  | Some ar =>
      let '(mem, ar) := AllocateAligned sizeof_MergingIterator ar in
      Returned (new_MergingIterator cmp (take (Z.to_nat n) children) true
                  prefix_seek_mode, Some ar)
  end.

(** [MergeIteratorBuilder::MergeIteratorBuilder]: [arena->AllocateAligned]
    is called whatever [a] is. *)
Definition new_MergeIteratorBuilder (comparator : option Comparator) (a : option Arena)
    (prefix_seek_mode : bool) : Result MergeIteratorBuilder :=
  match a with
  | None => NullDereference
  | Some ar =>
      let '(mem, ar) := AllocateAligned sizeof_MergingIterator ar in
      Returned (mkMergeIteratorBuilder
                  (Some (new_MergingIterator comparator [] true prefix_seek_mode))
                  (Some ar))
  end.

(** [MergeIteratorBuilder::AddIterator] *)
Definition AddIterator (iter : IteratorWrapper) (b : MergeIteratorBuilder)
  : Result MergeIteratorBuilder :=
  match merge_iter b with
  | None => NullDereference
  | Some it =>
      Returned (mkMergeIteratorBuilder (Some (MergingIterator_AddIterator iter it))
                  (arena b))
  end.

(** [MergeIteratorBuilder::Finish] *)
Definition Finish (b : MergeIteratorBuilder)
  : option MergingIterator * MergeIteratorBuilder :=
  (merge_iter b, mkMergeIteratorBuilder None (arena b)).

(** [WrapToMergingIterator] *)
Definition WrapToMergingIterator (iter : IteratorWrapper)
  : Result (option MergingIterator) :=
  builder ← new_MergeIteratorBuilder None None false;
  builder ← AddIterator iter builder;
  Returned (Finish builder).1.

End merger.

Arguments Comparator : clear implicits.
Arguments IteratorWrapper : clear implicits.
Arguments MergingIterator : clear implicits.
Arguments MergeIteratorBuilder : clear implicits.

End Merger.

(** * Concrete runs

    Small worlds on which the operations are evaluated.  Memtables are
    numbered in creation order: 1 is the oldest. *)

Module Scenario.
Import MTL.

(** A metadata log that accepts every edit. *)
Definition always_ok : VersionSet := mkVersionSet (λ _ _, StatusOK) [].

(** A metadata log whose [n]-th call (counting from 0) fails. *)
Definition fails_at (n : nat) : VersionSet :=
  mkVersionSet
    (λ cs _, if (length cs =? n)%nat
             then StatusError kCorruption "manifest write" else StatusOK) [].

Definition start (vs : VersionSet) (pending : gset N) : World :=
  mkWorld empty_list (λ _, fresh_memtable) vs [] pending.

(** The flush job fills in the edit of the first memtable of its batch. *)
Definition with_edit (m : MemTablePtr) (e : VersionEdit) (w : World) : World :=
  update m (set_edit e) w.

Definition flush_failed : Status := StatusError kIOError "flush".

(** What a run is compared on. *)
Definition observe (w : World) (ms : list MemTablePtr) :=
  (memlist_ (this w), size_ (this w), num_flush_not_started_ (this w),
   commit_in_progress_ (this w), imm_flush_needed (this w),
   map (heap w) ms).

(** A list holding only memtable 1, selected for flush, file 10 pending. *)
Definition one_selected : Result World :=
  w ← Add 1%nat (start always_ok {[10%N]});
  '(w, _) ← PickMemtablesToFlush w [];
  Returned w.

(** The world a run ends in. *)
Definition the (r : Result World) : World :=
  match r with Returned w => w | _ => start always_ok ∅ end.

(** Three memtables added, files 10 and 11 pending. *)
Definition three_added (vs : VersionSet) : Result World :=
  w ← Add 1%nat (start vs {[10%N; 11%N]});
  w ← Add 2%nat w;
  Add 3%nat w.

(** The outcome of a call. *)
Definition outcome (r : Result (World * Status)) : World * Status :=
  match r with Returned p => p | _ => (start always_ok ∅, StatusOK) end.

Definition returned {A} (r : Result A) : bool :=
  match r with Returned _ => true | _ => false end.

(** The oldest memtable completes last: memtable 1 is selected alone, then
    memtables 2 and 3 are added, selected together and flushed to file 11;
    their installation finds memtable 1 incomplete.  Finally the flush of
    memtable 1 to file 10 is done and about to be installed. *)
Definition oldest_completes_last (vs : VersionSet) : Result World :=
  w ← Add 1%nat (start vs {[10%N; 11%N]});
  '(w, _) ← PickMemtablesToFlush w [];
  w ← Add 2%nat w;
  w ← Add 3%nat w;
  '(w, _) ← PickMemtablesToFlush w [];
  '(w, _) ← InstallMemtableFlushResults 4 [2; 3]%nat StatusOK 11
              (with_edit 2%nat [11%N] w);
  Returned (with_edit 1%nat [10%N] w).

(** Memtable 1 selected alone, memtables 2 and 3 added and selected
    together, the flush job has written the edit of memtable 2; memtable 1
    is still being flushed. *)
Definition two_batches_selected (vs : VersionSet) : Result World :=
  w ← Add 1%nat (start vs {[10%N; 11%N]});
  '(w, _) ← PickMemtablesToFlush w [];
  w ← Add 2%nat w;
  w ← Add 3%nat w;
  '(w, _) ← PickMemtablesToFlush w [];
  Returned (with_edit 2%nat [11%N] w).

(** The list holds memtables 2 and 3, flushed together to file 11 and
    marked by the success path; the guard is taken and the scan about to
    run. *)
Definition batch_marked : Result World :=
  w ← Add 2%nat (start always_ok {[11%N]});
  w ← Add 3%nat w;
  '(w, _) ← PickMemtablesToFlush w [];
  w ← mark_loop [2; 3]%nat 11 true (with_edit 2%nat [11%N] w);
  Returned (set_commit_in_progress true w).

(** The list holds memtable 1, flushed to file 10 and marked; the metadata
    log will refuse its edit. *)
Definition apply_will_fail : Result World :=
  w ← Add 1%nat (start (fails_at 0) {[10%N]});
  '(w, _) ← PickMemtablesToFlush w [];
  w ← mark_loop [1%nat] 10 true (with_edit 1%nat [10%N] w);
  Returned (set_commit_in_progress true w).

(** Memtables 1 and 2 were selected one after the other; memtable 2 was
    flushed to file 11 and installed first, and waits for memtable 1, whose
    flush to file 10 is done.  The metadata log accepts the first edit it
    receives and refuses the second. *)
Definition second_apply_will_fail : Result World :=
  w ← Add 1%nat (start (fails_at 1) {[10%N; 11%N]});
  '(w, _) ← PickMemtablesToFlush w [];
  w ← Add 2%nat w;
  '(w, _) ← PickMemtablesToFlush w [];
  '(w, _) ← InstallMemtableFlushResults 3 [2%nat] StatusOK 11
              (with_edit 2%nat [11%N] w);
  Returned (with_edit 1%nat [10%N] w).

(** The worlds and outcomes the instances below speak of. *)
Definition guard_held : World :=
  set_commit_in_progress true (the one_selected).
Definition waiting : World := the (two_batches_selected always_ok).
Definition waiting_outcome : World * Status :=
  outcome (InstallMemtableFlushResults 4 [2; 3]%nat StatusOK 11 waiting).
Definition all_completed : World := the (oldest_completes_last always_ok).
Definition all_completed_outcome : World * Status :=
  outcome (InstallMemtableFlushResults 4 [1%nat] StatusOK 10 all_completed).
Definition refused : World := the apply_will_fail.
Definition marked : World := the batch_marked.
Definition half_way : World := the second_apply_will_fail.
Definition half_way_outcome : World * Status :=
  outcome (InstallMemtableFlushResults 3 [1%nat] StatusOK 10 half_way).

(** Integer keys in their usual order. *)
Definition int_order : Merger.Comparator Z :=
  Merger.mkComparator Z.compare Z.eqb.

(** A merging iterator over four children that was moving in reverse and
    stands on key 3 of child 0: child 1 also holds key 3, child 2 holds
    only key 3, child 3 holds smaller keys only. *)
Definition reversing : Merger.MergingIterator Z :=
  Merger.mkMergingIterator false (Some int_order)
    [Merger.mkIteratorWrapper [1; 3; 5] 1;
     Merger.mkIteratorWrapper [2; 3; 4] 0;
     Merger.mkIteratorWrapper [3] 0;
     Merger.mkIteratorWrapper [1; 2] 1]
    (Some 0%nat) Merger.kReverse [] (Some [0; 1; 3]%nat) false.

End Scenario.

(** * Vocabulary of the specification *)

Import MTL.

(** What the failure path leaves of a memtable, and what the success path
    records on it. *)
Definition reset_memtable (x : MemTable) : MemTable :=
  mkMemTable false false (file_number_ x) [] (refs_ x).
Definition mark_memtable (file_number : N) (x : MemTable) : MemTable :=
  mkMemTable (flush_in_progress_ x) true file_number (edit_ x) (refs_ x).
Definition rolled_back_memtable (x : MemTable) : MemTable :=
  mkMemTable false false 0%N [] (refs_ x).

(** The members the scan selects: not yet [flush_in_progress_]. *)
Definition not_started (h : Heap) (m : MemTablePtr) : Prop :=
  flush_in_progress_ (h m) = false.

#[global] Instance not_started_dec h m : Decision (not_started h m) :=
  decide (flush_in_progress_ (h m) = false).
Arguments not_started_dec : simpl never.

(** [commits_oldest_first l l']: [l'] is what is left of [l] after a run of
    commits, each of which removes the member that is the oldest one present
    at that moment (the back of the list). *)
Inductive commits_oldest_first : list MemTablePtr → list MemTablePtr → Prop :=
| cof_done l : commits_oldest_first l l
| cof_commit l m l' :
    last l = Some m →
    commits_oldest_first (list_remove m l) l' →
    commits_oldest_first l l'.

(** The file numbers a run of commits erases from the pending outputs. *)
Definition file_numbers (h : Heap) (ms : list MemTablePtr) : gset N :=
  list_to_set ((λ x, file_number_ (h x)) <$> ms).

(** [committed_effect w w' c]: from [w] to [w'] exactly the memtables [c]
    (a block at the old end of the list) were committed: removed, counted
    out of the size, their file numbers erased from the pending outputs and
    their references dropped; nothing else changed in the list or in any
    memtable. *)
Definition committed_effect (w w' : World) (c : list MemTablePtr) : Prop :=
  memlist_ (this w) = memlist_ (this w') ++ c
  ∧ size_ (this w') = size_ (this w) - Z.of_nat (length c)
  ∧ num_flush_not_started_ (this w') = num_flush_not_started_ (this w)
  ∧ commit_in_progress_ (this w') = commit_in_progress_ (this w)
  ∧ imm_flush_needed (this w') = imm_flush_needed (this w)
  ∧ pending_outputs w' = pending_outputs w ∖ file_numbers (heap w) c
  ∧ (∀ x, x ∈ c → heap w' x = Unref (heap w x) ∧ file_number_ (heap w x) ≠ 0%N)
  ∧ (∀ x, x ∉ c → heap w' x = heap w x).

(** [rolled_back w w' m]: from [w] to [w'] the member [m] was sent back to
    the queued state and nothing else happened to the list or to the other
    memtables. *)
Definition rolled_back (w w' : World) (m : MemTablePtr) : Prop :=
  memlist_ (this w') = memlist_ (this w)
  ∧ size_ (this w') = size_ (this w)
  ∧ num_flush_not_started_ (this w') = num_flush_not_started_ (this w) + 1
  ∧ commit_in_progress_ (this w') = commit_in_progress_ (this w)
  ∧ imm_flush_needed (this w') = true
  ∧ pending_outputs w' = pending_outputs w ∖ {[file_number_ (heap w m)]}
  ∧ heap w' m = rolled_back_memtable (heap w m)
  ∧ (∀ x, x ≠ m → heap w' x = heap w x).

(** What every operation keeps true when it is called as the flush
    scheduler calls it: the list has no repeated member, [size_] is its
    length, [num_flush_not_started_] counts the members that are not
    [flush_in_progress_], such members carry no flush result, and a memtable
    in progress outside the list (a committed one) carries a file number. *)
Record list_invariant (w : World) : Prop := mk_list_invariant {
  inv_nodup : NoDup (memlist_ (this w));
  inv_size : size_ (this w) = Z.of_nat (length (memlist_ (this w)));
  inv_count :
    num_flush_not_started_ (this w)
    = Z.of_nat (length (filter (not_started (heap w)) (memlist_ (this w))));
  inv_queued : ∀ m,
    m ∈ memlist_ (this w) → flush_in_progress_ (heap w m) = false →
    flush_completed_ (heap w m) = false ∧ file_number_ (heap w m) = 0%N;
  inv_outside : ∀ m,
    m ∉ memlist_ (this w) → flush_in_progress_ (heap w m) = true →
    file_number_ (heap w m) ≠ 0%N
}.

(** The states the flush scheduler brings the list to.  It starts from an
    empty list and memtables that are not being flushed; it adds a memtable
    that is not in the list and is as its constructor left it; it picks; it
    installs, with a real file number, a batch whose flush failed, or a
    batch of memtables selected for flush whose flush succeeded; between
    calls the flush job may write the edit of a memtable, and every call may
    be handed other collaborators. *)
Inductive reachable : World → Prop :=
| reach_empty h vs log po :
    (∀ m, flush_in_progress_ (h m) = false) →
    reachable (mkWorld empty_list h vs log po)
| reach_Add w m w' :
    reachable w →
    m ∉ memlist_ (this w) →
    flush_in_progress_ (heap w m) = false →
    flush_completed_ (heap w m) = false →
    file_number_ (heap w m) = 0%N →
    Add m w = Returned w' →
    reachable w'
| reach_Pick w ret w' ret' :
    reachable w →
    PickMemtablesToFlush w ret = Returned (w', ret') →
    reachable w'
| reach_Install w fuel mems flushStatus file_number w' s :
    reachable w →
    file_number ≠ 0%N →
    (ok flushStatus = true →
     ∀ m, m ∈ mems → flush_in_progress_ (heap w m) = true) →
    InstallMemtableFlushResults fuel mems flushStatus file_number w = Returned (w', s) →
    reachable w'
| reach_flush_job w m e :
    reachable w → reachable (update m (set_edit e) w)
| reach_collaborators w vs log po :
    reachable w → reachable (mkWorld (this w) (heap w) vs log po).

(** The same calls with no condition on their arguments. *)
Inductive reachable_by_any_calls : World → Prop :=
| any_empty h vs log po :
    (∀ m, h m = fresh_memtable) →
    reachable_by_any_calls (mkWorld empty_list h vs log po)
| any_Add w m w' :
    reachable_by_any_calls w → Add m w = Returned w' → reachable_by_any_calls w'
| any_Pick w ret w' ret' :
    reachable_by_any_calls w →
    PickMemtablesToFlush w ret = Returned (w', ret') →
    reachable_by_any_calls w'
| any_Install w fuel mems flushStatus file_number w' s :
    reachable_by_any_calls w →
    InstallMemtableFlushResults fuel mems flushStatus file_number w = Returned (w', s) →
    reachable_by_any_calls w'.

Import Merger.

(** The child [c] after [SwitchToForward] has dealt with it, in the words
    of the specification: repositioned by a seek to the key [K] of
    [current_] and, if that lands on a key equal to [K], advanced once
    more. *)
Definition repositioned {Key} (cmp : Comparator Key) (K : Key)
    (c : IteratorWrapper Key) : IteratorWrapper Key :=
  let c1 := child_Seek cmp K c in
  match keys c1 !! pos c1 with
  | Some ck => if Equal cmp K ck then mkIteratorWrapper (keys c1) (S (pos c1)) else c1
  | None => c1
  end.

(** The keys of a child are strictly increasing. *)
Definition sorted_keys {Key} (cmp : Comparator Key) (ks : list Key) : Prop :=
  ∀ p a b, ks !! p = Some a → ks !! S p = Some b → Compare cmp a b = Lt.

(** The laws of the comparator that the direction switch relies on. *)
Record ComparatorLaws {Key} (cmp : Comparator Key) : Prop := mkComparatorLaws {
  equal_spec : ∀ a b, Equal cmp a b = true ↔ Compare cmp a b = Eq;
  compare_antisym : ∀ a b, Compare cmp b a = CompOpp (Compare cmp a b);
  compare_eq_lt : ∀ a b c,
    Compare cmp a b = Eq → Compare cmp b c = Lt → Compare cmp a c = Lt
}.

(** The state [SwitchToForward] leaves, in the words of the specification:
    both heaps cleared, every child other than [current_] repositioned, the
    valid children in the forward heap, direction forward. *)
Definition switched_children {Key} (cmp : Comparator Key) (K : Key) (cur : nat)
    (cs : list (IteratorWrapper Key)) : list (IteratorWrapper Key) :=
  imap (λ i c, if decide (i = cur) then c else repositioned cmp K c) cs.

Definition switched {Key} (cmp : Comparator Key) (K : Key) (cur : nat)
    (it : MergingIterator Key) : MergingIterator Key :=
  let cs := switched_children cmp K cur (children_ it) in
  mkMergingIterator (is_arena_mode_ it) (comparator_ it) cs (current_ it) kForward
    (filter (λ i, valid_at cs i = true) (seq 0 (length cs)))
    ((λ _, []) <$> maxHeap_ it) (prefix_seek_mode_ it).

(** The state after the loop has dealt with the first [j] children. *)
Definition switching {Key} (cmp : Comparator Key) (K : Key) (cur j : nat)
    (it : MergingIterator Key) : MergingIterator Key :=
  mkMergingIterator (is_arena_mode_ it) (comparator_ it)
    (imap (λ i c, if decide (i = cur ∨ (j ≤ i)%nat) then c else repositioned cmp K c)
       (children_ it))
    (current_ it) (direction_ it)
    (filter (λ i, valid_at (switched_children cmp K cur (children_ it)) i = true)
       (seq 0 j))
    ((λ _, []) <$> maxHeap_ it) (prefix_seek_mode_ it).

(** * The remaining operations of the list *)

Module Readers.

(** [MemTableList::RefAll] *)
Definition RefAll (w : World) : World :=
  foldl (λ w memtable, update memtable Ref w) w (memlist_ (this w)).

(** [MemTableList::UnrefAll] *)
Definition UnrefAll (w : World) : World :=
  foldl (λ w memtable, update memtable Unref w) w (memlist_ (this w)).

(** [MemTableList::GetMemTables] *)
Definition GetMemTables (w : World) (output : list MemTablePtr) : list MemTablePtr :=
  foldl (λ output memtable, output ++ [memtable]) output (memlist_ (this w)).

Section collaborators.

Context {LookupKey Options : Type}.

(** Modelled from the spec: [MemTable::ApproximateMemoryUsage] is the
    estimate of one memtable, a [size_t]; it is a function of the memtable
    the address names. *)
Variable MemTable_ApproximateMemoryUsage : MemTablePtr → Z.

(** The values of [size_t] are the integers below [2^64]; its addition
    wraps around. *)
Definition size_t_add (a b : Z) : Z := (a + b) mod 2 ^ 64.

(** [MemTableList::ApproximateMemoryUsage] *)
Definition ApproximateMemoryUsage (w : World) : Z :=
  foldl (λ size memtable, size_t_add size (MemTable_ApproximateMemoryUsage memtable))
    0 (memlist_ (this w)).

(** What a lookup writes through its out-parameters [value], [s] and
    [operands]. *)
Record Lookup := mkLookup {
  value : string;
  s : Status;
  operands : list string
}.

(** Modelled from the spec: [MemTable::Get] is the lookup in one memtable;
    it returns whether the lookup is settled there and may write the
    out-parameters in either case. *)
Variable MemTable_Get : MemTablePtr → LookupKey → Lookup → Options → bool * Lookup.

(** The loop of [MemTableList::Get] over the members still to visit. *)
Fixpoint get_loop (its : list MemTablePtr) (key : LookupKey) (out : Lookup)
    (options : Options) : bool * Lookup :=
  match its with
  | [] => (false, out)
  | memtable :: its' =>
      let '(found, out) := MemTable_Get memtable key out options in
      if found then (true, out) else get_loop its' key out options
  end.

(** [MemTableList::Get] *)
Definition Get (key : LookupKey) (out : Lookup) (options : Options) (w : World)
  : bool * Lookup :=
  get_loop (memlist_ (this w)) key out options.

End collaborators.

End Readers.

Import Readers.

(** ** Vocabulary of the further properties *)

(** The flush-needed signal says whether some member is counted as not
    started. *)
Definition signal_matches_count (w : World) : Prop :=
  imm_flush_needed (this w) = (0 <? num_flush_not_started_ (this w)).

(** How often the address [m] occurs in a list. *)
Definition occurrences (m : MemTablePtr) (l : list MemTablePtr) : nat :=
  length (filter (λ x, x = m) l).

(** What a call of [InstallMemtableFlushResults] may do to the world around
    the memtables it works on: it only removes members, only erases pending
    outputs, only appends to the history of the metadata log and to the info
    log, takes no reference, and leaves every memtable outside the list as
    it was. *)
Definition only_shrinks (w w' : World) : Prop :=
  memlist_ (this w') ⊆ memlist_ (this w)
  ∧ size_ (this w') ≤ size_ (this w)
  ∧ pending_outputs w' ⊆ pending_outputs w
  ∧ calls (vset w) `prefix_of` calls (vset w')
  ∧ oracle (vset w') = oracle (vset w)
  ∧ info_log w `prefix_of` info_log w'
  ∧ (∀ x, refs_ (heap w' x) ≤ refs_ (heap w x))
  ∧ (∀ x, x ∉ memlist_ (this w) → heap w' x = heap w x).

(** The integer sum of the estimates of the members. *)
Definition total_usage (usage : MemTablePtr → Z) (l : list MemTablePtr) : Z :=
  foldr (λ m acc, usage m + acc) 0 l.

(** A run of [MergeIteratorBuilder::AddIterator] calls, one per iterator. *)
Fixpoint AddIterators {Key} (iters : list (IteratorWrapper Key))
    (b : MergeIteratorBuilder Key) : Result (MergeIteratorBuilder Key) :=
  match iters with
  | [] => Returned b
  | iter :: rest => b ← AddIterator iter b; AddIterators rest b
  end.

(** ** Further concrete runs *)

Module Cases.

(** What a call of [PickMemtablesToFlush] returned. *)
Definition selection (r : Result (World * list MemTablePtr))
  : World * list MemTablePtr :=
  match r with Returned p => p | _ => (Scenario.start Scenario.always_ok ∅, []) end.

(** Three memtables added and selected together. *)
Definition three_picked : World * list MemTablePtr :=
  selection (PickMemtablesToFlush
               (Scenario.the (Scenario.three_added Scenario.always_ok)) []).

(** The flush of memtables 1 and 2 of that selection failed. *)
Definition two_failed : World * Status :=
  Scenario.outcome
    (InstallMemtableFlushResults 0 [1; 2]%nat Scenario.flush_failed 10 three_picked.1).

(** Memtable 1 selected and flushed, its edit written; the metadata log
    accepts it. *)
Definition one_flushed : World :=
  Scenario.with_edit 1%nat [10%N] (Scenario.the Scenario.one_selected).

(** Memtable 1 selected and flushed to file 10, which is pending, its edit
    written; the metadata log refuses it. *)
Definition flushed_refused : World :=
  Scenario.with_edit 1%nat [10%N]
    (Scenario.the
       (w ← Add 1%nat (Scenario.start (Scenario.fails_at 0) {[10%N]});
        '(w, _) ← PickMemtablesToFlush w [];
        Returned w)).

(** Memtable 1 selected and flushed, its edit written; the metadata log
    refuses it. *)
Definition one_refused : World :=
  Scenario.with_edit 1%nat [10%N]
    (Scenario.the
       (w ← Add 1%nat (Scenario.start (Scenario.fails_at 0) ∅);
        '(w, _) ← PickMemtablesToFlush w [];
        Returned w)).

(** A reader holds a reference on every member of [Scenario.all_completed]
    while the call that installs memtable 1 commits them all. *)
Definition committed_under_reader : World * Status :=
  Scenario.outcome
    (InstallMemtableFlushResults 4 [1%nat] StatusOK 10
       (RefAll Scenario.all_completed)).

(** The whole selection of [three_picked] is handed back as failed. *)
Definition three_failed : World * Status :=
  Scenario.outcome
    (InstallMemtableFlushResults 0 three_picked.2 Scenario.flush_failed 10
       three_picked.1).

(** What memtables 1, 2 and 3 hold under the key [k]: memtable 3 (the
    newest) a merge operand, memtable 2 a value, memtable 1 an older
    value. *)
Definition tables (m : MemTablePtr) (key : string) (out : Lookup) (options : unit)
  : bool * Lookup :=
  if String.eqb key "k" then
    match m with
    | 1%nat => (true, mkLookup "old" StatusOK (operands out))
    | 2%nat => (true, mkLookup "new" StatusOK (operands out))
    | 3%nat => (false, mkLookup (value out) (s out) ("operand" :: operands out))
    | _ => (false, out)
    end
  else (false, out).

(** The same with other contents in memtable 1. *)
Definition other_tables (m : MemTablePtr) (key : string) (out : Lookup) (options : unit)
  : bool * Lookup :=
  match m with
  | 1%nat => (true, mkLookup "other" StatusOK [])
  | _ => tables m key out options
  end.

Definition nothing_found : Lookup := mkLookup "" StatusOK [].

(** An estimate per memtable. *)
Definition bytes (m : MemTablePtr) : Z := 4096 * Z.of_nat m.

End Cases.

(** * Properties of the memtable list *)

Lemma outcome_Returned (r : Result (MTL.World * Status)) :
  Scenario.returned r = true → r = Returned ((Scenario.outcome r).1, (Scenario.outcome r).2).
Proof. destruct r as [[w s]| | |]; done. Qed.

Arguments update : simpl never.

Section store.

Lemma heap_update m f w x :
  heap (update m f w) x = if decide (x = m) then f (heap w m) else heap w x.
Proof.
  unfold update; simpl. destruct (decide (x = m)) as [->|Hne].
  - apply fn_lookup_insert.
  - apply fn_lookup_insert_ne. congruence.
Qed.

Lemma heap_update_eq m f w : heap (update m f w) m = f (heap w m).
Proof. rewrite heap_update. by rewrite decide_True. Qed.

Lemma heap_update_ne m f w x : x ≠ m → heap (update m f w) x = heap w x.
Proof. intros. rewrite heap_update. by rewrite decide_False. Qed.

Lemma this_update m f w : this (update m f w) = this w.
Proof. reflexivity. Qed.
Lemma vset_update m f w : vset (update m f w) = vset w.
Proof. reflexivity. Qed.
Lemma info_log_update m f w : info_log (update m f w) = info_log w.
Proof. reflexivity. Qed.
Lemma pending_outputs_update m f w : pending_outputs (update m f w) = pending_outputs w.
Proof. reflexivity. Qed.

End store.

Create Rewrite HintDb world.
Hint Rewrite this_update vset_update info_log_update pending_outputs_update : world.

(** Reduce only the projections of a world built by the setters. *)
Ltac proj_simpl :=
  cbn [this heap vset info_log pending_outputs memlist_ size_
       num_flush_not_started_ commit_in_progress_ imm_flush_needed
       set_this set_heap set_vset Log erase_pending set_memlist set_size
       set_num_flush_not_started set_commit_in_progress Release_Store].

(** Reduce the projections of a world built by the setters. *)
Ltac world_simpl :=
  repeat (progress (cbn -[N.ltb N.eqb Z.ltb Z.leb Z.eqb Z.add Z.sub Z.of_nat];
                    autorewrite with world;
                    rewrite ?heap_update_eq;
                    rewrite ?heap_update_ne by done)).

Section failure_path.

Lemma reset_loop_spec mems file_number w :
  NoDup mems →
  (∀ m, m ∈ mems →
        flush_in_progress_ (heap w m) = true ∧ file_number_ (heap w m) = 0%N) →
  ∃ w', reset_loop mems file_number w = Returned w'
    ∧ memlist_ (this w') = memlist_ (this w)
    ∧ size_ (this w') = size_ (this w)
    ∧ num_flush_not_started_ (this w')
      = num_flush_not_started_ (this w) + Z.of_nat (length mems)
    ∧ commit_in_progress_ (this w') = commit_in_progress_ (this w)
    ∧ imm_flush_needed (this w')
      = match mems with [] => imm_flush_needed (this w) | _ => true end
    ∧ pending_outputs w'
      = match mems with
        | [] => pending_outputs w
        | _ => pending_outputs w ∖ {[file_number]}
        end
    ∧ vset w' = vset w
    ∧ info_log w' = info_log w
    ∧ (∀ m, m ∈ mems → heap w' m = reset_memtable (heap w m))
    ∧ (∀ m, m ∉ mems → heap w' m = heap w m).
Proof.
  revert w. induction mems as [|m mems IH]; intros w Hnd Hpre.
  - exists w. cbn. repeat split; try done; try lia.
    intros m Hm. by apply elem_of_nil in Hm.
  - apply NoDup_cons in Hnd as [Hm Hnd].
    destruct (Hpre m) as [Hfip Hfn]; [by left|].
    cbn [reset_loop]. rewrite Hfip. cbn. rewrite Hfn. cbn.
    match goal with |- ∃ w', reset_loop _ _ ?W = _ ∧ _ => set (w1 := W) end.
    assert (Hh1 : ∀ x, heap w1 x
                       = if decide (x = m) then reset_memtable (heap w m) else heap w x).
    { intros x. unfold w1. cbn. rewrite !heap_update.
      destruct (decide (x = m)) as [->|Hne]; [|done].
      by rewrite !decide_True by done. }
    assert (Hpre1 : ∀ x, x ∈ mems →
              flush_in_progress_ (heap w1 x) = true ∧ file_number_ (heap w1 x) = 0%N).
    { intros x Hx. rewrite Hh1, decide_False by (intros ->; done).
      apply Hpre. by right. }
    destruct (IH w1 Hnd Hpre1)
      as (w' & Hrun & Hl & Hsz & Hn & Hc & Hf & Hp & Hv & Hlog & Hin & Hout).
    exists w'. split; [exact Hrun|].
    rewrite Hl, Hsz, Hn, Hc, Hv, Hlog. cbn [length].
    repeat split; try done.
    + rewrite Nat2Z.inj_succ. unfold w1; world_simpl. lia.
    + rewrite Hf. by destruct mems.
    + rewrite Hp. destruct mems; [done|]. unfold w1; world_simpl. apply difference_twice_L.
    + intros x [->|Hx]%elem_of_cons.
      * rewrite Hout, Hh1 by done. by rewrite decide_True.
      * rewrite Hin, Hh1 by done. by rewrite decide_False by (intros ->; done).
    + intros x Hx. apply not_elem_of_cons in Hx as [Hne Hx].
      rewrite Hout, Hh1 by done. by rewrite decide_False.
Qed.

End failure_path.

Section failure_path_claim.

(** C3 (as amended).  A call with a failed flush status on a non-empty batch
    of distinct memtables that are [flush_in_progress_] with no file number
    (what the failure path asserts) returns the failure status unchanged;
    every member of the batch is back in the queued state, the not-started
    count has grown by the size of the batch, the flush-needed signal is
    set, the file number is no longer pending, and the list, its size, the
    other memtables and the metadata log are untouched. *)
Theorem C3_failed_flush_resets_batch fuel mems flushStatus file_number w :
  ok flushStatus = false →
  mems ≠ [] →
  NoDup mems →
  (∀ m, m ∈ mems →
        flush_in_progress_ (heap w m) = true ∧ file_number_ (heap w m) = 0%N) →
  ∃ w', InstallMemtableFlushResults fuel mems flushStatus file_number w
        = Returned (w', flushStatus)
    ∧ (∀ m, m ∈ mems →
            flush_in_progress_ (heap w' m) = false
            ∧ flush_completed_ (heap w' m) = false
            ∧ edit_ (heap w' m) = []
            ∧ file_number_ (heap w' m) = 0%N
            ∧ refs_ (heap w' m) = refs_ (heap w m))
    ∧ (∀ m, m ∉ mems → heap w' m = heap w m)
    ∧ num_flush_not_started_ (this w')
      = num_flush_not_started_ (this w) + Z.of_nat (length mems)
    ∧ imm_flush_needed (this w') = true
    ∧ (file_number ∉ pending_outputs w')
    ∧ pending_outputs w' = pending_outputs w ∖ {[file_number]}
    ∧ memlist_ (this w') = memlist_ (this w)
    ∧ size_ (this w') = size_ (this w)
    ∧ commit_in_progress_ (this w') = commit_in_progress_ (this w)
    ∧ vset w' = vset w
    ∧ info_log w' = info_log w.
Proof.
  intros Hs Hne Hnd Hpre.
  destruct (reset_loop_spec mems file_number w Hnd Hpre)
    as (w' & Hrun & Hl & Hsz & Hn & Hc & Hf & Hp & Hv & Hlog & Hin & Hout).
  exists w'. unfold InstallMemtableFlushResults. rewrite Hs. cbn. rewrite Hrun. cbn.
  destruct mems as [|m0 mems0]; [done|].
  repeat split; try done.
  all: try (rewrite (Hin m) by done; cbn; try done).
  - by apply Hpre.
  - rewrite Hp. set_unfold. tauto.
Qed.

(** An instance: memtable 1 was selected, its flush failed. *)
Lemma C3_failed_flush_resets_batch_witness :
  ∃ w', InstallMemtableFlushResults 0 [1%nat] Scenario.flush_failed 10
          (Scenario.the Scenario.one_selected)
        = Returned (w', Scenario.flush_failed)
    ∧ num_flush_not_started_ (this w') = 1
    ∧ (10%N ∉ pending_outputs w').
Proof.
  destruct (C3_failed_flush_resets_batch 0 [1%nat] Scenario.flush_failed 10
              (Scenario.the Scenario.one_selected))
    as (w' & Hrun & _ & _ & Hn & _ & Hp & _).
  - reflexivity.
  - done.
  - apply NoDup_singleton.
  - intros m ->%list_elem_of_singleton. split; reflexivity.
  - exists w'. split; [exact Hrun|]. split; [exact Hn|exact Hp].
Defined.

(** C3 as stated fails on an empty batch: the loop body never runs, so the
    file number stays in the pending-outputs set and the flush-needed signal
    is not set. *)
Lemma C3_empty_batch_counterexample :
  ∃ w', InstallMemtableFlushResults 0 [] Scenario.flush_failed 10
          (Scenario.start Scenario.always_ok {[10%N]})
        = Returned (w', Scenario.flush_failed)
    ∧ (10%N ∈ pending_outputs w')
    ∧ imm_flush_needed (this w') = false.
Proof.
  eexists. split; [reflexivity|]. split; [|reflexivity].
  cbn. set_solver.
Qed.

End failure_path_claim.

Section success_marking.

Lemma mark_loop_spec (mems : list MemTablePtr) file_number (first : bool) w :
  (∀ m, m ∈ (if first then tail mems else mems) → edit_ (heap w m) = []) →
  ∃ w', mark_loop mems file_number first w = Returned w'
    ∧ this w' = this w
    ∧ vset w' = vset w
    ∧ info_log w' = info_log w
    ∧ pending_outputs w' = pending_outputs w
    ∧ (∀ m, m ∈ mems → heap w' m = mark_memtable file_number (heap w m))
    ∧ (∀ m, m ∉ mems → heap w' m = heap w m).
Proof.
  revert first w. induction mems as [|m mems IH]; intros first w Hpre.
  - exists w. cbn. repeat split; try done. intros m Hm. by apply elem_of_nil in Hm.
  - cbn [mark_loop].
    assert (Hchk : first || (NumEntries (edit_ (heap w m)) =? 0)%nat = true).
    { destruct first; [done|]. cbn. rewrite (Hpre m) by (by left). done. }
    rewrite Hchk. cbn.
    match goal with |- ∃ w', mark_loop _ _ _ ?W = _ ∧ _ => set (w1 := W) end.
    assert (Hh1 : ∀ x, heap w1 x
              = if decide (x = m) then mark_memtable file_number (heap w m) else heap w x).
    { intros x. unfold w1. rewrite !heap_update.
      destruct (decide (x = m)) as [->|Hne]; [|done].
      by rewrite !decide_True by done. }
    assert (Hpre1 : ∀ x, x ∈ mems → edit_ (heap w1 x) = []).
    { intros x Hx. rewrite Hh1. destruct (decide (x = m)) as [->|Hne]; cbn.
      - destruct first; cbn in Hpre; [by apply Hpre|apply Hpre; by right].
      - destruct first; cbn in Hpre; [by apply Hpre|apply Hpre; by right]. }
    destruct (IH false w1 Hpre1) as (w' & Hrun & Ht & Hv & Hlog & Hp & Hin & Hout).
    exists w'. split; [exact Hrun|]. rewrite Ht, Hv, Hlog, Hp.
    repeat split; try done.
    + intros x Hx. destruct (decide (x ∈ mems)) as [Hxm|Hxm].
      * rewrite Hin, Hh1 by done. destruct (decide (x = m)) as [->|Hne]; done.
      * apply elem_of_cons in Hx as [->|Hx]; [|done].
        rewrite Hout, Hh1 by done. by rewrite decide_True.
    + intros x Hx. apply not_elem_of_cons in Hx as [Hne Hx].
      rewrite Hout, Hh1 by done. by rewrite decide_False.
Qed.

(** C5.  When the single-flight guard is already held and the flush status
    is ok, the call records the flush on every member of the batch
    ([flush_completed_] and the file number) and returns ok at once: the
    list object (membership, size, not-started count, guard, signal), the
    pending-outputs set, the metadata log and every reference count are as
    before.  The hypothesis on the edits is the batch rule the success path
    asserts: only the first member carries entries. *)
Theorem C5_guard_held_returns_early fuel (mems : list MemTablePtr) flushStatus
    file_number w :
  ok flushStatus = true →
  commit_in_progress_ (this w) = true →
  (∀ m, m ∈ tail mems → edit_ (heap w m) = []) →
  ∃ w', InstallMemtableFlushResults fuel mems flushStatus file_number w
        = Returned (w', StatusOK)
    ∧ (∀ m, m ∈ mems →
            flush_completed_ (heap w' m) = true
            ∧ file_number_ (heap w' m) = file_number)
    ∧ this w' = this w
    ∧ memlist_ (this w') = memlist_ (this w)
    ∧ size_ (this w') = size_ (this w)
    ∧ num_flush_not_started_ (this w') = num_flush_not_started_ (this w)
    ∧ pending_outputs w' = pending_outputs w
    ∧ (∀ m, refs_ (heap w' m) = refs_ (heap w m)
            ∧ flush_in_progress_ (heap w' m) = flush_in_progress_ (heap w m)
            ∧ edit_ (heap w' m) = edit_ (heap w m))
    ∧ (∀ m, m ∉ mems → heap w' m = heap w m)
    ∧ vset w' = vset w
    ∧ info_log w' = info_log w.
Proof.
  intros Hs Hcip Hpre.
  destruct (mark_loop_spec mems file_number true w Hpre)
    as (w' & Hrun & Ht & Hv & Hlog & Hp & Hin & Hout).
  exists w'. unfold InstallMemtableFlushResults. rewrite Hs. cbn.
  rewrite Hrun. cbn. rewrite Ht, Hcip.
  repeat split; try done.
  all: try (rewrite (Hin m) by done; done).
  all: destruct (decide (m ∈ mems));
    [rewrite (Hin m) by done|rewrite (Hout m) by done]; done.
Qed.

(** An instance: the guard is held while memtable 1 is installed. *)
Lemma C5_guard_held_returns_early_witness :
  ∃ w', InstallMemtableFlushResults 0 [1%nat] StatusOK 10 Scenario.guard_held
        = Returned (w', StatusOK)
    ∧ flush_completed_ (heap w' 1%nat) = true
    ∧ file_number_ (heap w' 1%nat) = 10%N
    ∧ this w' = this Scenario.guard_held
    ∧ pending_outputs w' = pending_outputs Scenario.guard_held.
Proof.
  destruct (C5_guard_held_returns_early 0 [1%nat] StatusOK 10 Scenario.guard_held)
    as (w' & Hrun & Hmark & Ht & _ & _ & _ & Hp & _).
  - reflexivity.
  - reflexivity.
  - intros m Hm. by apply elem_of_nil in Hm.
  - exists w'. destruct (Hmark 1%nat) as [Hfc Hfn]; [by left|]. done.
Defined.

End success_marking.

Section pick.

Lemma filter_not_started_same (h1 h2 : Heap) (l : list MemTablePtr) :
  (∀ m, m ∈ l → flush_in_progress_ (h1 m) = flush_in_progress_ (h2 m)) →
  filter (not_started h1) l = filter (not_started h2) l.
Proof.
  induction l as [|x l IH]; intros Heq; [done|].
  rewrite !filter_cons.
  rewrite IH by (intros; apply Heq; by right).
  assert (Hx : flush_in_progress_ (h1 x) = flush_in_progress_ (h2 x))
    by (apply Heq; by left).
  destruct (decide (not_started h1 x)) as [H1|H1],
    (decide (not_started h2 x)) as [H2|H2]; try done;
    unfold not_started in *; congruence.
Qed.

Lemma filter_not_started_ext (h1 h2 : Heap) (l : list MemTablePtr) :
  (∀ m, m ∈ l → h1 m = h2 m) →
  filter (not_started h1) l = filter (not_started h2) l.
Proof. intros Heq. apply filter_not_started_same. intros m Hm. by rewrite Heq. Qed.

Lemma pick_loop_spec (its : list MemTablePtr) w ret :
  (∀ m, m ∈ its → flush_in_progress_ (heap w m) = false →
        flush_completed_ (heap w m) = false) →
  ∃ w' sel, pick_loop its w ret = Returned (w', ret ++ sel)
    ∧ NoDup sel
    ∧ (∀ m, m ∈ sel ↔ m ∈ its ∧ flush_in_progress_ (heap w m) = false)
    ∧ sel `sublist_of` its
    ∧ (NoDup its → sel = filter (not_started (heap w)) its)
    ∧ (∀ m, m ∈ sel → heap w' m = set_flush_in_progress true (heap w m))
    ∧ (∀ m, m ∉ sel → heap w' m = heap w m)
    ∧ num_flush_not_started_ (this w')
      = num_flush_not_started_ (this w) - Z.of_nat (length sel)
    ∧ imm_flush_needed (this w')
      = (if (0 <? num_flush_not_started_ (this w))
            && (num_flush_not_started_ (this w) <=? Z.of_nat (length sel))
         then false else imm_flush_needed (this w))
    ∧ memlist_ (this w') = memlist_ (this w)
    ∧ size_ (this w') = size_ (this w)
    ∧ commit_in_progress_ (this w') = commit_in_progress_ (this w)
    ∧ vset w' = vset w
    ∧ info_log w' = info_log w
    ∧ pending_outputs w' = pending_outputs w.
Proof.
  revert w ret. induction its as [|m its IH]; intros w ret Hpre.
  - exists w, []. cbn. rewrite app_nil_r.
    split; [done|]. split; [constructor|].
    split; [intros m; rewrite !elem_of_nil; tauto|].
    repeat split; try done; try lia.
    + intros m Hm. by apply elem_of_nil in Hm.
    + destruct (Z.ltb_spec 0 (num_flush_not_started_ (this w))),
        (Z.leb_spec (num_flush_not_started_ (this w)) (Z.of_nat 0));
        cbn [andb]; try done; lia.
  - cbn [pick_loop].
    destruct (flush_in_progress_ (heap w m)) eqn:Hfip; cbn [negb].
    + (* already being flushed: skipped *)
      destruct (IH w ret) as (w' & sel & Hrun & Hnd & Hmem & Hsub & Hfil & Hin & Hout & Hrest).
      { intros x Hx. apply Hpre. by right. }
      exists w', sel. split; [exact Hrun|]. split; [exact Hnd|].
      split.
      { intros x. rewrite Hmem, elem_of_cons. split; [tauto|].
        intros [[->|Hx] Hf]; [congruence|tauto]. }
      split; [by apply sublist_cons|].
      split.
      { intros [Hm Hnd']%NoDup_cons. rewrite filter_cons.
        rewrite decide_False by (unfold not_started; congruence). by apply Hfil. }
      split; [exact Hin|]. split; [exact Hout|]. exact Hrest.
    + (* selected *)
      rewrite (Hpre m) by (done || by left). cbn [negb assert mbind Result_bind].
      match goal with |- ∃ w' sel, pick_loop _ ?W _ = _ ∧ _ => set (w1 := W) end.
      assert (Hh1 : ∀ x, heap w1 x
                = if decide (x = m) then set_flush_in_progress true (heap w m)
                  else heap w x).
      { intros x. unfold w1. rewrite heap_update.
        destruct (decide (x = m)); [|by destruct (_ =? 0)].
        by destruct (_ =? 0). }
      assert (Hn1 : num_flush_not_started_ (this w1) = num_flush_not_started_ (this w) - 1).
      { unfold w1. world_simpl. by destruct (_ =? 0). }
      assert (Hf1 : imm_flush_needed (this w1)
                = if num_flush_not_started_ (this w) - 1 =? 0 then false
                  else imm_flush_needed (this w)).
      { unfold w1. world_simpl. by destruct (_ =? 0). }
      assert (Hk1 : memlist_ (this w1) = memlist_ (this w)
                ∧ size_ (this w1) = size_ (this w)
                ∧ commit_in_progress_ (this w1) = commit_in_progress_ (this w)
                ∧ vset w1 = vset w ∧ info_log w1 = info_log w
                ∧ pending_outputs w1 = pending_outputs w).
      { unfold w1. world_simpl. by destruct (_ =? 0). }
      clearbody w1.
      destruct (IH w1 (ret ++ [m]))
        as (w' & sel & Hrun & Hnd & Hmem & Hsub & Hfil & Hin & Hout
            & Hn & Hf & Hl & Hsz & Hc & Hv & Hlog & Hp).
      { intros x Hx. rewrite Hh1. destruct (decide (x = m)); [done|].
        apply Hpre. by right. }
      assert (Hmsel : m ∉ sel).
      { rewrite Hmem, Hh1, decide_True by done. cbn. intros [_ ?]; done. }
      exists w', (m :: sel). rewrite <- app_assoc in Hrun.
      split; [exact Hrun|]. split; [by apply NoDup_cons|].
      split.
      { intros x. rewrite !elem_of_cons, Hmem, Hh1.
        destruct (decide (x = m)) as [->|Hne]; cbn; [|tauto].
        split; [tauto|]. intros _. by left. }
      split; [by apply sublist_skip|].
      split.
      { intros [Hm Hnd']%NoDup_cons. rewrite filter_cons.
        rewrite decide_True by done. f_equal. rewrite (Hfil Hnd').
        apply filter_not_started_ext. intros x Hx. rewrite Hh1.
        by rewrite decide_False by (intros ->; done). }
      split.
      { intros x [->|Hx]%elem_of_cons.
        - rewrite Hout, Hh1 by done. by rewrite decide_True.
        - rewrite Hin, Hh1 by done. by rewrite decide_False by (intros ->; done). }
      split.
      { intros x [Hne Hx]%not_elem_of_cons.
        rewrite Hout, Hh1 by done. by rewrite decide_False. }
      destruct Hk1 as (Hl1 & Hsz1 & Hc1 & Hv1 & Hlog1 & Hp1).
      rewrite Hn, Hf, Hl, Hsz, Hc, Hv, Hlog, Hp, Hn1, Hf1. cbn [length].
      rewrite Nat2Z.inj_succ.
      repeat split; try done; try lia.
      destruct (Z.eqb_spec (num_flush_not_started_ (this w) - 1) 0) as [He|He].
      * replace (num_flush_not_started_ (this w)) with 1 by lia.
        replace (0 <? 1 - 1) with false by done. cbn [andb].
        replace (0 <? 1) with true by done.
        replace (1 <=? Z.succ (Z.of_nat (length sel))) with true; [done|].
        symmetry. apply Z.leb_le. lia.
      * destruct (Z.ltb_spec 0 (num_flush_not_started_ (this w) - 1)),
          (Z.ltb_spec 0 (num_flush_not_started_ (this w))),
          (Z.leb_spec (num_flush_not_started_ (this w) - 1) (Z.of_nat (length sel))),
          (Z.leb_spec (num_flush_not_started_ (this w)) (Z.succ (Z.of_nat (length sel))));
          cbn [andb]; try done; lia.
Qed.

(** C6.  [PickMemtablesToFlush] visits the members oldest first and selects
    exactly those not yet [flush_in_progress_]: the selection is appended to
    the result in oldest-to-newest order (for a list without repeated
    members it is the filter of the reversed list), every selected member
    is marked [flush_in_progress_], nothing else changes in any memtable,
    the not-started count drops by the number selected, the membership and
    size of the list are unchanged, and the flush-needed signal is cleared
    exactly when the count passes through zero during the scan.  The
    hypothesis is the assertion of the loop: a member that is not in
    progress is not completed. *)
Theorem C6_pick_selects_not_started w ret :
  (∀ m, m ∈ memlist_ (this w) → flush_in_progress_ (heap w m) = false →
        flush_completed_ (heap w m) = false) →
  ∃ w' sel, PickMemtablesToFlush w ret = Returned (w', ret ++ sel)
    ∧ NoDup sel
    ∧ (∀ m, m ∈ sel ↔ m ∈ memlist_ (this w) ∧ flush_in_progress_ (heap w m) = false)
    ∧ sel `sublist_of` reverse (memlist_ (this w))
    ∧ (NoDup (memlist_ (this w)) →
       sel = filter (not_started (heap w)) (reverse (memlist_ (this w))))
    ∧ (∀ m, m ∈ sel → heap w' m = set_flush_in_progress true (heap w m))
    ∧ (∀ m, m ∉ sel → heap w' m = heap w m)
    ∧ (∀ m, m ∈ memlist_ (this w) → flush_in_progress_ (heap w' m) = true)
    ∧ num_flush_not_started_ (this w')
      = num_flush_not_started_ (this w) - Z.of_nat (length sel)
    ∧ imm_flush_needed (this w')
      = (if (0 <? num_flush_not_started_ (this w))
            && (num_flush_not_started_ (this w) <=? Z.of_nat (length sel))
         then false else imm_flush_needed (this w))
    ∧ memlist_ (this w') = memlist_ (this w)
    ∧ size_ (this w') = size_ (this w)
    ∧ commit_in_progress_ (this w') = commit_in_progress_ (this w)
    ∧ vset w' = vset w
    ∧ info_log w' = info_log w
    ∧ pending_outputs w' = pending_outputs w.
Proof.
  intros Hpre. unfold PickMemtablesToFlush.
  destruct (pick_loop_spec (reverse (memlist_ (this w))) w ret)
    as (w' & sel & Hrun & Hnd & Hmem & Hsub & Hfil & Hin & Hout & Hrest).
  { intros m Hm. apply Hpre. by apply elem_of_reverse. }
  exists w', sel. split; [exact Hrun|]. split; [exact Hnd|].
  split; [intros m; by rewrite Hmem, elem_of_reverse|].
  split; [exact Hsub|].
  split; [intros Hnd'; apply Hfil; by rewrite reverse_Permutation|].
  split; [exact Hin|]. split; [exact Hout|].
  split; [|exact Hrest].
  intros m Hm. destruct (flush_in_progress_ (heap w m)) eqn:Hfip.
  - rewrite Hout; [done|]. rewrite Hmem. intros [_ ?]. congruence.
  - rewrite Hin; [done|]. apply Hmem. split; [by apply elem_of_reverse|done].
Qed.

(** An instance: three memtables added, then picked. *)
Lemma C6_pick_selects_not_started_witness :
  ∃ w', PickMemtablesToFlush
          (Scenario.the (Scenario.three_added Scenario.always_ok)) []
        = Returned (w', [1; 2; 3]%nat)
    ∧ num_flush_not_started_ (this w') = 0
    ∧ imm_flush_needed (this w') = false
    ∧ memlist_ (this w') = [3; 2; 1]%nat.
Proof.
  destruct (C6_pick_selects_not_started
              (Scenario.the (Scenario.three_added Scenario.always_ok)) [])
    as (w' & sel & Hrun & _ & _ & _ & Hfil & _ & _ & _ & Hn & Hf & Hl & _).
  - intros m _ _. reflexivity.
  - assert (Hsel : sel = [1; 2; 3]%nat).
    { apply Hfil. compute_done. }
    subst sel. exists w'. split; [exact Hrun|].
    split; [exact Hn|]. split; [exact Hf|exact Hl].
Defined.

End pick.

(** ** The commit scan, step by step *)

Section commit_steps.

Lemma commit_one_Returned m first w w1 :
  commit_one m first w = Returned w1 →
  file_number_ (heap w m) ≠ 0%N
  ∧ memlist_ (this w1) = list_remove m (memlist_ (this w))
  ∧ size_ (this w1) = size_ (this w) - 1
  ∧ num_flush_not_started_ (this w1) = num_flush_not_started_ (this w)
  ∧ commit_in_progress_ (this w1) = commit_in_progress_ (this w)
  ∧ imm_flush_needed (this w1) = imm_flush_needed (this w)
  ∧ vset w1 = vset w
  ∧ info_log w1 = info_log w ++ [CommitDone (file_number_ (heap w m)) (negb first)]
  ∧ pending_outputs w1 = pending_outputs w ∖ {[file_number_ (heap w m)]}
  ∧ heap w1 m = Unref (heap w m)
  ∧ (∀ x, x ≠ m → heap w1 x = heap w x).
Proof.
  unfold commit_one, assert. world_simpl.
  destruct (N.ltb_spec 0 (file_number_ (heap w m))) as [Hpos|Hpos]; cbn; [|done].
  intros Heq. injection Heq as Heq. subst w1. world_simpl.
  repeat split; try done; try lia.
  intros x Hx. by world_simpl.
Qed.

Lemma commit_one_total m first w :
  file_number_ (heap w m) ≠ 0%N → ∃ w1, commit_one m first w = Returned w1.
Proof.
  intros Hfn. unfold commit_one, assert. world_simpl.
  destruct (N.ltb_spec 0 (file_number_ (heap w m))) as [Hpos|Hpos]; cbn; [eauto|lia].
Qed.

Lemma rollback_one_spec m w :
  let w1 := (rollback_one m w).1 in
  (rollback_one m w).2 = Status_IOError "Unable to commit flushed memtable"
  ∧ memlist_ (this w1) = memlist_ (this w)
  ∧ size_ (this w1) = size_ (this w)
  ∧ num_flush_not_started_ (this w1) = num_flush_not_started_ (this w) + 1
  ∧ commit_in_progress_ (this w1) = commit_in_progress_ (this w)
  ∧ imm_flush_needed (this w1) = true
  ∧ vset w1 = vset w
  ∧ info_log w1 = info_log w ++ [CommitFailed (file_number_ (heap w m))]
  ∧ pending_outputs w1 = pending_outputs w ∖ {[file_number_ (heap w m)]}
  ∧ heap w1 m = rolled_back_memtable (heap w m)
  ∧ (∀ x, x ≠ m → heap w1 x = heap w x).
Proof.
  unfold rollback_one. world_simpl.
  repeat split; try done.
  intros x Hx. by world_simpl.
Qed.

(** One turn of the [do] loop, then its [while] test. *)
Lemma batch_loop_commit fuel file_number first m s w w1 :
  ok s = true →
  commit_one m first w = Returned w1 →
  batch_loop (S fuel) file_number first m s w
  = match last (memlist_ (this w1)) with
    | Some m' =>
        if (file_number_ (heap w1 m') =? file_number)%N
        then batch_loop fuel file_number false m' s w1
        else Returned (w1, s)
    | None => Returned (w1, s)
    end.
Proof. intros Hs Hc. cbn [batch_loop]. rewrite Hs, Hc. reflexivity. Qed.

Lemma batch_loop_commit_fails fuel file_number first m s w :
  ok s = true →
  commit_one m first w = AssertionFailed →
  batch_loop (S fuel) file_number first m s w = AssertionFailed.
Proof. intros Hs Hc. cbn [batch_loop]. rewrite Hs, Hc. reflexivity. Qed.

Lemma batch_loop_rollback fuel file_number first m s w :
  ok s = false →
  batch_loop (S fuel) file_number first m s w
  = let w1 := (rollback_one m w).1 in
    let s1 := Status_IOError "Unable to commit flushed memtable" in
    match last (memlist_ (this w1)) with
    | Some m' =>
        if (file_number_ (heap w1 m') =? file_number)%N
        then batch_loop fuel file_number false m' s1 w1
        else Returned (w1, s1)
    | None => Returned (w1, s1)
    end.
Proof. intros Hs. cbn [batch_loop]. rewrite Hs. reflexivity. Qed.

Lemma commit_one_cases m first w :
  (∃ w1, commit_one m first w = Returned w1) ∨ commit_one m first w = AssertionFailed.
Proof.
  unfold commit_one, assert. world_simpl.
  destruct (0 <? file_number_ (heap w m))%N; cbn; eauto.
Qed.

(** One turn of the [while] loop. *)
Lemma commit_scan_turn fuel file_number s w m :
  ok s = true →
  last (memlist_ (this w)) = Some m →
  flush_completed_ (heap w m) = true →
  commit_scan (S fuel) file_number s w
  = let w0 := Log (CommitStarted (file_number_ (heap w m))) w in
    let sv := LogAndApply (vset w) (edit_ (heap w m)) in
    '(w1, s1) ← batch_loop fuel file_number true m sv.1 (set_vset sv.2 w0);
    commit_scan fuel file_number s1 w1.
Proof.
  intros Hs Hl Hc. cbn [commit_scan]. rewrite Hl, Hs. cbn. rewrite Hc. reflexivity.
Qed.

Lemma commit_scan_break fuel file_number s w m :
  ok s = true →
  last (memlist_ (this w)) = Some m →
  flush_completed_ (heap w m) = false →
  commit_scan (S fuel) file_number s w = Returned (w, s).
Proof.
  intros Hs Hl Hc. cbn [commit_scan]. rewrite Hl, Hs. cbn. rewrite Hc. reflexivity.
Qed.

Lemma commit_scan_empty fuel file_number s w :
  memlist_ (this w) = [] →
  commit_scan (S fuel) file_number s w = Returned (w, s).
Proof. intros Hl. cbn [commit_scan]. rewrite Hl. reflexivity. Qed.

Lemma commit_scan_error fuel file_number s w :
  ok s = false →
  commit_scan (S fuel) file_number s w = Returned (w, s).
Proof.
  intros Hs. cbn [commit_scan]. destruct (last _); [|done]. by rewrite Hs.
Qed.

End commit_steps.

(** ** Commit order *)

Section commit_order.

Lemma commits_oldest_first_trans l1 l2 l3 :
  commits_oldest_first l1 l2 → commits_oldest_first l2 l3 →
  commits_oldest_first l1 l3.
Proof.
  induction 1 as [|l m l' Hlast _ IH]; [done|].
  intros H3. eapply cof_commit; eauto.
Qed.

Lemma list_remove_not_in m (l : list MemTablePtr) : m ∉ l → list_remove m l = l.
Proof.
  unfold list_remove. induction l as [|x l IH]; [done|].
  intros [Hne Hl]%not_elem_of_cons.
  rewrite filter_cons, decide_True by congruence. by rewrite IH.
Qed.

Lemma list_remove_last m (l : list MemTablePtr) :
  m ∉ l → list_remove m (l ++ [m]) = l.
Proof.
  intros Hm. unfold list_remove. rewrite filter_app.
  fold (list_remove m l). rewrite list_remove_not_in by done.
  rewrite filter_cons, decide_False by (intros ?; done).
  by rewrite filter_nil, app_nil_r.
Qed.

Lemma NoDup_last_split (l : list MemTablePtr) m :
  NoDup l → last l = Some m →
  ∃ l0, l = l0 ++ [m] ∧ (m ∉ l0) ∧ NoDup l0 ∧ list_remove m l = l0.
Proof.
  intros Hnd [l0 ->]%last_Some.
  apply NoDup_app in Hnd as (Hnd0 & Hdisj & _).
  assert (m ∉ l0) by (intros Hm; apply (Hdisj m Hm); by left).
  exists l0. repeat split; try done. by apply list_remove_last.
Qed.

Lemma commits_oldest_first_suffix l l' :
  commits_oldest_first l l' → NoDup l →
  NoDup l' ∧ ∃ committed, l = l' ++ committed.
Proof.
  induction 1 as [l|l m l' Hlast _ IH]; intros Hnd.
  - split; [done|]. exists []. by rewrite app_nil_r.
  - destruct (NoDup_last_split l m Hnd Hlast) as (l0 & -> & Hm & Hnd0 & Hrm).
    rewrite Hrm in IH. destruct (IH Hnd0) as (Hnd' & c & ->).
    split; [done|]. exists (c ++ [m]). by rewrite app_assoc.
Qed.

Lemma batch_loop_order fuel file_number first m s w w' s' :
  last (memlist_ (this w)) = Some m →
  batch_loop fuel file_number first m s w = Returned (w', s') →
  commits_oldest_first (memlist_ (this w)) (memlist_ (this w')).
Proof.
  revert first m s w. induction fuel as [|fuel IH]; intros first m s w Hlast Hrun;
    [done|].
  destruct (ok s) eqn:Hs.
  - destruct (commit_one_cases m first w) as [[w1 Hc]|Hc];
      [|by rewrite (batch_loop_commit_fails _ _ _ _ _ _ Hs Hc) in Hrun].
    rewrite (batch_loop_commit _ _ _ _ _ _ _ Hs Hc) in Hrun.
    destruct (commit_one_Returned _ _ _ _ Hc) as (_ & Hl1 & _).
    eapply cof_commit; [exact Hlast|]. rewrite <- Hl1.
    destruct (last (memlist_ (this w1))) as [m'|] eqn:Hlast1.
    + destruct (file_number_ (heap w1 m') =? file_number)%N.
      * eapply IH; eauto.
      * injection Hrun as <- <-. constructor.
    + injection Hrun as <- <-. constructor.
  - rewrite (batch_loop_rollback _ _ _ _ _ _ Hs) in Hrun. cbn zeta in Hrun.
    destruct (rollback_one_spec m w) as (_ & Hl1 & _). cbn zeta in Hl1.
    rewrite <- Hl1.
    destruct (last (memlist_ (this (rollback_one m w).1))) as [m'|] eqn:Hlast1.
    + destruct (file_number_ (heap (rollback_one m w).1 m') =? file_number)%N.
      * eapply IH; eauto.
      * injection Hrun as <- <-. constructor.
    + injection Hrun as <- <-. constructor.
Qed.

Lemma commit_scan_order fuel file_number s w w' s' :
  commit_scan fuel file_number s w = Returned (w', s') →
  commits_oldest_first (memlist_ (this w)) (memlist_ (this w')).
Proof.
  revert s w. induction fuel as [|fuel IH]; intros s w Hrun; [done|].
  destruct (ok s) eqn:Hs;
    [|rewrite commit_scan_error in Hrun by done; injection Hrun as <- <-; constructor].
  destruct (last (memlist_ (this w))) as [m|] eqn:Hlast;
    [|apply last_None in Hlast; rewrite commit_scan_empty in Hrun by done;
      injection Hrun as <- <-; constructor].
  destruct (flush_completed_ (heap w m)) eqn:Hfc;
    [|rewrite (commit_scan_break _ _ _ _ m) in Hrun by done;
      injection Hrun as <- <-; constructor].
  rewrite (commit_scan_turn _ _ _ _ m) in Hrun by done. cbn zeta in Hrun.
  destruct (batch_loop _ _ _ _ _ _) as [[w1 s1]| | |] eqn:Hb; try done.
  cbn in Hrun.
  eapply commits_oldest_first_trans; [|eapply IH; exact Hrun].
  eapply (batch_loop_order _ _ _ _ _ _ _ _ _ Hb).
  Unshelve. exact Hlast.
Qed.

End commit_order.

(** ** What a returning call tells about its batch *)

Section batch_preconditions.

(** The failure path runs to its end only on distinct memtables that pass
    its two assertions. *)
Lemma reset_loop_Returned mems file_number w w' :
  reset_loop mems file_number w = Returned w' →
  NoDup mems
  ∧ ∀ m, m ∈ mems →
         flush_in_progress_ (heap w m) = true ∧ file_number_ (heap w m) = 0%N.
Proof.
  revert w. induction mems as [|m mems IH]; intros w Hrun.
  - split; [constructor|]. intros m Hm. by apply elem_of_nil in Hm.
  - cbn [reset_loop] in Hrun. unfold assert in Hrun.
    destruct (flush_in_progress_ (heap w m)) eqn:Hfip; [|done].
    destruct (N.eqb_spec (file_number_ (heap w m)) 0) as [Hfn|Hfn]; [|done].
    cbn [mbind Result_bind] in Hrun.
    apply IH in Hrun as [Hnd Hpre].
    assert (Hm : m ∉ mems).
    { intros Hm. destruct (Hpre m Hm) as [Hf _]. revert Hf. by world_simpl. }
    split; [by apply NoDup_cons|].
    intros x [->|Hx]%elem_of_cons; [done|].
    assert (x ≠ m) by (intros ->; done).
    destruct (Hpre x Hx) as [Hf Hn]. revert Hf Hn. by world_simpl.
Qed.

(** The success path gets past its batch rule only when every member after
    the first carries an empty edit. *)
Lemma mark_loop_Returned (mems : list MemTablePtr) file_number (first : bool) w w' :
  mark_loop mems file_number first w = Returned w' →
  ∀ m, m ∈ (if first then tail mems else mems) → edit_ (heap w m) = [].
Proof.
  revert first w. induction mems as [|m mems IH]; intros first w Hrun x Hx.
  - destruct first; by apply elem_of_nil in Hx.
  - cbn [mark_loop] in Hrun. unfold assert in Hrun.
    destruct (first || (NumEntries (edit_ (heap w m)) =? 0)%nat) eqn:Hchk; [|done].
    cbn [mbind Result_bind] in Hrun.
    pose proof (IH false _ Hrun) as Hrest. cbn in Hrest.
    assert (Hedit : ∀ y, edit_ (heap (update m (set_file_number file_number)
                                 (update m (set_flush_completed true) w)) y)
                         = edit_ (heap w y)).
    { intros y. destruct (decide (y = m)) as [->|Hne]; by world_simpl. }
    destruct first; cbn in Hx.
    + rewrite <- Hedit. by apply Hrest.
    + apply elem_of_cons in Hx as [->|Hx].
      * cbn in Hchk. apply Nat.eqb_eq in Hchk. unfold NumEntries in Hchk.
        by destruct (edit_ (heap w m)).
      * rewrite <- Hedit. by apply Hrest.
Qed.

End batch_preconditions.

Section install_cases.

Lemma Install_Returned fuel mems flushStatus file_number w w' s :
  InstallMemtableFlushResults fuel mems flushStatus file_number w = Returned (w', s) →
  (ok flushStatus = false ∧ s = flushStatus
   ∧ reset_loop mems file_number w = Returned w')
  ∨ (ok flushStatus = true
     ∧ ∃ wm, mark_loop mems file_number true w = Returned wm
       ∧ ((commit_in_progress_ (this wm) = true ∧ w' = wm ∧ s = StatusOK)
          ∨ (commit_in_progress_ (this wm) = false
             ∧ ∃ ws, commit_scan fuel file_number StatusOK
                       (set_commit_in_progress true wm) = Returned (ws, s)
               ∧ w' = set_commit_in_progress false ws))).
Proof.
  unfold InstallMemtableFlushResults. intros Hrun.
  destruct (ok flushStatus) eqn:Hs; cbn [negb] in Hrun.
  - right. split; [done|].
    destruct (mark_loop mems file_number true w) as [wm| | |] eqn:Hm; try done.
    cbn [mbind Result_bind] in Hrun. exists wm. split; [done|].
    destruct (commit_in_progress_ (this wm)) eqn:Hcip.
    + left. by injection Hrun as <- <-.
    + right. split; [done|].
      destruct (commit_scan _ _ _ _) as [[ws s1]| | |] eqn:Hscan; try done.
      cbn in Hrun. injection Hrun as <- <-. by exists ws.
  - left. split; [done|].
    destruct (reset_loop mems file_number w) as [wr| | |] eqn:Hr; try done.
    cbn in Hrun. by injection Hrun as <- <-.
Qed.

End install_cases.

Section commit_order_claim.

(** C1.  A call that returns has committed in creation order: the list it
    leaves is obtained from the list it found by removals that each take
    the oldest member then present, so no member is ever removed while an
    older one is still in the list, completed or not.  For a list without
    repeated members the committed memtables are therefore a block at the
    old end.  And the scan stops at once at an oldest member that has not
    completed flushing: if that member is not part of the batch and is not
    [flush_completed_], the call removes nothing. *)
Theorem C1_commits_in_creation_order fuel mems flushStatus file_number w w' s :
  InstallMemtableFlushResults fuel mems flushStatus file_number w = Returned (w', s) →
  commits_oldest_first (memlist_ (this w)) (memlist_ (this w'))
  ∧ (NoDup (memlist_ (this w)) →
     ∃ committed, memlist_ (this w) = memlist_ (this w') ++ committed)
  ∧ (∀ oldest, last (memlist_ (this w)) = Some oldest →
               oldest ∉ mems →
               flush_completed_ (heap w oldest) = false →
               memlist_ (this w') = memlist_ (this w)
               ∧ size_ (this w') = size_ (this w)
               ∧ s = flushStatus).
Proof.
  intros Hrun.
  assert (Horder : commits_oldest_first (memlist_ (this w)) (memlist_ (this w'))).
  { apply Install_Returned in Hrun
      as [(Hs & -> & Hr)|(Hs & wm & Hm & [(Hcip & -> & ->)|(Hcip & ws & Hscan & ->)])].
    - destruct (reset_loop_Returned _ _ _ _ Hr) as [Hnd Hpre].
      destruct (reset_loop_spec mems file_number w Hnd Hpre) as (w2 & Hr2 & Hl & _).
      rewrite Hr in Hr2. injection Hr2 as <-. rewrite Hl. constructor.
    - destruct (mark_loop_spec mems file_number true w (mark_loop_Returned _ _ _ _ _ Hm))
        as (w2 & Hm2 & Ht & _).
      rewrite Hm in Hm2. injection Hm2 as <-. rewrite Ht. constructor.
    - destruct (mark_loop_spec mems file_number true w (mark_loop_Returned _ _ _ _ _ Hm))
        as (w2 & Hm2 & Ht & _).
      rewrite Hm in Hm2. injection Hm2 as <-.
      apply commit_scan_order in Hscan. revert Hscan. cbn. by rewrite Ht. }
  split; [exact Horder|]. split.
  { intros Hnd. by apply (commits_oldest_first_suffix _ _ Horder). }
  intros oldest Hlast Hnotin Hfc.
  apply Install_Returned in Hrun
    as [(Hs & -> & Hr)|(Hs & wm & Hm & [(Hcip & -> & ->)|(Hcip & ws & Hscan & ->)])].
  - destruct (reset_loop_Returned _ _ _ _ Hr) as [Hnd Hpre].
    destruct (reset_loop_spec mems file_number w Hnd Hpre) as (w2 & Hr2 & Hl & Hsz & _).
    rewrite Hr in Hr2. injection Hr2 as <-. done.
  - destruct (mark_loop_spec mems file_number true w (mark_loop_Returned _ _ _ _ _ Hm))
      as (w2 & Hm2 & Ht & _).
    rewrite Hm in Hm2. injection Hm2 as <-. rewrite Ht.
    by destruct flushStatus.
  - destruct (mark_loop_spec mems file_number true w (mark_loop_Returned _ _ _ _ _ Hm))
      as (w2 & Hm2 & Ht & _ & _ & _ & _ & Hout).
    rewrite Hm in Hm2. injection Hm2 as <-.
    destruct fuel as [|fuel]; [done|].
    rewrite (commit_scan_break _ _ _ _ oldest) in Hscan.
    + injection Hscan as <- <-. cbn. rewrite Ht. by destruct flushStatus.
    + done.
    + cbn. by rewrite Ht.
    + cbn. by rewrite Hout.
Qed.

(** Two instances.  While memtable 1 is being flushed, installing the
    batch of memtables 2 and 3 commits nothing; once all three are
    completed, installing memtable 1 commits 1, 2, 3 from the old end. *)
Lemma C1_commits_in_creation_order_witness :
  (memlist_ (this Scenario.waiting_outcome.1) = memlist_ (this Scenario.waiting)
   ∧ memlist_ (this Scenario.waiting) = [3; 2; 1]%nat)
  ∧ commits_oldest_first [3; 2; 1]%nat (memlist_ (this Scenario.all_completed_outcome.1))
  ∧ memlist_ (this Scenario.all_completed_outcome.1) = [].
Proof.
  split; [|split; [|reflexivity]].
  - destruct (C1_commits_in_creation_order 4 [2; 3]%nat StatusOK 11 Scenario.waiting
                Scenario.waiting_outcome.1 Scenario.waiting_outcome.2)
      as (_ & _ & Hstop).
    + apply outcome_Returned. reflexivity.
    + destruct (Hstop 1%nat) as (Hl & _); [reflexivity|compute_done|reflexivity|].
      split; [exact Hl|reflexivity].
  - destruct (C1_commits_in_creation_order 4 [1%nat] StatusOK 10
                Scenario.all_completed Scenario.all_completed_outcome.1
                Scenario.all_completed_outcome.2)
      as (Horder & _).
    + apply outcome_Returned. reflexivity.
    + exact Horder.
Defined.

End commit_order_claim.

Section apply_failure.

(** Once the status is an error the [do] loop only rolls back: it returns
    after one turn, unless the batch file number is 0, in which case the
    member just reset to file number 0 matches again and the loop never
    ends. *)
Lemma batch_loop_failed fuel file_number first m s w w' s' :
  ok s = false →
  last (memlist_ (this w)) = Some m →
  batch_loop fuel file_number first m s w = Returned (w', s') →
  file_number ≠ 0%N
  ∧ w' = (rollback_one m w).1
  ∧ s' = Status_IOError "Unable to commit flushed memtable".
Proof.
  revert first s w. induction fuel as [|fuel IH]; intros first s w Hs Hlast Hrun;
    [done|].
  rewrite (batch_loop_rollback _ _ _ _ _ _ Hs) in Hrun. cbn zeta in Hrun.
  destruct (rollback_one_spec m w) as (_ & Hl1 & _ & _ & _ & _ & _ & _ & _ & Hm1 & _).
  cbn zeta in Hl1, Hm1. rewrite Hl1, Hlast, Hm1 in Hrun.
  cbn [file_number_ rolled_back_memtable] in Hrun.
  destruct (N.eqb_spec 0 file_number) as [<-|Hne].
  - assert (Hlast1 : last (memlist_ (this (rollback_one m w).1)) = Some m)
      by (by rewrite Hl1).
    assert (Hs1 : ok (Status_IOError "Unable to commit flushed memtable") = false)
      by done.
    by destruct (IH _ _ _ Hs1 Hlast1 Hrun) as [Hcontra _].
  - by injection Hrun as <- <-.
Qed.

Lemma batch_loop_failed_total fuel file_number first m s w :
  ok s = false →
  last (memlist_ (this w)) = Some m →
  file_number ≠ 0%N →
  batch_loop (S fuel) file_number first m s w
  = Returned ((rollback_one m w).1, Status_IOError "Unable to commit flushed memtable").
Proof.
  intros Hs Hlast Hne.
  rewrite (batch_loop_rollback _ _ _ _ _ _ Hs). cbn zeta.
  destruct (rollback_one_spec m w) as (_ & Hl1 & _ & _ & _ & _ & _ & _ & _ & Hm1 & _).
  cbn zeta in Hl1, Hm1. rewrite Hl1, Hlast, Hm1.
  cbn [file_number_ rolled_back_memtable].
  by destruct (N.eqb_spec 0 file_number).
Qed.

(** A call that ran the scan has released the guard when it returns. *)
Lemma Install_releases_guard fuel mems flushStatus file_number w w' s :
  ok flushStatus = true →
  commit_in_progress_ (this w) = false →
  InstallMemtableFlushResults fuel mems flushStatus file_number w = Returned (w', s) →
  commit_in_progress_ (this w') = false.
Proof.
  intros Hs Hcip Hrun.
  apply Install_Returned in Hrun
    as [(Hs' & _)|(_ & wm & Hm & [(Hcip' & _)|(_ & ws & _ & ->)])];
    [congruence| |done].
  destruct (mark_loop_spec mems file_number true w (mark_loop_Returned _ _ _ _ _ Hm))
    as (w2 & Hm2 & Ht & _).
  rewrite Hm in Hm2. injection Hm2 as <-. congruence.
Qed.

(** With file number 0 the loop never ends once the status is an error:
    the member it has just rolled back carries file number 0 and matches the
    test again. *)
Lemma batch_loop_zero_never_ends fuel first m s w :
  ok s = false →
  last (memlist_ (this w)) = Some m →
  batch_loop fuel 0 first m s w = OutOfFuel.
Proof.
  revert first s w. induction fuel as [|fuel IH]; intros first s w Hs Hlast; [done|].
  rewrite batch_loop_rollback by done. cbn zeta.
  destruct (rollback_one_spec m w) as (_ & Hl1 & _ & _ & _ & _ & _ & _ & _ & Hm1 & _).
  cbn zeta in Hl1, Hm1. rewrite Hl1, Hlast, Hm1.
  cbn [file_number_ rolled_back_memtable N.eqb].
  apply IH; [done|by rewrite Hl1].
Qed.

End apply_failure.

(** ** Termination of the scan *)

Section enough_fuel.

Lemma list_remove_shorter m (l : list MemTablePtr) :
  m ∈ l → (length (list_remove m l) < length l)%nat.
Proof. intros Hm. apply (length_filter_lt _ _ m); [done|]. by intros ?. Qed.

(** A turn of the [do] loop either ends in an error status or has made the
    list shorter. *)
Lemma batch_loop_progress fuel file_number first m s w w1 s1 :
  last (memlist_ (this w)) = Some m →
  batch_loop fuel file_number first m s w = Returned (w1, s1) →
  ok s1 = false ∨ (length (memlist_ (this w1)) < length (memlist_ (this w)))%nat.
Proof.
  revert first m s w. induction fuel as [|fuel IH]; intros first m s w Hlast Hrun;
    [done|].
  destruct (ok s) eqn:Hs.
  - destruct (commit_one_cases m first w) as [[w2 Hc]|Hc];
      [|by rewrite (batch_loop_commit_fails _ _ _ _ _ _ Hs Hc) in Hrun].
    rewrite (batch_loop_commit _ _ _ _ _ _ _ Hs Hc) in Hrun.
    destruct (commit_one_Returned _ _ _ _ Hc) as (_ & Hl2 & _).
    assert (Hshort : (length (memlist_ (this w2)) < length (memlist_ (this w)))%nat).
    { rewrite Hl2. apply list_remove_shorter. by eapply last_Some_elem_of. }
    destruct (last (memlist_ (this w2))) as [m'|] eqn:Hlast2;
      [|injection Hrun as <- <-; by right].
    destruct (file_number_ (heap w2 m') =? file_number)%N;
      [|injection Hrun as <- <-; by right].
    destruct (IH _ _ _ _ Hlast2 Hrun) as [?|?]; [by left|right; lia].
  - apply batch_loop_failed in Hrun as (_ & _ & ->); [by left|done..].
Qed.

Lemma batch_loop_enough_fuel fuel file_number first m s w :
  file_number ≠ 0%N →
  last (memlist_ (this w)) = Some m →
  (length (memlist_ (this w)) ≤ fuel)%nat →
  batch_loop fuel file_number first m s w ≠ OutOfFuel.
Proof.
  intros Hfile. revert first m s w.
  induction fuel as [|fuel IH]; intros first m s w Hlast Hfuel.
  - apply last_Some_elem_of in Hlast. destruct (memlist_ (this w)); [|cbn in Hfuel; lia].
    by apply elem_of_nil in Hlast.
  - destruct (ok s) eqn:Hs; [|by rewrite batch_loop_failed_total].
    destruct (commit_one_cases m first w) as [[w2 Hc]|Hc];
      [|by rewrite (batch_loop_commit_fails _ _ _ _ _ _ Hs Hc)].
    rewrite (batch_loop_commit _ _ _ _ _ _ _ Hs Hc).
    destruct (commit_one_Returned _ _ _ _ Hc) as (_ & Hl2 & _).
    assert (Hshort : (length (memlist_ (this w2)) < length (memlist_ (this w)))%nat).
    { rewrite Hl2. apply list_remove_shorter. by eapply last_Some_elem_of. }
    destruct (last (memlist_ (this w2))) as [m'|] eqn:Hlast2; [|done].
    destruct (file_number_ (heap w2 m') =? file_number)%N; [|done].
    apply IH; [done|lia].
Qed.

(** With a real file number and more fuel than the list has members, the
    scan comes to an end. *)
Lemma commit_scan_enough_fuel fuel file_number s w :
  file_number ≠ 0%N →
  (length (memlist_ (this w)) < fuel)%nat →
  commit_scan fuel file_number s w ≠ OutOfFuel.
Proof.
  intros Hfile. revert s w. induction fuel as [|fuel IH]; intros s w Hfuel; [lia|].
  destruct (ok s) eqn:Hs; [|by rewrite commit_scan_error].
  destruct (last (memlist_ (this w))) as [m|] eqn:Hlast;
    [|apply last_None in Hlast; by rewrite commit_scan_empty].
  destruct (flush_completed_ (heap w m)) eqn:Hfc;
    [|by rewrite (commit_scan_break _ _ _ _ m)].
  rewrite (commit_scan_turn _ _ _ _ m) by done. cbn zeta.
  destruct (batch_loop _ _ _ _ _ _) as [[w1 s1]| | |] eqn:Hb; try done.
  - cbn [mbind Result_bind].
    apply batch_loop_progress in Hb as [Herr|Hshort]; [| |exact Hlast].
    + destruct fuel as [|fuel]; [|by rewrite commit_scan_error].
      apply last_Some_elem_of in Hlast.
      destruct (memlist_ (this w)); [by apply elem_of_nil in Hlast|cbn in Hfuel; lia].
    + apply IH. cbn in Hshort. lia.
  - exfalso. revert Hb. apply batch_loop_enough_fuel; [done..|cbn; lia].
Qed.

Lemma Install_enough_fuel fuel mems flushStatus file_number w :
  file_number ≠ 0%N →
  (length (memlist_ (this w)) < fuel)%nat →
  InstallMemtableFlushResults fuel mems flushStatus file_number w ≠ OutOfFuel.
Proof.
  intros Hfile Hfuel. unfold InstallMemtableFlushResults.
  destruct (ok flushStatus); cbn [negb].
  - destruct (mark_loop mems file_number true w) as [wm| | |] eqn:Hm; try done.
    + cbn [mbind Result_bind].
      destruct (mark_loop_spec mems file_number true w
                  (mark_loop_Returned _ _ _ _ _ Hm)) as (w2 & Hm2 & Ht & _).
      rewrite Hm in Hm2. injection Hm2 as <-.
      destruct (commit_in_progress_ (this wm)); [done|].
      destruct (commit_scan _ _ _ _) as [[ws s1]| | |] eqn:Hscan; try done.
      exfalso. revert Hscan. apply commit_scan_enough_fuel; [done|].
      cbn. by rewrite Ht.
    + exfalso. revert Hm. clear. revert w. generalize true.
      induction mems as [|m mems IH]; intros b w; [done|].
      cbn [mark_loop]. unfold assert. destruct (_ || _); [|done].
      cbn [mbind Result_bind]. apply IH.
  - destruct (reset_loop mems file_number w) as [wr| | |] eqn:Hr; try done.
    exfalso. revert Hr. clear. revert w.
    induction mems as [|m mems IH]; intros w; [done|].
    cbn [reset_loop]. unfold assert.
    destruct (flush_in_progress_ _); [|done].
    destruct (_ =? _)%N; [|done].
    cbn [mbind Result_bind]. apply IH.
Qed.

End enough_fuel.


Section batch_commit.

(** After the apply of [m] succeeded, the [do] loop commits [m] and then the
    members that follow it for as long as their file number is the one of
    the call. *)
Lemma batch_loop_run file_number l followers :
  file_number ≠ 0%N →
  ∀ fuel first m w,
    memlist_ (this w) = l ++ reverse followers ++ [m] →
    NoDup (memlist_ (this w)) →
    file_number_ (heap w m) ≠ 0%N →
    (∀ x, x ∈ followers → file_number_ (heap w x) = file_number) →
    (∀ y, last l = Some y → file_number_ (heap w y) ≠ file_number) →
    (length followers < fuel)%nat →
    ∃ w1, batch_loop fuel file_number first m StatusOK w = Returned (w1, StatusOK)
      ∧ memlist_ (this w1) = l
      ∧ size_ (this w1) = size_ (this w) - Z.of_nat (S (length followers))
      ∧ num_flush_not_started_ (this w1) = num_flush_not_started_ (this w)
      ∧ commit_in_progress_ (this w1) = commit_in_progress_ (this w)
      ∧ imm_flush_needed (this w1) = imm_flush_needed (this w)
      ∧ vset w1 = vset w
      ∧ info_log w1
        = info_log w ++ CommitDone (file_number_ (heap w m)) (negb first)
                        :: ((λ _, CommitDone file_number true) <$> followers)
      ∧ pending_outputs w1
        = pending_outputs w ∖ file_numbers (heap w) (m :: followers)
      ∧ (∀ x, x ∈ m :: followers → heap w1 x = Unref (heap w x))
      ∧ (∀ x, x ∉ m :: followers → heap w1 x = heap w x).
Proof.
  intros Hfile. induction followers as [|x fs IH];
    intros fuel first m w Hlist Hnd Hfn Hfol Hstop Hfuel.
  - destruct fuel as [|fuel]; [cbn in Hfuel; lia|].
    destruct (commit_one_total m first w Hfn) as [w1 Hc].
    rewrite (batch_loop_commit fuel file_number first m StatusOK w w1 eq_refl Hc).
    destruct (commit_one_Returned _ _ _ _ Hc)
      as (_ & Hl1 & Hsz1 & Hn1 & Hc1 & Hf1 & Hv1 & Hlog1 & Hp1 & Hm1 & Ho1).
    cbn in Hlist. rewrite Hlist in Hnd, Hl1.
    apply NoDup_app in Hnd as (Hndl & Hdisj & _).
    assert (Hml : m ∉ l) by (intros Hm; apply (Hdisj m Hm); by left).
    rewrite list_remove_last in Hl1 by done.
    exists w1. split.
    { rewrite Hl1. destruct (last l) as [y|] eqn:Hy; [|done].
      assert (y ≠ m) by (intros ->; apply Hml; by eapply last_Some_elem_of).
      rewrite Ho1 by done.
      by destruct (N.eqb_spec (file_number_ (heap w y)) file_number) as [He|He];
        [destruct (Hstop y eq_refl He)|]. }
    rewrite Hl1, Hsz1, Hn1, Hc1, Hf1, Hv1, Hlog1, Hp1.
    repeat split; try done.
    + unfold file_numbers. cbn. f_equal. clear. set_solver.
    + intros x ->%list_elem_of_singleton. done.
    + intros x Hx%not_elem_of_cons. apply Ho1. tauto.
  - destruct fuel as [|fuel]; [cbn in Hfuel; lia|].
    destruct (commit_one_total m first w Hfn) as [w1 Hc].
    rewrite (batch_loop_commit fuel file_number first m StatusOK w w1 eq_refl Hc).
    destruct (commit_one_Returned _ _ _ _ Hc)
      as (_ & Hl1 & Hsz1 & Hn1 & Hc1 & Hf1 & Hv1 & Hlog1 & Hp1 & Hm1 & Ho1).
    rewrite reverse_cons in Hlist.
    assert (Hlist' : memlist_ (this w) = (l ++ reverse fs ++ [x]) ++ [m])
      by (by rewrite Hlist, <- !app_assoc).
    rewrite Hlist' in Hnd, Hl1.
    pose proof Hnd as Hnd0.
    apply NoDup_app in Hnd as (Hndl & Hdisj & _).
    assert (Hml : m ∉ l ++ reverse fs ++ [x])
      by (intros Hm; apply (Hdisj m Hm); by left).
    rewrite list_remove_last in Hl1 by done.
    assert (Hxm : x ≠ m).
    { intros ->. apply Hml. rewrite !elem_of_app, list_elem_of_singleton. tauto. }
    assert (Hlast1 : last (memlist_ (this w1)) = Some x)
      by (by rewrite Hl1, !app_assoc, last_snoc).
    rewrite Hlast1, (Ho1 x Hxm), (Hfol x) by (by left). rewrite N.eqb_refl.
    destruct (IH fuel false x w1) as (w2 & Hrun & Hl2 & Hsz2 & Hn2 & Hc2 & Hf2 & Hv2
                                      & Hlog2 & Hp2 & Hin2 & Hout2).
    + done.
    + by rewrite Hl1.
    + rewrite (Ho1 x Hxm), (Hfol x) by (by left). done.
    + intros y Hy. rewrite Ho1; [apply Hfol; by right|].
      intros ->. apply Hml. rewrite !elem_of_app, elem_of_reverse. tauto.
    + intros y Hy. rewrite Ho1; [by apply Hstop|].
      intros ->. apply Hml. rewrite elem_of_app. left. by eapply last_Some_elem_of.
    + cbn in Hfuel. lia.
    + exists w2. split; [exact Hrun|].
      rewrite Hl2, Hsz2, Hn2, Hc2, Hf2, Hv2, Hlog2, Hp2, Hsz1, Hn1, Hc1, Hf1, Hv1,
        Hlog1, Hp1.
      assert (Hfs : ∀ y, y ∈ fs → y ≠ m).
      { intros y Hy ->. apply Hml. rewrite !elem_of_app, elem_of_reverse. tauto. }
      repeat split; try done.
      * cbn [length]. lia.
      * rewrite (Ho1 x Hxm), (Hfol x) by (by left). cbn [negb fmap list_fmap].
        by rewrite <- app_assoc.
      * unfold file_numbers. cbn [fmap list_fmap list_to_set].
        rewrite (Ho1 x Hxm).
        assert (Hmap : (λ y, file_number_ (heap w1 y)) <$> fs
                       = (λ y, file_number_ (heap w y)) <$> fs).
        { apply list_fmap_ext. intros i y Hy. rewrite Ho1; [done|].
          apply Hfs. by eapply list_elem_of_lookup_2. }
        rewrite Hmap. clear. set_solver.
      * intros y [->|Hy]%elem_of_cons.
        -- rewrite Hout2; [done|]. intros [?|Hm]%elem_of_cons; [done|].
           by apply (Hfs m).
        -- rewrite Hin2 by done. f_equal. apply Ho1.
           apply elem_of_cons in Hy as [->|Hy]; [done|by apply Hfs].
      * intros y Hy. apply not_elem_of_cons in Hy as [Hym Hy].
        rewrite Hout2 by done. by apply Ho1.
Qed.

End batch_commit.

Section batch_commit_claim.

(** C2 (as amended).  When the apply of the edit of the oldest member [m]
    succeeds, that same turn of the scan removes [m] and then every member
    that follows it for as long as its file number is the file number handed
    to the call, with no further apply: the metadata log has received one
    call, the log shows the followers as bulk commits, and the scan goes on
    from the first member with another file number.  Members that share a
    file number other than the one of the call are not covered. *)
Theorem C2_call_batch_commits_in_one_turn fuel file_number w m followers l :
  memlist_ (this w) = l ++ reverse followers ++ [m] →
  NoDup (memlist_ (this w)) →
  flush_completed_ (heap w m) = true →
  ok (LogAndApply (vset w) (edit_ (heap w m))).1 = true →
  file_number_ (heap w m) ≠ 0%N →
  file_number ≠ 0%N →
  (∀ x, x ∈ followers → file_number_ (heap w x) = file_number) →
  (∀ y, last l = Some y → file_number_ (heap w y) ≠ file_number) →
  (length followers < fuel)%nat →
  ∃ w1, commit_scan (S fuel) file_number StatusOK w
        = commit_scan fuel file_number StatusOK w1
    ∧ memlist_ (this w1) = l
    ∧ size_ (this w1) = size_ (this w) - Z.of_nat (S (length followers))
    ∧ calls (vset w1) = calls (vset w) ++ [(edit_ (heap w m), StatusOK)]
    ∧ info_log w1
      = info_log w ++ CommitStarted (file_number_ (heap w m))
                      :: CommitDone (file_number_ (heap w m)) false
                      :: ((λ _, CommitDone file_number true) <$> followers)
    ∧ pending_outputs w1
      = pending_outputs w ∖ file_numbers (heap w) (m :: followers)
    ∧ num_flush_not_started_ (this w1) = num_flush_not_started_ (this w)
    ∧ (∀ x, x ∈ m :: followers → heap w1 x = Unref (heap w x))
    ∧ (∀ x, x ∉ m :: followers → heap w1 x = heap w x).
Proof.
  intros Hlist Hnd Hfc Hok Hfn Hfile Hfol Hstop Hfuel.
  assert (Hlast : last (memlist_ (this w)) = Some m)
    by (by rewrite Hlist, !app_assoc, last_snoc).
  rewrite (commit_scan_turn _ _ _ _ m) by done. cbn zeta.
  assert (Hs : (LogAndApply (vset w) (edit_ (heap w m))).1 = StatusOK)
    by (by destruct (LogAndApply (vset w) (edit_ (heap w m))).1).
  rewrite Hs.
  match goal with |- context [batch_loop fuel file_number true m StatusOK ?W] =>
    destruct (batch_loop_run file_number l followers Hfile fuel true m W)
      as (w1 & Hrun & Hl1 & Hsz1 & Hn1 & _ & _ & Hv1 & Hlog1 & Hp1 & Hin1 & Hout1);
      try done
  end.
  rewrite Hrun. cbn [mbind Result_bind].
  exists w1. split; [done|].
  rewrite Hl1, Hsz1, Hn1, Hv1, Hlog1, Hp1. world_simpl.
  rewrite <- app_assoc. unfold LogAndApply in Hs. cbn in Hs. rewrite Hs.
  repeat split; done.
Qed.

(** An instance: memtables 2 and 3 of the batch of the call (file 11). *)
Lemma C2_call_batch_commits_in_one_turn_witness :
  ∃ w1, commit_scan 3 11 StatusOK Scenario.marked = commit_scan 2 11 StatusOK w1
    ∧ memlist_ (this w1) = []
    ∧ calls (vset w1) = [([11%N], StatusOK)]
    ∧ info_log w1 = [CommitStarted 11; CommitDone 11 false; CommitDone 11 true].
Proof.
  destruct (C2_call_batch_commits_in_one_turn 2 11 Scenario.marked 2%nat [3%nat] [])
    as (w1 & Hrun & Hl & _ & Hc & Hlog & _).
  - reflexivity.
  - compute_done.
  - reflexivity.
  - reflexivity.
  - done.
  - done.
  - intros x ->%list_elem_of_singleton. reflexivity.
  - done.
  - cbn. lia.
  - exists w1. split; [exact Hrun|]. split; [exact Hl|]. split; [exact Hc|exact Hlog].
Defined.

(** C2 as stated fails when the committed batch is not the batch of the
    call.  Memtables 2 and 3 were flushed together to file 11 and wait for
    memtable 1; the call that installs memtable 1 (file 10) commits all
    three, and memtable 3 gets a scan turn and an apply of its own (of its
    empty edit) although it directly follows memtable 2 and shares its file
    number: three applies, no bulk commit. *)
Lemma C2_other_batch_counterexample :
  memlist_ (this Scenario.all_completed) = [3; 2; 1]%nat
  ∧ file_number_ (heap Scenario.all_completed 2%nat) = 11%N
  ∧ file_number_ (heap Scenario.all_completed 3%nat) = 11%N
  ∧ InstallMemtableFlushResults 4 [1%nat] StatusOK 10 Scenario.all_completed
    = Returned Scenario.all_completed_outcome
  ∧ Scenario.all_completed_outcome.2 = StatusOK
  ∧ memlist_ (this Scenario.all_completed_outcome.1) = []
  ∧ calls (vset Scenario.all_completed_outcome.1)
    = [([10%N], StatusOK); ([11%N], StatusOK); ([], StatusOK)]
  ∧ info_log Scenario.all_completed_outcome.1
    = [CommitStarted 10; CommitDone 10 false;
       CommitStarted 11; CommitDone 11 false;
       CommitStarted 11; CommitDone 11 false].
Proof.
  split; [reflexivity|]. split; [reflexivity|]. split; [reflexivity|].
  split.
  { rewrite (surjective_pairing Scenario.all_completed_outcome).
    apply outcome_Returned. reflexivity. }
  repeat split; reflexivity.
Qed.

End batch_commit_claim.

(** ** What a scan has done when it returns *)

Section scan_effect.

Lemma file_numbers_app h c1 c2 :
  file_numbers h (c1 ++ c2) = file_numbers h c1 ∪ file_numbers h c2.
Proof. unfold file_numbers. rewrite fmap_app. apply list_to_set_app_L. Qed.

Lemma file_numbers_ext h1 h2 c :
  (∀ x, x ∈ c → h1 x = h2 x) → file_numbers h1 c = file_numbers h2 c.
Proof.
  intros Heq. unfold file_numbers. f_equal. apply list_fmap_ext.
  intros i x Hx. rewrite Heq; [done|]. by eapply list_elem_of_lookup_2.
Qed.

Lemma committed_effect_refl w : committed_effect w w [].
Proof.
  unfold committed_effect, file_numbers. cbn. rewrite app_nil_r.
  repeat split; try done; try lia.
  - clear. set_solver.
  - by apply elem_of_nil in H.
  - by apply elem_of_nil in H.
Qed.

Lemma committed_effect_trans w w1 w2 c1 c2 :
  NoDup (memlist_ (this w)) →
  committed_effect w w1 c1 → committed_effect w1 w2 c2 →
  committed_effect w w2 (c2 ++ c1).
Proof.
  intros Hnd (Hl1 & Hsz1 & Hn1 & Hc1 & Hf1 & Hp1 & Hin1 & Hout1)
    (Hl2 & Hsz2 & Hn2 & Hc2 & Hf2 & Hp2 & Hin2 & Hout2).
  rewrite Hl1, Hl2 in Hnd.
  apply NoDup_app in Hnd as (Hnd2 & Hdisj1 & Hndc1).
  apply NoDup_app in Hnd2 as (_ & _ & Hndc2).
  assert (Hd : ∀ x, x ∈ c2 → x ∉ c1).
  { intros x Hx. apply Hdisj1. apply elem_of_app. by right. }
  unfold committed_effect.
  rewrite Hl1, Hl2, Hsz2, Hsz1, Hn2, Hn1, Hc2, Hc1, Hf2, Hf1, Hp2, Hp1.
  rewrite length_app, Nat2Z.inj_add, <- app_assoc.
  repeat split; try done; try lia.
  - rewrite file_numbers_app.
    rewrite (file_numbers_ext (heap w1) (heap w) c2)
      by (intros x Hx; apply Hout1; by apply Hd).
    clear. set_solver.
  - apply elem_of_app in H as [Hx|Hx].
    + destruct (Hin2 x Hx) as [-> _]. by rewrite Hout1 by (by apply Hd).
    + destruct (Hin1 x Hx) as [<- _]. apply Hout2. intros Hx2. by apply (Hd x).
  - apply elem_of_app in H as [Hx|Hx].
    + destruct (Hin2 x Hx) as [_ Hfn]. by rewrite Hout1 in Hfn by (by apply Hd).
    + by destruct (Hin1 x Hx).
  - intros x Hx. apply not_elem_of_app in Hx as [Hx2 Hx1].
    by rewrite Hout2, Hout1.
Qed.

Lemma commit_one_effect m first w w1 :
  NoDup (memlist_ (this w)) →
  last (memlist_ (this w)) = Some m →
  commit_one m first w = Returned w1 →
  committed_effect w w1 [m] ∧ vset w1 = vset w.
Proof.
  intros Hnd Hlast Hc.
  destruct (commit_one_Returned _ _ _ _ Hc)
    as (Hfn & Hl1 & Hsz1 & Hn1 & Hc1 & Hf1 & Hv1 & _ & Hp1 & Hm1 & Ho1).
  destruct (NoDup_last_split _ _ Hnd Hlast) as (l0 & Hl & _ & _ & Hrm).
  split; [|done]. unfold committed_effect, file_numbers.
  rewrite Hl1, Hrm, Hsz1, Hn1, Hc1, Hf1, Hp1. cbn.
  repeat split; try done.
  - f_equal. clear. set_solver.
  - by apply list_elem_of_singleton in H as ->.
  - by apply list_elem_of_singleton in H as ->.
  - intros x Hx. apply Ho1. intros ->. apply Hx. by left.
Qed.

Lemma committed_effect_NoDup w w' c :
  NoDup (memlist_ (this w)) → committed_effect w w' c → NoDup (memlist_ (this w')).
Proof. intros Hnd (Hl & _). rewrite Hl in Hnd. by apply NoDup_app in Hnd as (? & _). Qed.

(** With an ok status the [do] loop only commits. *)
Lemma batch_loop_effect fuel file_number first m s w w' s' :
  ok s = true →
  NoDup (memlist_ (this w)) →
  last (memlist_ (this w)) = Some m →
  batch_loop fuel file_number first m s w = Returned (w', s') →
  s' = s ∧ vset w' = vset w
  ∧ ∃ c, m ∈ c ∧ committed_effect w w' c.
Proof.
  intros Hs. revert first m w.
  induction fuel as [|fuel IH]; intros first m w Hnd Hlast Hrun; [done|].
  destruct (commit_one_cases m first w) as [[w1 Hc]|Hc];
    [|by rewrite (batch_loop_commit_fails _ _ _ _ _ _ Hs Hc) in Hrun].
  rewrite (batch_loop_commit _ _ _ _ _ _ _ Hs Hc) in Hrun.
  destruct (commit_one_effect _ _ _ _ Hnd Hlast Hc) as [He1 Hv1].
  assert (Hstop : Returned (w1, s) = Returned (w', s') →
                  s' = s ∧ vset w' = vset w ∧ ∃ c, m ∈ c ∧ committed_effect w w' c).
  { intros [= <- <-]. repeat split; try done. exists [m]. split; [by left|done]. }
  destruct (last (memlist_ (this w1))) as [m'|] eqn:Hlast1; [|by apply Hstop].
  destruct (file_number_ (heap w1 m') =? file_number)%N; [|by apply Hstop].
  destruct (IH false m' w1) as (-> & Hv2 & c & Hmc & He2); try done.
  { by eapply committed_effect_NoDup. }
  repeat split; [congruence|]. exists (c ++ [m]). split.
  - apply elem_of_app. right. by left.
  - by eapply committed_effect_trans.
Qed.

(** The scan either commits a block of members and ends with the status it
    had, or commits a block, meets a failing apply and rolls back the member
    it was about to commit. *)
Lemma commit_scan_effect fuel file_number s w w' s' :
  ok s = true →
  NoDup (memlist_ (this w)) →
  commit_scan fuel file_number s w = Returned (w', s') →
  ∃ c wf, committed_effect w wf c
    ∧ ((s' = s ∧ committed_effect wf w' [])
       ∨ (s' = Status_IOError "Unable to commit flushed memtable"
          ∧ file_number ≠ 0%N
          ∧ ∃ m, last (memlist_ (this wf)) = Some m
            ∧ flush_completed_ (heap wf m) = true
            ∧ ok (LogAndApply (vset wf) (edit_ (heap wf m))).1 = false
            ∧ rolled_back wf w' m)).
Proof.
  intros Hs. revert s Hs w.
  induction fuel as [|fuel IH]; intros s Hs w Hnd Hrun; [done|].
  destruct (last (memlist_ (this w))) as [m|] eqn:Hlast;
    [|apply last_None in Hlast; rewrite commit_scan_empty in Hrun by done;
      injection Hrun as <- <-; exists [], w;
      split; [apply committed_effect_refl|left; split; [done|apply committed_effect_refl]]].
  destruct (flush_completed_ (heap w m)) eqn:Hfc;
    [|rewrite (commit_scan_break _ _ _ _ m) in Hrun by done;
      injection Hrun as <- <-; exists [], w;
      split; [apply committed_effect_refl|left; split; [done|apply committed_effect_refl]]].
  rewrite (commit_scan_turn _ _ _ _ m) in Hrun by done. cbn zeta in Hrun.
  destruct (batch_loop _ _ _ _ _ _) as [[w1 s1]| | |] eqn:Hb; try done.
  cbn [mbind Result_bind] in Hrun.
  destruct (ok (LogAndApply (vset w) (edit_ (heap w m))).1) eqn:Hok.
  - (* the apply succeeded *)
    apply batch_loop_effect in Hb as (-> & Hv1 & c1 & _ & He1); try done.
    destruct (IH _ Hok w1 (committed_effect_NoDup _ _ _ Hnd He1) Hrun)
      as (c2 & wf & He2 & Hend).
    exists (c2 ++ c1), wf. split; [by eapply (committed_effect_trans w w1 wf)|].
    destruct Hend as [[-> He3]|Hfail]; [left|by right].
    split; [|done]. destruct s, (LogAndApply _ _).1; done.
  - (* the apply failed *)
    match type of Hb with batch_loop _ _ _ _ _ ?W0 = _ => set (W := W0) in Hb end.
    destruct (rollback_one_spec m W)
      as (_ & Hl1 & Hsz1 & Hn1 & Hc1 & Hf1 & _ & _ & Hp1 & Hm1 & Ho1).
    cbn zeta in Hl1, Hsz1, Hn1, Hc1, Hf1, Hp1, Hm1, Ho1.
    apply batch_loop_failed in Hb as (Hne & Hw1 & Hs1); try done.
    destruct fuel as [|fuel]; [done|].
    rewrite commit_scan_error in Hrun by (by rewrite Hs1).
    injection Hrun as Hw' Hs'.
    exists [], w. split; [apply committed_effect_refl|]. right.
    split; [congruence|]. split; [done|]. exists m.
    split; [done|]. split; [done|]. split; [done|].
    rewrite <- Hw', Hw1.
    exact (conj Hl1 (conj Hsz1 (conj Hn1 (conj Hc1 (conj Hf1
             (conj Hp1 (conj Hm1 Ho1))))))).
Qed.

End scan_effect.

Section apply_failure_claim.

(** C4 (as amended).  The file number of the call is a real one (not 0).
    When the flush succeeded, the guard is free, the oldest member [m] of
    the list has completed flushing (it is in the batch, or an earlier call
    recorded its flush) and the metadata log refuses its edit, the call
    returns, and it returns the synthesized IO error, whatever the status of
    the collaborator was: [m] is back in the queued state with file number
    0 and an empty edit, the not-started count is one higher, the
    flush-needed signal is set, the pending-output entry of the file number
    [m] carried is erased, the scan has stopped (one apply was made, nothing
    is removed from the list, no other memtable is touched but for the flush
    result recorded on the batch) and the guard is free again.  And when the
    refusal comes later in the scan: every call with the guard free that
    returns a status that is not ok, over a list without repeated members,
    returns that IO error with the guard free, the signal set, and the
    oldest remaining member, the one whose apply failed, rolled back. *)
Theorem C4_failed_apply_rolls_back fuel (mems : list MemTablePtr) flushStatus
    file_number w m :
  file_number ≠ 0%N →
  ok flushStatus = true →
  commit_in_progress_ (this w) = false →
  (∀ x, x ∈ tail mems → edit_ (heap w x) = []) →
  last (memlist_ (this w)) = Some m →
  m ∈ mems ∨ flush_completed_ (heap w m) = true →
  ok (oracle (vset w) (calls (vset w)) (edit_ (heap w m))) = false →
  (∃ w', InstallMemtableFlushResults (S (S fuel)) mems flushStatus file_number w
         = Returned (w', Status_IOError "Unable to commit flushed memtable")
     ∧ flush_completed_ (heap w' m) = false
     ∧ flush_in_progress_ (heap w' m) = false
     ∧ edit_ (heap w' m) = []
     ∧ file_number_ (heap w' m) = 0%N
     ∧ refs_ (heap w' m) = refs_ (heap w m)
     ∧ (∀ x, x ≠ m →
             heap w' x = if decide (x ∈ mems)
                         then mark_memtable file_number (heap w x) else heap w x)
     ∧ num_flush_not_started_ (this w') = num_flush_not_started_ (this w) + 1
     ∧ imm_flush_needed (this w') = true
     ∧ pending_outputs w'
       = pending_outputs w
           ∖ {[if decide (m ∈ mems) then file_number else file_number_ (heap w m)]}
     ∧ memlist_ (this w') = memlist_ (this w)
     ∧ size_ (this w') = size_ (this w)
     ∧ commit_in_progress_ (this w') = false
     ∧ calls (vset w')
       = calls (vset w)
         ++ [(edit_ (heap w m), oracle (vset w) (calls (vset w)) (edit_ (heap w m)))]
     ∧ info_log w'
       = info_log w
         ++ [CommitStarted (if decide (m ∈ mems) then file_number
                            else file_number_ (heap w m));
             CommitFailed (if decide (m ∈ mems) then file_number
                           else file_number_ (heap w m))])
  ∧ (∀ fuel' mems' w0 wr s,
       InstallMemtableFlushResults fuel' mems' flushStatus file_number w0
       = Returned (wr, s) →
       commit_in_progress_ (this w0) = false →
       NoDup (memlist_ (this w0)) →
       ok s = false →
       s = Status_IOError "Unable to commit flushed memtable"
       ∧ commit_in_progress_ (this wr) = false
       ∧ imm_flush_needed (this wr) = true
       ∧ num_flush_not_started_ (this wr) = num_flush_not_started_ (this w0) + 1
       ∧ ∃ failed, last (memlist_ (this wr)) = Some failed
           ∧ flush_completed_ (heap wr failed) = false
           ∧ flush_in_progress_ (heap wr failed) = false
           ∧ edit_ (heap wr failed) = []
           ∧ file_number_ (heap wr failed) = 0%N).
Proof.
  intros Hfile Hfs Hcip Hedits Hlast Hdone Hrefuse. split.
  - destruct (mark_loop_spec mems file_number true w Hedits)
      as (wm & Hmark & Ht & Hv & Hlog & Hp & Hin & Hout).
    assert (Hwm : ∀ x, heap wm x = if decide (x ∈ mems)
                                    then mark_memtable file_number (heap w x)
                                    else heap w x).
    { intros x. destruct (decide (x ∈ mems)); [by apply Hin|by apply Hout]. }
    assert (Hfc : flush_completed_ (heap wm m) = true).
    { rewrite Hwm. destruct (decide (m ∈ mems)); [done|by destruct Hdone]. }
    assert (He : edit_ (heap wm m) = edit_ (heap w m)).
    { rewrite Hwm. by destruct (decide (m ∈ mems)). }
    assert (Hfn : file_number_ (heap wm m)
                  = if decide (m ∈ mems) then file_number else file_number_ (heap w m)).
    { rewrite Hwm. by destruct (decide (m ∈ mems)). }
    assert (Hrefs : refs_ (heap wm m) = refs_ (heap w m)).
    { rewrite Hwm. by destruct (decide (m ∈ mems)). }
    unfold InstallMemtableFlushResults. rewrite Hfs. cbn [negb]. rewrite Hmark.
    cbn [mbind Result_bind]. rewrite Ht, Hcip.
    rewrite (commit_scan_turn _ _ _ _ m);
      [|done|proj_simpl; by rewrite Ht|proj_simpl; exact Hfc].
    cbn zeta.
    rewrite batch_loop_failed_total;
      [|unfold LogAndApply; proj_simpl; cbn [fst]; by rewrite Hv, He
       |proj_simpl; by rewrite Ht|done].
    cbn [mbind Result_bind]. rewrite commit_scan_error by done.
    cbn [mbind Result_bind].
    match goal with |- context [rollback_one m ?W] => set (W0 := W) end.
    assert (HW0 : this W0 = this (set_commit_in_progress true wm)
              ∧ heap W0 = heap wm
              ∧ calls (vset W0)
                = calls (vset w)
                  ++ [(edit_ (heap w m),
                       oracle (vset w) (calls (vset w)) (edit_ (heap w m)))]
              ∧ info_log W0 = info_log w ++ [CommitStarted (file_number_ (heap wm m))]
              ∧ pending_outputs W0 = pending_outputs w).
    { unfold W0, LogAndApply. proj_simpl. cbn [snd calls]. by rewrite Hv, He, Hlog, Hp. }
    destruct HW0 as (HtW & HhW & HcW & HlogW & HpW).
    destruct (rollback_one_spec m W0)
      as (_ & Hl1 & Hsz1 & Hn1 & _ & Hf1 & Hv1 & Hlog1 & Hp1 & Hm1 & Ho1).
    cbn zeta in Hl1, Hsz1, Hn1, Hf1, Hv1, Hlog1, Hp1, Hm1, Ho1.
    clearbody W0.
    exists (set_commit_in_progress false (rollback_one m W0).1).
    split; [reflexivity|]. proj_simpl.
    rewrite Hm1, Hl1, Hsz1, Hn1, Hf1, Hv1, Hlog1, Hp1, HtW, HhW, HcW, HlogW, HpW, Hfn.
    proj_simpl. rewrite Ht.
    cbn [flush_completed_ flush_in_progress_ edit_ file_number_ refs_
         rolled_back_memtable].
    rewrite <- app_assoc.
    repeat split; try done.
    intros x Hx. by rewrite (Ho1 x Hx), HhW.
  - intros fuel' mems' w0 wr s Hrun Hcip0 Hnd Hs.
    pose proof (Install_releases_guard _ _ _ _ _ _ _ Hfs Hcip0 Hrun) as Hguard.
    apply Install_Returned in Hrun
      as [(Hfs' & _)|(_ & wm & Hm & [(_ & _ & ->)|(_ & ws & Hscan & ->)])];
      [congruence|done|].
    destruct (mark_loop_spec mems' file_number true w0 (mark_loop_Returned _ _ _ _ _ Hm))
      as (w2 & Hm2 & Ht & _).
    rewrite Hm in Hm2. injection Hm2 as <-.
    apply commit_scan_effect in Hscan as (c & wf & Heff & Hend);
      [|done|cbn; by rewrite Ht].
    destruct Hend as [[-> _]|(-> & _ & failed & Hlastf & _ & _ & Hrb)]; [done|].
    destruct Heff as (_ & _ & Hn1 & _ & _).
    destruct Hrb as (Hl2 & _ & Hn2 & _ & Hf2 & _ & Hm2 & _).
    cbn in Hn1. rewrite Ht in Hn1.
    split; [done|]. split; [exact Hguard|]. cbn. rewrite Hf2, Hn2, Hn1, Hl2.
    split; [done|]. split; [done|]. exists failed. by rewrite Hlastf, Hm2.
Qed.

(** An instance: memtable 1 was selected and flushed to file 10; the
    metadata log refuses its edit. *)
Lemma C4_failed_apply_rolls_back_witness :
  ∃ w', InstallMemtableFlushResults 2 [1%nat] StatusOK 10 Cases.flushed_refused
        = Returned (w', Status_IOError "Unable to commit flushed memtable")
    ∧ heap w' 1%nat = fresh_memtable
    ∧ num_flush_not_started_ (this w') = 1
    ∧ imm_flush_needed (this w') = true
    ∧ (10%N ∉ pending_outputs w')
    ∧ memlist_ (this w') = [1%nat]
    ∧ commit_in_progress_ (this w') = false
    ∧ calls (vset w') = [([10%N], StatusError kCorruption "manifest write")].
Proof.
  destruct (C4_failed_apply_rolls_back 0 [1%nat] StatusOK 10 Cases.flushed_refused 1%nat)
    as [(w' & Hrun & Hfc & Hfip & He & Hfn & Hrefs & _ & Hn & Hf & Hp & Hl & _ & Hcip
         & Hc & _) _].
  - done.
  - reflexivity.
  - reflexivity.
  - intros x Hx. by apply elem_of_nil in Hx.
  - reflexivity.
  - left. by left.
  - reflexivity.
  - exists w'. split; [exact Hrun|]. split.
    { destruct (heap w' 1%nat) as [a b c d e]. cbn in *. by subst. }
    split; [exact Hn|]. split; [exact Hf|]. split.
    { rewrite Hp. set_unfold. intros [_ Hne]. by apply Hne. }
    split; [exact Hl|]. split; [exact Hcip|exact Hc].
Defined.

Lemma commit_scan_zero_never_ends fuel w m :
  last (memlist_ (this w)) = Some m →
  flush_completed_ (heap w m) = true →
  ok (LogAndApply (vset w) (edit_ (heap w m))).1 = false →
  commit_scan fuel 0 StatusOK w = OutOfFuel.
Proof.
  intros Hlast Hfc Hrefuse. destruct fuel as [|fuel]; [done|].
  rewrite (commit_scan_turn _ _ _ _ m) by done. cbn zeta.
  by rewrite batch_loop_zero_never_ends.
Qed.

Lemma marked_zero_never_ends fuel (mems : list MemTablePtr) w wm :
  mark_loop mems 0 true w = Returned wm →
  commit_in_progress_ (this wm) = false →
  (∃ m, last (memlist_ (this wm)) = Some m
        ∧ flush_completed_ (heap wm m) = true
        ∧ ok (LogAndApply (vset wm) (edit_ (heap wm m))).1 = false) →
  InstallMemtableFlushResults fuel mems StatusOK 0 w = OutOfFuel.
Proof.
  intros Hmark Hcip (m & Hlast & Hfc & Hrefuse).
  unfold InstallMemtableFlushResults. cbn [ok negb]. rewrite Hmark.
  cbn [mbind Result_bind]. rewrite Hcip.
  by rewrite (commit_scan_zero_never_ends _ _ m).
Qed.

(** C4 as stated fails when the file number of the call is 0: the member
    that was just rolled back carries file number 0, the test that ends the
    inner loop finds it equal to the file number of the call, and the
    rollback is run again, for ever.  Memtable 1 is the oldest member, the
    guard is free, the metadata log refuses the edit; for no bound on the
    number of turns does the call return. *)
Lemma C4_zero_file_number_counterexample :
  last (memlist_ (this Cases.one_refused)) = Some 1%nat
  ∧ commit_in_progress_ (this Cases.one_refused) = false
  ∧ ok (LogAndApply (vset Cases.one_refused) (edit_ (heap Cases.one_refused 1%nat))).1
    = false
  ∧ ∀ fuel, InstallMemtableFlushResults fuel [1%nat] StatusOK 0 Cases.one_refused
            = OutOfFuel.
Proof.
  split; [reflexivity|]. split; [reflexivity|]. split; [reflexivity|].
  intros fuel.
  apply (marked_zero_never_ends fuel [1%nat] Cases.one_refused
           (Scenario.the (mark_loop [1%nat] 0 true Cases.one_refused))).
  - reflexivity.
  - reflexivity.
  - exists 1%nat. split; [reflexivity|]. split; reflexivity.
Qed.

End apply_failure_claim.

Section commit_failure_claim.

Lemma elem_of_file_numbers h c x : x ∈ c → file_number_ (h x) ∈ file_numbers h c.
Proof.
  intros Hx. unfold file_numbers. apply elem_of_list_to_set.
  apply list_elem_of_fmap. by exists x.
Qed.

(** C10.  A call whose flush succeeded but which returns an error has not
    been undone: the memtables [committed] before the failing apply stay out
    of the list, the size stays reduced by their number, their references
    stay dropped and their file numbers stay erased from the pending
    outputs; only the member [failed], now the oldest one, is back in the
    queued state and counted as not started; every other memtable is as the
    marking of the batch left it. *)
Theorem C10_commit_failure_keeps_earlier_commits fuel mems flushStatus file_number
    w w' s :
  InstallMemtableFlushResults fuel mems flushStatus file_number w = Returned (w', s) →
  ok flushStatus = true →
  commit_in_progress_ (this w) = false →
  NoDup (memlist_ (this w)) →
  ok s = false →
  ∃ committed failed,
    memlist_ (this w) = memlist_ (this w') ++ committed
    ∧ last (memlist_ (this w')) = Some failed
    ∧ size_ (this w') = size_ (this w) - Z.of_nat (length committed)
    ∧ (∀ x, x ∈ committed →
            (x ∉ memlist_ (this w'))
            ∧ refs_ (heap w' x) = refs_ (heap w x) - 1
            ∧ file_number_ (heap w' x) ≠ 0%N
            ∧ (file_number_ (heap w' x) ∉ pending_outputs w'))
    ∧ flush_in_progress_ (heap w' failed) = false
    ∧ flush_completed_ (heap w' failed) = false
    ∧ file_number_ (heap w' failed) = 0%N
    ∧ edit_ (heap w' failed) = []
    ∧ num_flush_not_started_ (this w') = num_flush_not_started_ (this w) + 1
    ∧ s = Status_IOError "Unable to commit flushed memtable"
    ∧ (∀ x, x ∉ committed → x ≠ failed →
            heap w' x = if decide (x ∈ mems)
                        then mark_memtable file_number (heap w x) else heap w x).
Proof.
  intros Hrun Hfs Hcip Hnd Hs.
  apply Install_Returned in Hrun
    as [(Hfs' & _)|(_ & wm & Hm & [(_ & _ & ->)|(_ & ws & Hscan & ->)])];
    [congruence|done|].
  destruct (mark_loop_spec mems file_number true w (mark_loop_Returned _ _ _ _ _ Hm))
    as (w2 & Hm2 & Ht & _ & _ & Hpm & Hin & Hout).
  rewrite Hm in Hm2. injection Hm2 as <-.
  apply commit_scan_effect in Hscan as (c & wf & Heff & Hend);
    [|done|cbn; by rewrite Ht].
  destruct Hend as [[-> _]|(-> & Hne & m & Hlast & Hfc & Hfail & Hrb)]; [done|].
  destruct Heff as (Hl1 & Hsz1 & Hn1 & _ & _ & Hp1 & Hin1 & Hout1).
  destruct Hrb as (Hl2 & Hsz2 & Hn2 & _ & _ & Hp2 & Hm2 & Ho2).
  cbn in Hl1, Hsz1, Hn1, Hp1, Hin1, Hout1. rewrite Ht in Hl1, Hsz1, Hn1.
  assert (Hndf : NoDup (memlist_ (this wf) ++ c)) by (by rewrite <- Hl1).
  apply NoDup_app in Hndf as (_ & Hdisj & _).
  assert (Hmf : m ∈ memlist_ (this wf)) by (by eapply last_Some_elem_of).
  assert (Hwm : ∀ x, heap wm x = if decide (x ∈ mems)
                                  then mark_memtable file_number (heap w x)
                                  else heap w x).
  { intros x. destruct (decide (x ∈ mems)); [by apply Hin|by apply Hout]. }
  exists c, m. cbn. rewrite Hl2, Hsz2, Hn2, Hsz1, Hn1, Hm2.
  split; [done|]. split; [done|]. split; [done|]. split.
  { intros x Hx.
    assert (Hxm : x ≠ m) by (intros ->; by apply (Hdisj m)).
    rewrite (Ho2 x Hxm). destruct (Hin1 x Hx) as [-> Hfn].
    split; [intros Hx'; by apply (Hdisj x)|].
    split; [cbn; rewrite Hwm; by destruct (decide (x ∈ mems))|].
    split; [done|].
    rewrite Hp2, Hp1. cbn. intros Hin'.
    apply elem_of_difference in Hin' as [Hin' _].
    apply elem_of_difference in Hin' as [_ Hin']. apply Hin'.
    by apply elem_of_file_numbers. }
  repeat split; try done.
  intros x Hx Hxm. by rewrite (Ho2 x Hxm), (Hout1 x Hx).
Qed.

(** An instance: memtable 1 is committed, then the apply for memtable 2
    fails; the call returns the IO error with memtable 1 gone. *)
Lemma C10_commit_failure_keeps_earlier_commits_witness :
  Scenario.half_way_outcome.2 = Status_IOError "Unable to commit flushed memtable"
  ∧ memlist_ (this Scenario.half_way) = [2; 1]%nat
  ∧ memlist_ (this Scenario.half_way_outcome.1) = [2%nat]
  ∧ size_ (this Scenario.half_way_outcome.1) = 1
  ∧ ∃ committed failed,
      memlist_ (this Scenario.half_way)
      = memlist_ (this Scenario.half_way_outcome.1) ++ committed
      ∧ committed ≠ []
      ∧ last (memlist_ (this Scenario.half_way_outcome.1)) = Some failed
      ∧ flush_completed_ (heap Scenario.half_way_outcome.1 failed) = false.
Proof.
  destruct (C10_commit_failure_keeps_earlier_commits 3 [1%nat] StatusOK 10
              Scenario.half_way Scenario.half_way_outcome.1
              Scenario.half_way_outcome.2)
    as (committed & failed & Hl & Hlast & _ & _ & _ & Hfc & _).
  - apply outcome_Returned. reflexivity.
  - reflexivity.
  - reflexivity.
  - compute_done.
  - reflexivity.
  - split; [reflexivity|]. split; [reflexivity|]. split; [reflexivity|].
    split; [reflexivity|]. exists committed, failed.
    split; [exact Hl|]. split; [|split; [exact Hlast|exact Hfc]].
    intros ->. vm_compute in Hl. discriminate Hl.
Defined.

End commit_failure_claim.

(** ** The invariant of the list *)

Section invariant.

Lemma list_invariant_bounds w :
  list_invariant w →
  0 ≤ num_flush_not_started_ (this w) ≤ size_ (this w)
  ∧ size_ (this w) = Z.of_nat (length (memlist_ (this w))).
Proof.
  intros [_ Hsz Hn _ _]. rewrite Hn, Hsz.
  pose proof (length_filter (not_started (heap w)) (memlist_ (this w))). lia.
Qed.

(** The invariant only reads the list, the two counters and the flush
    state of the memtables. *)
Lemma list_invariant_same w w' :
  memlist_ (this w') = memlist_ (this w) →
  size_ (this w') = size_ (this w) →
  num_flush_not_started_ (this w') = num_flush_not_started_ (this w) →
  (∀ x, flush_in_progress_ (heap w' x) = flush_in_progress_ (heap w x)
        ∧ flush_completed_ (heap w' x) = flush_completed_ (heap w x)
        ∧ file_number_ (heap w' x) = file_number_ (heap w x)) →
  list_invariant w → list_invariant w'.
Proof.
  intros Hl Hsz Hn Hh [Hnd Hs Hc Hq Ho].
  split; rewrite ?Hl, ?Hsz, ?Hn; try done.
  - rewrite Hc. do 2 f_equal. apply filter_not_started_same.
    intros m _. symmetry. apply Hh.
  - intros m Hm. destruct (Hh m) as (-> & -> & ->). by apply Hq.
  - intros m Hm. destruct (Hh m) as (-> & _ & ->). by apply Ho.
Qed.

Lemma filter_not_started_nil (h : Heap) (l : list MemTablePtr) :
  (∀ m, m ∈ l → flush_in_progress_ (h m) = true) →
  filter (not_started h) l = [].
Proof.
  induction l as [|x l IH]; intros Hall; [done|].
  rewrite filter_cons, decide_False
    by (unfold not_started; rewrite Hall; [done|by left]).
  apply IH. intros m Hm. apply Hall. by right.
Qed.

Lemma list_invariant_Add m w w' :
  list_invariant w →
  m ∉ memlist_ (this w) →
  flush_in_progress_ (heap w m) = false →
  flush_completed_ (heap w m) = false →
  file_number_ (heap w m) = 0%N →
  Add m w = Returned w' →
  list_invariant w'.
Proof.
  intros [Hnd Hs Hc Hq Ho] Hm Hfip Hfc Hfn Hrun.
  unfold Add, assert in Hrun.
  destruct (num_flush_not_started_ (this w) <=? size_ (this w)); [|done].
  cbn [mbind Result_bind] in Hrun. injection Hrun as <-.
  match goal with |- list_invariant (if ?c then _ else _) => destruct c end.
  all: split; proj_simpl.
  all: try (by apply NoDup_cons).
  all: try (cbn [length]; rewrite Hs, Nat2Z.inj_succ; lia).
  all: try (rewrite filter_cons, decide_True by exact Hfip; cbn [length];
            rewrite Nat2Z.inj_succ, <- Hc; lia).
  all: try (intros x [->|Hx]%elem_of_cons Hx'; [done|by apply Hq]).
  all: intros x [_ Hx]%not_elem_of_cons; by apply Ho.
Qed.

Lemma list_invariant_Pick w ret w' ret' :
  list_invariant w →
  PickMemtablesToFlush w ret = Returned (w', ret') →
  list_invariant w'.
Proof.
  intros [Hnd Hs Hc Hq Ho] Hrun.
  unfold PickMemtablesToFlush in Hrun.
  destruct (pick_loop_spec (reverse (memlist_ (this w))) w ret)
    as (w2 & sel & Hrun2 & _ & Hmem & _ & Hfil & Hin & Hout & Hn & _
        & Hl & Hsz & _).
  { intros m Hm Hf. rewrite elem_of_reverse in Hm. by destruct (Hq m Hm Hf). }
  rewrite Hrun in Hrun2. injection Hrun2 as <- ->.
  assert (Hall : ∀ m, m ∈ memlist_ (this w) → flush_in_progress_ (heap w' m) = true).
  { intros m Hm. destruct (flush_in_progress_ (heap w m)) eqn:Hfip.
    - rewrite Hout; [done|]. rewrite Hmem. intros [_ ?]. congruence.
    - rewrite Hin; [done|]. apply Hmem. split; [by apply elem_of_reverse|done]. }
  split; rewrite ?Hl, ?Hsz; try done.
  - rewrite Hn, Hc, Hfil, filter_reverse, length_reverse
      by (by rewrite reverse_Permutation).
    rewrite (filter_not_started_nil _ _ Hall). cbn. lia.
  - intros m Hm Hf. rewrite (Hall m Hm) in Hf. done.
  - intros m Hm. rewrite Hout; [by apply Ho|]. rewrite Hmem, elem_of_reverse. tauto.
Qed.

End invariant.

Section invariant_install.

Lemma filter_not_started_snoc (h : Heap) (l : list MemTablePtr) m :
  filter (not_started h) (l ++ [m])
  = filter (not_started h) l ++ (if flush_in_progress_ (h m) then [] else [m]).
Proof.
  rewrite filter_app, filter_cons, filter_nil. f_equal.
  destruct (decide (not_started h m)) as [Hd|Hd]; unfold not_started in Hd;
    by destruct (flush_in_progress_ (h m)).
Qed.

Lemma count_after_reset (h h' : Heap) (l mems : list MemTablePtr) :
  NoDup l → NoDup mems →
  (∀ m, m ∈ mems → m ∈ l ∧ flush_in_progress_ (h m) = true) →
  (∀ m, m ∈ mems → flush_in_progress_ (h' m) = false) →
  (∀ m, m ∉ mems → flush_in_progress_ (h' m) = flush_in_progress_ (h m)) →
  length (filter (not_started h') l)
  = (length (filter (not_started h) l) + length mems)%nat.
Proof.
  intros Hl Hmems Hin Hreset Hsame.
  rewrite <- length_app. apply Permutation_length, NoDup_Permutation.
  - by apply NoDup_filter.
  - apply NoDup_app. split; [by apply NoDup_filter|]. split; [|done].
    intros x [Hx _]%list_elem_of_filter Hxm. destruct (Hin x Hxm) as [_ Hf].
    unfold not_started in Hx. congruence.
  - intros x. rewrite elem_of_app, !list_elem_of_filter. unfold not_started.
    destruct (decide (x ∈ mems)) as [Hxm|Hxm].
    + destruct (Hin x Hxm) as [Hxl _]. rewrite (Hreset x Hxm). tauto.
    + rewrite (Hsame x Hxm). tauto.
Qed.

Lemma list_invariant_reset mems file_number w w' :
  list_invariant w →
  reset_loop mems file_number w = Returned w' →
  list_invariant w'.
Proof.
  intros [Hnd Hs Hc Hq Ho] Hrun.
  destruct (reset_loop_Returned _ _ _ _ Hrun) as [Hndm Hpre].
  destruct (reset_loop_spec mems file_number w Hndm Hpre)
    as (w2 & Hrun2 & Hl & Hsz & Hn & _ & _ & _ & _ & _ & Hin & Hout).
  rewrite Hrun in Hrun2. injection Hrun2 as <-.
  assert (Hsub : ∀ m, m ∈ mems → m ∈ memlist_ (this w)).
  { intros m Hm. destruct (Hpre m Hm) as [Hf Hfn].
    destruct (decide (m ∈ memlist_ (this w))) as [|Hnot]; [done|].
    by destruct (Ho m Hnot Hf). }
  split; rewrite ?Hl, ?Hsz, ?Hn; try done.
  - rewrite Hc, (count_after_reset (heap w) (heap w') _ mems); try done.
    + lia.
    + intros m Hm. split; [by apply Hsub|by apply Hpre].
    + intros m Hm. by rewrite Hin.
    + intros m Hm. by rewrite Hout.
  - intros m Hm. destruct (decide (m ∈ mems)) as [Hmm|Hmm].
    + rewrite (Hin m Hmm). cbn. intros _. split; [done|by apply Hpre].
    + rewrite (Hout m Hmm). by apply Hq.
  - intros m Hm. rewrite Hout; [by apply Ho|]. intros Hmm. by apply Hm, Hsub.
Qed.

Lemma list_invariant_mark (mems : list MemTablePtr) file_number w w' :
  list_invariant w →
  file_number ≠ 0%N →
  (∀ m, m ∈ mems → flush_in_progress_ (heap w m) = true) →
  mark_loop mems file_number true w = Returned w' →
  list_invariant w'.
Proof.
  intros [Hnd Hs Hc Hq Ho] Hfile Hsel Hrun.
  destruct (mark_loop_spec mems file_number true w (mark_loop_Returned _ _ _ _ _ Hrun))
    as (w2 & Hrun2 & Ht & _ & _ & _ & Hin & Hout).
  rewrite Hrun in Hrun2. injection Hrun2 as <-.
  assert (Hfip : ∀ m, flush_in_progress_ (heap w' m) = flush_in_progress_ (heap w m)).
  { intros m. destruct (decide (m ∈ mems)); [by rewrite Hin|by rewrite Hout]. }
  split; rewrite ?Ht; try done.
  - rewrite Hc. do 2 f_equal. apply filter_not_started_same. intros m _.
    by rewrite Hfip.
  - intros m Hm. rewrite Hfip. intros Hf.
    rewrite Hout; [by apply Hq|]. intros Hmm. rewrite (Hsel m Hmm) in Hf. done.
  - intros m Hm. rewrite Hfip. intros Hf.
    destruct (decide (m ∈ mems)); [by rewrite Hin|rewrite Hout by done; by apply Ho].
Qed.

Lemma list_invariant_commit_one m first w w1 :
  list_invariant w →
  last (memlist_ (this w)) = Some m →
  flush_in_progress_ (heap w m) = true →
  commit_one m first w = Returned w1 →
  list_invariant w1.
Proof.
  intros [Hnd Hs Hc Hq Ho] Hlast Hfip Hrun.
  destruct (commit_one_Returned _ _ _ _ Hrun)
    as (Hfn & Hl1 & Hsz1 & Hn1 & _ & _ & _ & _ & _ & Hm1 & Ho1).
  destruct (NoDup_last_split _ _ Hnd Hlast) as (l0 & Hl & Hml & Hnd0 & Hrm).
  rewrite Hrm in Hl1.
  split; rewrite ?Hl1, ?Hsz1, ?Hn1.
  - done.
  - rewrite Hs, Hl, length_app. cbn. lia.
  - rewrite Hc, Hl, filter_not_started_snoc, Hfip, app_nil_r.
    do 2 f_equal. apply filter_not_started_ext. intros x Hx. symmetry. apply Ho1.
    by intros ->.
  - intros x Hx. rewrite Ho1 by (by intros ->). apply Hq.
    rewrite Hl. apply elem_of_app. by left.
  - intros x Hx. destruct (decide (x = m)) as [->|Hne].
    + by rewrite Hm1.
    + rewrite Ho1 by done. apply Ho. rewrite Hl.
      rewrite elem_of_app, list_elem_of_singleton. tauto.
Qed.

Lemma list_invariant_rollback m w :
  list_invariant w →
  last (memlist_ (this w)) = Some m →
  flush_in_progress_ (heap w m) = true →
  list_invariant (rollback_one m w).1.
Proof.
  intros [Hnd Hs Hc Hq Ho] Hlast Hfip.
  destruct (rollback_one_spec m w)
    as (_ & Hl1 & Hsz1 & Hn1 & _ & _ & _ & _ & _ & Hm1 & Ho1).
  cbn zeta in Hl1, Hsz1, Hn1, Hm1, Ho1.
  destruct (NoDup_last_split _ _ Hnd Hlast) as (l0 & Hl & Hml & Hnd0 & Hrm).
  split; rewrite ?Hl1, ?Hsz1, ?Hn1; try done.
  - rewrite Hc, Hl, !filter_not_started_snoc, Hfip, Hm1, app_nil_r.
    cbn [flush_in_progress_ rolled_back_memtable].
    rewrite length_app. cbn [length].
    rewrite (filter_not_started_ext (heap (rollback_one m w).1) (heap w) l0)
      by (intros x Hx; apply Ho1; by intros ->).
    lia.
  - intros x Hx. destruct (decide (x = m)) as [->|Hne].
    + by rewrite Hm1.
    + rewrite Ho1 by done. by apply Hq.
  - intros x Hx. rewrite Ho1; [by apply Ho|]. intros ->. apply Hx.
    by eapply last_Some_elem_of.
Qed.

Lemma list_invariant_batch_loop fuel file_number first m s w w' s' :
  file_number ≠ 0%N →
  list_invariant w →
  last (memlist_ (this w)) = Some m →
  flush_in_progress_ (heap w m) = true →
  batch_loop fuel file_number first m s w = Returned (w', s') →
  list_invariant w'.
Proof.
  intros Hfile. revert first m s w.
  induction fuel as [|fuel IH]; intros first m s w Hinv Hlast Hfip Hrun; [done|].
  destruct (ok s) eqn:Hs.
  - destruct (commit_one_cases m first w) as [[w1 Hc]|Hc];
      [|by rewrite (batch_loop_commit_fails _ _ _ _ _ _ Hs Hc) in Hrun].
    rewrite (batch_loop_commit _ _ _ _ _ _ _ Hs Hc) in Hrun.
    pose proof (list_invariant_commit_one _ _ _ _ Hinv Hlast Hfip Hc) as Hinv1.
    destruct (last (memlist_ (this w1))) as [m'|] eqn:Hlast1;
      [|by injection Hrun as <- <-].
    destruct (N.eqb_spec (file_number_ (heap w1 m')) file_number) as [He|He];
      [|by injection Hrun as <- <-].
    eapply (IH false m' s w1); try done.
    destruct (flush_in_progress_ (heap w1 m')) eqn:Hf; [done|].
    destruct (inv_queued _ Hinv1 m') as [_ Hz]; [by eapply last_Some_elem_of|done|].
    congruence.
  - apply batch_loop_failed in Hrun as (_ & -> & _); try done.
    by apply list_invariant_rollback.
Qed.

Lemma list_invariant_commit_scan fuel file_number s w w' s' :
  file_number ≠ 0%N →
  list_invariant w →
  commit_scan fuel file_number s w = Returned (w', s') →
  list_invariant w'.
Proof.
  intros Hfile. revert s w.
  induction fuel as [|fuel IH]; intros s w Hinv Hrun; [done|].
  destruct (ok s) eqn:Hs;
    [|rewrite commit_scan_error in Hrun by done; by injection Hrun as <- <-].
  destruct (last (memlist_ (this w))) as [m|] eqn:Hlast;
    [|apply last_None in Hlast; rewrite commit_scan_empty in Hrun by done;
      by injection Hrun as <- <-].
  destruct (flush_completed_ (heap w m)) eqn:Hfc;
    [|rewrite (commit_scan_break _ _ _ _ m) in Hrun by done;
      by injection Hrun as <- <-].
  rewrite (commit_scan_turn _ _ _ _ m) in Hrun by done. cbn zeta in Hrun.
  destruct (batch_loop _ _ _ _ _ _) as [[w1 s1]| | |] eqn:Hb; try done.
  cbn [mbind Result_bind] in Hrun.
  eapply IH; [|exact Hrun].
  eapply list_invariant_batch_loop; [exact Hfile| | | |exact Hb].
  - by apply (list_invariant_same w).
  - done.
  - cbn. destruct (flush_in_progress_ (heap w m)) eqn:Hf; [done|].
    destruct (inv_queued _ Hinv m) as [Hz _]; [by eapply last_Some_elem_of|done|].
    congruence.
Qed.

Lemma list_invariant_Install fuel mems flushStatus file_number w w' s :
  file_number ≠ 0%N →
  (ok flushStatus = true → ∀ m, m ∈ mems → flush_in_progress_ (heap w m) = true) →
  list_invariant w →
  InstallMemtableFlushResults fuel mems flushStatus file_number w = Returned (w', s) →
  list_invariant w'.
Proof.
  intros Hfile Hsel Hinv Hrun.
  apply Install_Returned in Hrun
    as [(_ & _ & Hr)|(Hs & wm & Hm & [(_ & -> & _)|(_ & ws & Hscan & ->)])].
  - by eapply list_invariant_reset.
  - eapply list_invariant_mark; eauto.
  - apply (list_invariant_same ws); try done.
    eapply list_invariant_commit_scan; [exact Hfile| |exact Hscan].
    apply (list_invariant_same wm); try done.
    eapply list_invariant_mark; eauto.
Qed.

End invariant_install.

(** ** Reachable states *)

Section size_invariant_claim.

Lemma reachable_invariant w : reachable w → list_invariant w.
Proof.
  induction 1 as [h vs log po Hh|w m w' _ IH Hm Hfip Hfc Hfn Hrun
                 |w ret w' ret' _ IH Hrun
                 |w fuel mems fs fn w' s _ IH Hfile Hsel Hrun
                 |w m e _ IH|w vs log po _ IH].
  - split; cbn; try done.
    + constructor.
    + intros m Hm. by apply elem_of_nil in Hm.
    + intros m _ Hf. rewrite Hh in Hf. done.
  - by eapply list_invariant_Add.
  - by eapply list_invariant_Pick.
  - by eapply list_invariant_Install.
  - apply (list_invariant_same w); try done.
    intros x. rewrite heap_update. by destruct (decide (x = m)) as [->|].
  - by apply (list_invariant_same w).
Qed.

(** C7 (as amended).  In every state reached from an empty list by calls of
    [Add], [PickMemtablesToFlush] and [InstallMemtableFlushResults] made as
    the flush scheduler makes them (see [reachable]), including calls that
    take the flush-failure path and calls whose commit is rolled back,
    [0 <= num_flush_not_started_ <= size_] and [size_] is the number of
    members of the list. *)
Theorem C7_not_started_bounded_by_size w :
  reachable w →
  0 ≤ num_flush_not_started_ (this w) ≤ size_ (this w)
  ∧ size_ (this w) = Z.of_nat (length (memlist_ (this w))).
Proof. intros Hr. by apply list_invariant_bounds, reachable_invariant. Qed.

(** An instance: memtable 1 added and selected. *)
Lemma C7_not_started_bounded_by_size_witness :
  0 ≤ num_flush_not_started_ (this (Scenario.the Scenario.one_selected))
    ≤ size_ (this (Scenario.the Scenario.one_selected))
  ∧ size_ (this (Scenario.the Scenario.one_selected))
    = Z.of_nat (length (memlist_ (this (Scenario.the Scenario.one_selected)))).
Proof.
  apply C7_not_started_bounded_by_size.
  set (w0 := Scenario.start Scenario.always_ok {[10%N]}).
  apply (reach_Pick (Scenario.the (Add 1%nat w0)) [] _ [1%nat]); [|reflexivity].
  apply (reach_Add w0 1%nat); [| |reflexivity..].
  - by apply reach_empty.
  - cbn. apply not_elem_of_nil.
Defined.

(** C7 as stated fails when the calls are arbitrary: installing a
    successful flush of a memtable that was added but never selected
    commits it while it still counts as not started, and leaves
    [num_flush_not_started_ = 1] above [size_ = 0]. *)
Lemma C7_unselected_install_counterexample :
  ¬ (∀ w, reachable_by_any_calls w →
          0 ≤ num_flush_not_started_ (this w) ≤ size_ (this w)
          ∧ size_ (this w) = Z.of_nat (length (memlist_ (this w)))).
Proof.
  intros Hclaim.
  set (w0 := Scenario.start Scenario.always_ok {[10%N]}).
  set (w1 := Scenario.the (Add 1%nat w0)).
  set (r := InstallMemtableFlushResults 2 [1%nat] StatusOK 10 w1).
  destruct (Hclaim (Scenario.outcome r).1) as [[_ Hle] _].
  - eapply (any_Install w1 2 [1%nat] StatusOK 10 _ (Scenario.outcome r).2).
    + eapply (any_Add w0 1%nat); [|reflexivity]. by constructor.
    + apply outcome_Returned. reflexivity.
  - vm_compute in Hle. by apply Hle.
Qed.

End size_invariant_claim.

(** * Properties of the merging iterator *)

Section construction.

Context {Key : Type} (sizeof_MergingIterator : N).

Lemma new_MergeIteratorBuilder_arena (cmp : option (Comparator Key)) ar mode :
  ∃ it, new_MergeIteratorBuilder sizeof_MergingIterator cmp (Some ar) mode
        = Returned (mkMergeIteratorBuilder (Some it)
                      (Some (mkArena (blocks ar ++ [sizeof_MergingIterator]))))
    ∧ is_arena_mode_ it = true
    ∧ children_ it = [].
Proof. eexists. split; [reflexivity|]. done. Qed.

Lemma NewMergingIterator_no_arena (cmp : option (Comparator Key)) children n mode :
  0 ≤ n →
  ∃ it, NewMergingIterator sizeof_MergingIterator cmp children n None mode
        = Returned (it, None)
    ∧ is_arena_mode_ it = false.
Proof.
  intros Hn. unfold NewMergingIterator, assert.
  destruct (Z.leb_spec 0 n); [|lia]. cbn. eauto.
Qed.

(** C8 (the code departs from the claim).  [WrapToMergingIterator] builds
    its [MergeIteratorBuilder] with a null arena, and the constructor of the
    builder calls [AllocateAligned] through the arena pointer whatever it
    is: for every iterator the call dereferences a null pointer instead of
    returning a merging iterator.  ([NewMergingIterator] does test the
    arena, see [NewMergingIterator_no_arena].) *)
Theorem C8_wrap_dereferences_null_arena (iter : IteratorWrapper Key) :
  WrapToMergingIterator sizeof_MergingIterator iter = NullDereference
  ∧ ∀ (cmp : option (Comparator Key)) mode,
      new_MergeIteratorBuilder sizeof_MergingIterator cmp None mode = NullDereference.
Proof. split; reflexivity. Qed.

End construction.

Section direction_switch.

Context {Key : Type} (cmp : Comparator Key).

Lemma child_Valid_lookup (c : IteratorWrapper Key) :
  child_Valid c = true ↔ is_Some (keys c !! pos c).
Proof. unfold child_Valid. rewrite bool_decide_eq_true. symmetry. apply lookup_lt_is_Some. Qed.

Lemma child_Valid_false (c : IteratorWrapper Key) :
  child_Valid c = false ↔ keys c !! pos c = None.
Proof.
  rewrite <- not_true_iff_false, child_Valid_lookup, <- eq_None_not_Some. done.
Qed.

Lemma seek_pos_not_before K (ks : list Key) k :
  ks !! seek_pos cmp K ks = Some k → Compare cmp k K ≠ Lt.
Proof.
  induction ks as [|a ks IH]; [done|]. cbn.
  destruct (Compare cmp a K) eqn:Ha; cbn; try (intros [= <-]; congruence).
  exact IH.
Qed.

Lemma keys_repositioned K (c : IteratorWrapper Key) :
  keys (repositioned cmp K c) = keys c.
Proof.
  unfold repositioned. cbn. destruct (_ !! _); [|done]. by destruct (Equal _ _ _).
Qed.

(** A repositioned child that is still valid stands strictly after [K]. *)
Lemma repositioned_after K (c : IteratorWrapper Key) k :
  ComparatorLaws cmp →
  sorted_keys cmp (keys c) →
  keys (repositioned cmp K c) !! pos (repositioned cmp K c) = Some k →
  Compare cmp K k = Lt ∧ Equal cmp K k = false.
Proof.
  intros [Heq Hanti Heqlt] Hsorted. unfold repositioned. cbn.
  assert (Hlt : ∀ x, Compare cmp K x = Lt → Equal cmp K x = false).
  { intros x Hx. destruct (Equal cmp K x) eqn:He; [|done].
    apply Heq in He. congruence. }
  destruct (keys c !! seek_pos cmp K (keys c)) as [ck|] eqn:Hck; cbn.
  - destruct (Equal cmp K ck) eqn:He; cbn.
    + intros Hk. apply Heq in He.
      assert (Compare cmp K k = Lt) by (eapply Heqlt; [exact He|by eapply Hsorted]).
      auto.
    + rewrite Hck. intros [= <-]. split; [|done].
      pose proof (seek_pos_not_before _ _ _ Hck) as Hnb.
      rewrite (Hanti ck K).
      destruct (Compare cmp ck K) eqn:Hc; cbn; try done.
      assert (Compare cmp K ck = Eq) by (by rewrite (Hanti ck K), Hc).
      apply Heq in H. congruence.
  - by rewrite Hck.
Qed.

(** What the loop body does to the child at index [i], when [current_] is
    valid with key [K]. *)
Lemma switch_child_spec i (it : MergingIterator Key) cur ccur K c :
  comparator_ it = Some cmp →
  current_ it = Some cur →
  children_ it !! cur = Some ccur →
  keys ccur !! pos ccur = Some K →
  children_ it !! i = Some c →
  switch_child cmp i it
  = Returned
      (let c' := if decide (i = cur) then c else repositioned cmp K c in
       let it1 := set_children (<[i := c']> (children_ it)) it in
       if child_Valid c' then set_minHeap (minHeap_ it1 ++ [i]) it1 else it1).
Proof.
  intros Hcmp Hcur Hccur HK Hc. unfold switch_child. rewrite Hc, Hcur.
  assert (Hkey : key it = Returned K).
  { unfold key. rewrite Hcur, Hccur. unfold child_key. by rewrite HK. }
  destruct (decide (i = cur)) as [->|Hne].
  - rewrite decide_True by done. cbn. by destruct (child_Valid c).
  - rewrite decide_False by congruence. rewrite Hkey. cbn [mbind Result_bind].
    unfold repositioned.
    destruct (child_Valid (child_Seek cmp K c)) eqn:Hv.
    + rewrite Hcmp. cbn [from_option mbind Result_bind].
      pose proof Hv as Hv'. apply child_Valid_lookup in Hv' as [ck Hck].
      unfold child_key. rewrite Hck. cbn [mbind Result_bind].
      destruct (Equal cmp K ck).
      * unfold child_Next, assert. rewrite Hv. cbn.
        match goal with |- context [child_Valid ?x] => by destruct (child_Valid x) end.
      * cbn. by rewrite Hv.
    + apply child_Valid_false in Hv as Hnone. rewrite Hnone. cbn.
      by rewrite Hv.
Qed.

Lemma children_switching_lookup K cur j (it : MergingIterator Key) i :
  children_ (switching cmp K cur j it) !! i
  = (λ c, if decide (i = cur ∨ (j ≤ i)%nat) then c else repositioned cmp K c)
      <$> children_ it !! i.
Proof. cbn. apply list_lookup_imap. Qed.

(** One turn of the loop takes the state after [j] children to the state
    after [S j] children. *)
Lemma switch_child_switching K cur ccur j (it : MergingIterator Key) :
  comparator_ it = Some cmp →
  current_ it = Some cur →
  children_ it !! cur = Some ccur →
  keys ccur !! pos ccur = Some K →
  (j < length (children_ it))%nat →
  switch_child cmp j (switching cmp K cur j it)
  = Returned (switching cmp K cur (S j) it).
Proof.
  intros Hcmp Hcur Hccur HK Hj.
  destruct (lookup_lt_is_Some_2 (children_ it) j Hj) as [c Hc].
  rewrite (switch_child_spec j _ cur ccur K c); try done.
  - f_equal. cbn zeta.
    set (c' := if decide (j = cur) then c else repositioned cmp K c).
    assert (Hcs : <[j:=c']> (children_ (switching cmp K cur j it))
                  = children_ (switching cmp K cur (S j) it)).
    { apply list_eq. intros i. rewrite children_switching_lookup.
      destruct (decide (i = j)) as [->|Hij].
      - rewrite list_lookup_insert_eq by (cbn; by rewrite length_imap).
        rewrite Hc. cbn. unfold c'.
        destruct (decide (j = cur)) as [->|Hjc].
        + by rewrite decide_True by (by left).
        + by rewrite decide_False by (intros [?|?]; [done|lia]).
      - rewrite list_lookup_insert_ne by done. rewrite children_switching_lookup.
        destruct (children_ it !! i); [|done]. cbn. f_equal.
        apply decide_ext. split; (intros [?|?]; [by left|right; lia]). }
    assert (Hv : child_Valid c'
                 = valid_at (switched_children cmp K cur (children_ it)) j).
    { unfold valid_at, switched_children. rewrite list_lookup_imap, Hc. done. }
    rewrite Hcs. clear Hcs. unfold switching, set_children, set_minHeap.
    cbn [is_arena_mode_ comparator_ children_ current_ direction_ minHeap_
         maxHeap_ prefix_seek_mode_].
    rewrite seq_S, filter_app, filter_cons, filter_nil. cbn [Nat.add].
    rewrite <- Hv.
    destruct (child_Valid c') eqn:Hval.
    + rewrite decide_True by done. reflexivity.
    + rewrite decide_False by done. rewrite app_nil_r. reflexivity.
  - rewrite children_switching_lookup, Hccur. cbn.
    by rewrite decide_True by (by left).
  - rewrite children_switching_lookup, Hc. cbn.
    by rewrite decide_True by (by right).
Qed.

Lemma switch_loop_switching K cur ccur (it : MergingIterator Key) k :
  comparator_ it = Some cmp →
  current_ it = Some cur →
  children_ it !! cur = Some ccur →
  keys ccur !! pos ccur = Some K →
  ∀ j, (j + k = length (children_ it))%nat →
       switch_loop cmp (seq j k) (switching cmp K cur j it)
       = Returned (switching cmp K cur (j + k) it).
Proof.
  intros Hcmp Hcur Hccur HK. induction k as [|k IH]; intros j Hjk.
  - cbn. by rewrite Nat.add_0_r.
  - cbn [seq switch_loop].
    rewrite (switch_child_switching K cur ccur) by (done || lia).
    cbn [mbind Result_bind]. rewrite IH by lia. f_equal. f_equal. lia.
Qed.

End direction_switch.

Section direction_switch_claim.

Context {Key : Type} (cmp : Comparator Key).

Lemma ClearHeaps_switching K cur (it : MergingIterator Key) :
  ClearHeaps it = switching cmp K cur 0 it.
Proof.
  unfold ClearHeaps, switching, set_minHeap, set_maxHeap. cbn.
  assert (Hcs : imap (λ i c, if decide (i = cur ∨ (0 ≤ i)%nat) then c
                             else repositioned cmp K c) (children_ it)
                = children_ it).
  { apply list_eq. intros i. rewrite list_lookup_imap.
    destruct (children_ it !! i); [|done]. cbn.
    by rewrite decide_True by (right; lia). }
  rewrite Hcs. by destruct it as [? ? ? ? ? ? [?|] ?].
Qed.

Lemma switching_all K cur (it : MergingIterator Key) :
  set_direction kForward (switching cmp K cur (length (children_ it)) it)
  = switched cmp K cur it.
Proof.
  unfold switched, switching, set_direction, switched_children. cbn.
  rewrite length_imap. f_equal.
  apply imap_ext. intros i c Hc. apply lookup_lt_Some in Hc.
  apply decide_ext. split; [intros [?|?]; [done|lia]|by left].
Qed.

(** C9.  When [current_] is a valid child with key [K], [SwitchToForward]
    returns the state described by [switched]: both heaps are cleared; every
    child other than [current_] is sought to [K] and, when the seek lands on
    a key equal to [K], advanced once more; exactly the children that are
    valid afterwards are in the forward heap; the direction is forward.  For
    children whose keys are strictly increasing, every child in the
    resulting heap other than [current_] stands on a key strictly after
    [K]: the heap does not yield [K] again.  The comparator is the order of
    the children and satisfies [ComparatorLaws]. *)
Theorem C9_switch_to_forward_skips_current_key (it : MergingIterator Key) cur ccur K :
  ComparatorLaws cmp →
  comparator_ it = Some cmp →
  current_ it = Some cur →
  children_ it !! cur = Some ccur →
  keys ccur !! pos ccur = Some K →
  (∀ i c, children_ it !! i = Some c → sorted_keys cmp (keys c)) →
  let it' := switched cmp K cur it in
  SwitchToForward cmp it = Returned it'
  ∧ direction_ it' = kForward
  ∧ maxHeap_ it' = (λ _, []) <$> maxHeap_ it
  ∧ current_ it' = Some cur
  ∧ length (children_ it') = length (children_ it)
  ∧ (∀ i c, children_ it !! i = Some c →
            children_ it' !! i
            = Some (if decide (i = cur) then c else repositioned cmp K c))
  ∧ (∀ i, i ∈ minHeap_ it' ↔ valid_at (children_ it') i = true)
  ∧ cur ∈ minHeap_ it'
  ∧ (∀ i, i ∈ minHeap_ it' → i ≠ cur →
          ∃ c k, children_ it' !! i = Some c
            ∧ keys c !! pos c = Some k
            ∧ Compare cmp K k = Lt
            ∧ Equal cmp K k = false).
Proof.
  intros Hlaws Hcmp Hcur Hccur HK Hsorted it'.
  assert (Hchild : ∀ i c, children_ it !! i = Some c →
            children_ it' !! i
            = Some (if decide (i = cur) then c else repositioned cmp K c)).
  { intros i c Hc. unfold it', switched, switched_children. cbn.
    by rewrite list_lookup_imap, Hc. }
  assert (Hheap : ∀ i, i ∈ minHeap_ it' ↔ valid_at (children_ it') i = true).
  { intros i. unfold it', switched. cbn. rewrite list_elem_of_filter, elem_of_seq.
    split; [tauto|]. intros Hv. split; [done|]. split; [lia|]. cbn.
    unfold valid_at in Hv.
    destruct (_ !! i) eqn:Hi; [|done]. by apply lookup_lt_Some in Hi. }
  split.
  { unfold SwitchToForward. cbn zeta. rewrite (ClearHeaps_switching K cur).
    replace (length (children_ (switching cmp K cur 0 it)))
      with (length (children_ it)) by (cbn; by rewrite length_imap).
    rewrite (switch_loop_switching cmp K cur ccur it (length (children_ it)));
      try done.
    cbn [mbind Result_bind Nat.add]. by rewrite switching_all. }
  split; [done|]. split; [done|]. split; [done|].
  split; [unfold it', switched, switched_children; cbn; by rewrite length_imap|].
  split; [exact Hchild|]. split; [exact Hheap|]. split.
  { apply Hheap. unfold valid_at. rewrite (Hchild cur ccur Hccur).
    rewrite decide_True by done. apply child_Valid_lookup. by rewrite HK. }
  intros i Hi Hne. apply Hheap in Hi. unfold valid_at in Hi.
  destruct (children_ it' !! i) as [c'|] eqn:Hc'; [|done].
  apply child_Valid_lookup in Hi as [k Hk].
  assert (Hlt : (i < length (children_ it))%nat).
  { apply lookup_lt_Some in Hc'. revert Hc'.
    unfold it', switched, switched_children. cbn. by rewrite length_imap. }
  destruct (lookup_lt_is_Some_2 _ _ Hlt) as [c Hc].
  rewrite (Hchild i c Hc), decide_False in Hc' by done. injection Hc' as <-.
  exists (repositioned cmp K c), k. split; [done|]. split; [done|].
  eapply repositioned_after; eauto.
Qed.

End direction_switch_claim.

Section direction_switch_instance.

Lemma int_order_laws : ComparatorLaws Scenario.int_order.
Proof.
  split; cbn.
  - intros a b. by rewrite Z.eqb_eq, Z.compare_eq_iff.
  - intros a b. apply Z.compare_antisym.
  - intros a b c ->%Z.compare_eq_iff. done.
Qed.

Lemma reversing_sorted i c :
  children_ Scenario.reversing !! i = Some c →
  sorted_keys Scenario.int_order (keys c).
Proof.
  intros Hc p a b Ha Hb.
  destruct i as [|[|[|[|i]]]]; cbn in Hc; try done; injection Hc as <-;
    destruct p as [|[|[|p]]]; cbn in Ha, Hb; try done;
    injection Ha as <-; injection Hb as <-; reflexivity.
Qed.

(** An instance: the switch at key 3 of child 0 moves child 1 past its own
    key 3 to key 4, exhausts children 2 and 3, and leaves children 0 and 1
    in the forward heap. *)
Lemma C9_switch_to_forward_skips_current_key_witness :
  ∃ it', SwitchToForward Scenario.int_order Scenario.reversing = Returned it'
    ∧ direction_ it' = kForward
    ∧ minHeap_ it' = [0; 1]%nat
    ∧ maxHeap_ it' = Some []
    ∧ children_ it' !! 1%nat = Some (mkIteratorWrapper [2; 3; 4] 2).
Proof.
  destruct (C9_switch_to_forward_skips_current_key Scenario.int_order
              Scenario.reversing 0%nat (mkIteratorWrapper [1; 3; 5] 1) 3)
    as (Hrun & Hdir & Hmax & _).
  - exact int_order_laws.
  - reflexivity.
  - reflexivity.
  - reflexivity.
  - reflexivity.
  - exact reversing_sorted.
  - eexists. split; [exact Hrun|]. repeat split; reflexivity.
Defined.

End direction_switch_instance.

(** * Further properties of the memtable list *)

(** ** Reference holders *)

Section reference_holders.

Lemma foldl_update_frame f (l : list MemTablePtr) w :
  this (foldl (λ w m, update m f w) w l) = this w
  ∧ vset (foldl (λ w m, update m f w) w l) = vset w
  ∧ info_log (foldl (λ w m, update m f w) w l) = info_log w
  ∧ pending_outputs (foldl (λ w m, update m f w) w l) = pending_outputs w.
Proof.
  revert w. induction l as [|a l IH]; intros w; [done|].
  cbn [foldl]. destruct (IH (update a f w)) as (-> & -> & -> & ->). done.
Qed.

Lemma foldl_update_heap f (l : list MemTablePtr) w x :
  heap (foldl (λ w m, update m f w) w l) x = Nat.iter (occurrences x l) f (heap w x).
Proof.
  revert w. induction l as [|a l IH]; intros w; [done|].
  cbn [foldl]. rewrite IH, heap_update. unfold occurrences. rewrite filter_cons.
  destruct (decide (a = x)) as [->|Hne].
  - rewrite decide_True by done. cbn [length]. by rewrite Nat.iter_succ_r.
  - by rewrite decide_False by congruence.
Qed.

Lemma iter_Ref n x :
  Nat.iter n Ref x
  = mkMemTable (flush_in_progress_ x) (flush_completed_ x) (file_number_ x) (edit_ x)
      (refs_ x + Z.of_nat n).
Proof.
  induction n as [|n IH].
  - destruct x. cbn. f_equal. lia.
  - rewrite Nat.iter_succ, IH. unfold Ref. cbn [flush_in_progress_ flush_completed_
      file_number_ edit_ refs_]. f_equal. lia.
Qed.

Lemma iter_Unref n x :
  Nat.iter n Unref x
  = mkMemTable (flush_in_progress_ x) (flush_completed_ x) (file_number_ x) (edit_ x)
      (refs_ x - Z.of_nat n).
Proof.
  induction n as [|n IH].
  - destruct x. cbn. f_equal. lia.
  - rewrite Nat.iter_succ, IH. unfold Unref. cbn [flush_in_progress_ flush_completed_
      file_number_ edit_ refs_]. f_equal. lia.
Qed.

Lemma RefAll_heap w m :
  heap (RefAll w) m
  = mkMemTable (flush_in_progress_ (heap w m)) (flush_completed_ (heap w m))
      (file_number_ (heap w m)) (edit_ (heap w m))
      (refs_ (heap w m) + Z.of_nat (occurrences m (memlist_ (this w)))).
Proof. unfold RefAll. by rewrite foldl_update_heap, iter_Ref. Qed.

Lemma UnrefAll_heap w m :
  heap (UnrefAll w) m
  = mkMemTable (flush_in_progress_ (heap w m)) (flush_completed_ (heap w m))
      (file_number_ (heap w m)) (edit_ (heap w m))
      (refs_ (heap w m) - Z.of_nat (occurrences m (memlist_ (this w)))).
Proof. unfold UnrefAll. by rewrite foldl_update_heap, iter_Unref. Qed.

Lemma RefAll_this w : this (RefAll w) = this w.
Proof. unfold RefAll. apply foldl_update_frame. Qed.

Lemma UnrefAll_this w : this (UnrefAll w) = this w.
Proof. unfold UnrefAll. apply foldl_update_frame. Qed.

Lemma occurrences_outside (m : MemTablePtr) (l : list MemTablePtr) :
  m ∉ l → occurrences m l = 0%nat.
Proof.
  unfold occurrences. induction l as [|a l IH]; [done|].
  intros [Hne Hm]%not_elem_of_cons. rewrite filter_cons, decide_False by congruence.
  by apply IH.
Qed.

(** X1.  [RefAll] raises the reference count of every memtable by the number
    of times the list holds it, and [UnrefAll] lowers it by the same number:
    a [RefAll] followed by an [UnrefAll] leaves every memtable exactly as it
    was.  Neither call changes the list object, a flush flag, a file number
    or an edit, and a memtable outside the list is not touched.  (The
    destruction of a memtable whose count reaches zero is outside the
    model.) *)
Theorem RefAll_UnrefAll_round_trip w :
  (∀ m, heap (RefAll w) m
        = mkMemTable (flush_in_progress_ (heap w m)) (flush_completed_ (heap w m))
            (file_number_ (heap w m)) (edit_ (heap w m))
            (refs_ (heap w m) + Z.of_nat (occurrences m (memlist_ (this w)))))
  ∧ (∀ m, heap (UnrefAll w) m
          = mkMemTable (flush_in_progress_ (heap w m)) (flush_completed_ (heap w m))
              (file_number_ (heap w m)) (edit_ (heap w m))
              (refs_ (heap w m) - Z.of_nat (occurrences m (memlist_ (this w)))))
  ∧ (∀ m, heap (UnrefAll (RefAll w)) m = heap w m)
  ∧ (∀ m, m ∉ memlist_ (this w) →
          heap (RefAll w) m = heap w m ∧ heap (UnrefAll w) m = heap w m)
  ∧ this (RefAll w) = this w
  ∧ this (UnrefAll w) = this w.
Proof.
  split; [apply RefAll_heap|]. split; [apply UnrefAll_heap|]. split.
  { intros m. rewrite UnrefAll_heap, RefAll_this, RefAll_heap. cbn.
    destruct (heap w m). cbn. f_equal. lia. }
  split; [|split; [apply RefAll_this|apply UnrefAll_this]].
  intros m Hm. rewrite RefAll_heap, UnrefAll_heap, (occurrences_outside m _ Hm).
  destruct (heap w m). cbn. split; f_equal; lia.
Qed.

End reference_holders.

(** ** The flush-needed signal and the counters *)

Section signal.

Lemma Add_Returned m w w' :
  Add m w = Returned w' →
  num_flush_not_started_ (this w) ≤ size_ (this w)
  ∧ memlist_ (this w') = m :: memlist_ (this w)
  ∧ size_ (this w') = size_ (this w) + 1
  ∧ num_flush_not_started_ (this w') = num_flush_not_started_ (this w) + 1
  ∧ commit_in_progress_ (this w') = commit_in_progress_ (this w)
  ∧ imm_flush_needed (this w')
    = (if num_flush_not_started_ (this w) + 1 =? 1 then true
       else imm_flush_needed (this w))
  ∧ heap w' = heap w
  ∧ vset w' = vset w
  ∧ info_log w' = info_log w
  ∧ pending_outputs w' = pending_outputs w.
Proof.
  unfold Add, assert.
  destruct (Z.leb_spec (num_flush_not_started_ (this w)) (size_ (this w))); [|done].
  cbn [mbind Result_bind]. intros [= <-]. proj_simpl.
  by destruct (_ =? 1).
Qed.

Lemma Add_total m w :
  num_flush_not_started_ (this w) ≤ size_ (this w) → ∃ w', Add m w = Returned w'.
Proof.
  intros Hle. unfold Add, assert.
  destruct (Z.leb_spec (num_flush_not_started_ (this w)) (size_ (this w))); [|lia].
  cbn [mbind Result_bind]. eauto.
Qed.

Lemma signal_Add m w w' :
  list_invariant w → signal_matches_count w →
  Add m w = Returned w' → signal_matches_count w'.
Proof.
  intros Hinv Hsig (_ & _ & _ & Hn & _ & Hf & _)%Add_Returned.
  destruct (list_invariant_bounds w Hinv) as [[H0 _] _].
  unfold signal_matches_count in *. rewrite Hf, Hn, Hsig.
  destruct (Z.eqb_spec (num_flush_not_started_ (this w) + 1) 1),
    (Z.ltb_spec 0 (num_flush_not_started_ (this w))),
    (Z.ltb_spec 0 (num_flush_not_started_ (this w) + 1)); try done; lia.
Qed.

Lemma signal_Pick w ret w' ret' :
  list_invariant w → signal_matches_count w →
  PickMemtablesToFlush w ret = Returned (w', ret') → signal_matches_count w'.
Proof.
  intros [Hnd Hs Hc Hq Ho] Hsig Hrun.
  unfold PickMemtablesToFlush in Hrun.
  destruct (pick_loop_spec (reverse (memlist_ (this w))) w ret)
    as (w2 & sel & Hrun2 & _ & _ & _ & Hfil & _ & _ & Hn & Hf & _).
  { intros m Hm Hfip. rewrite elem_of_reverse in Hm. by destruct (Hq m Hm Hfip). }
  rewrite Hrun in Hrun2. injection Hrun2 as <- ->.
  assert (Hlen : num_flush_not_started_ (this w) = Z.of_nat (length sel)).
  { rewrite Hc, Hfil, filter_reverse, length_reverse
      by (by rewrite reverse_Permutation). done. }
  unfold signal_matches_count in *. rewrite Hf, Hn, Hsig, Hlen.
  destruct (Z.ltb_spec 0 (Z.of_nat (length sel))),
    (Z.leb_spec (Z.of_nat (length sel)) (Z.of_nat (length sel))),
    (Z.ltb_spec 0 (Z.of_nat (length sel) - Z.of_nat (length sel)));
    cbn [andb]; try done; lia.
Qed.

Lemma signal_Install fuel mems flushStatus file_number w w' s :
  list_invariant w → signal_matches_count w →
  InstallMemtableFlushResults fuel mems flushStatus file_number w = Returned (w', s) →
  signal_matches_count w'.
Proof.
  intros Hinv Hsig Hrun.
  destruct (list_invariant_bounds w Hinv) as [[H0 _] _].
  pose proof (inv_nodup _ Hinv) as Hnd.
  unfold signal_matches_count in *.
  apply Install_Returned in Hrun
    as [(_ & _ & Hr)|(Hs & wm & Hm & [(_ & -> & _)|(_ & ws & Hscan & ->)])].
  - destruct (reset_loop_Returned _ _ _ _ Hr) as [Hndm Hpre].
    destruct (reset_loop_spec mems file_number w Hndm Hpre)
      as (w2 & Hrun2 & _ & _ & Hn & _ & Hf & _).
    rewrite Hr in Hrun2. injection Hrun2 as <-.
    rewrite Hf, Hn. destruct mems as [|m0 mems]; cbn [length].
    + rewrite Hsig. f_equal. lia.
    + symmetry. apply Z.ltb_lt. lia.
  - destruct (mark_loop_spec mems file_number true w
                (mark_loop_Returned _ _ _ _ _ Hm)) as (w2 & Hrun2 & Ht & _).
    rewrite Hm in Hrun2. injection Hrun2 as <-. by rewrite Ht.
  - destruct (mark_loop_spec mems file_number true w
                (mark_loop_Returned _ _ _ _ _ Hm)) as (w2 & Hrun2 & Ht & _).
    rewrite Hm in Hrun2. injection Hrun2 as <-.
    apply commit_scan_effect in Hscan as (c & wf & Hc & Hcase);
      [|done|proj_simpl; by rewrite Ht].
    destruct Hc as (_ & _ & Hn1 & _ & Hf1 & _).
    revert Hn1 Hf1. proj_simpl. rewrite Ht. intros Hn1 Hf1.
    destruct Hcase as [(_ & _ & _ & Hn2 & _ & Hf2 & _)
                      |(_ & _ & m & _ & _ & _ & _ & _ & Hn2 & _ & Hf2 & _)].
    + by rewrite Hf2, Hn2, Hf1, Hn1.
    + rewrite Hf2, Hn2, Hn1. symmetry. apply Z.ltb_lt. lia.
Qed.

Lemma reachable_signal w : reachable w → signal_matches_count w.
Proof.
  induction 1 as [h vs log po Hh|w m w' Hr IH Hm Hfip Hfc Hfn Hrun
                 |w ret w' ret' Hr IH Hrun
                 |w fuel mems fs fn w' s Hr IH Hfile Hsel Hrun
                 |w m e Hr IH|w vs log po Hr IH].
  - done.
  - eapply signal_Add; [by apply reachable_invariant|exact IH|exact Hrun].
  - eapply signal_Pick; [by apply reachable_invariant|exact IH|exact Hrun].
  - eapply signal_Install; [by apply reachable_invariant|exact IH|exact Hrun].
  - exact IH.
  - exact IH.
Qed.

Lemma start_reachable vs po : reachable (Scenario.start vs po).
Proof. by apply reach_empty. Qed.

Lemma reach_the_Add w m :
  reachable w →
  m ∉ memlist_ (this w) →
  heap w m = fresh_memtable →
  reachable (Scenario.the (Add m w)).
Proof.
  intros Hr Hm Hfresh.
  destruct (list_invariant_bounds w (reachable_invariant w Hr)) as [[_ Hle] _].
  destruct (Add_total m w Hle) as [w' Hrun]. rewrite Hrun. cbn [Scenario.the].
  eapply reach_Add; [exact Hr|exact Hm|by rewrite Hfresh|by rewrite Hfresh|by rewrite Hfresh|exact Hrun].
Qed.

Lemma one_selected_reachable : reachable (Scenario.the Scenario.one_selected).
Proof.
  set (w0 := Scenario.start Scenario.always_ok {[10%N]}).
  apply (reach_Pick (Scenario.the (Add 1%nat w0)) [] _ [1%nat]); [|reflexivity].
  apply reach_the_Add; [apply start_reachable| |reflexivity].
  cbn. apply not_elem_of_nil.
Qed.

Lemma reach_Add_step w m :
  reachable w →
  m ∉ memlist_ (this w) →
  heap w m = fresh_memtable →
  ∃ w', Add m w = Returned w'
    ∧ reachable w'
    ∧ memlist_ (this w') = m :: memlist_ (this w)
    ∧ heap w' = heap w.
Proof.
  intros Hr Hm Hfresh.
  destruct (list_invariant_bounds w (reachable_invariant w Hr)) as [[_ Hle] _].
  destruct (Add_total m w Hle) as [w' Hrun]. exists w'. split; [exact Hrun|].
  destruct (Add_Returned _ _ _ Hrun) as (_ & Hl & _ & _ & _ & _ & Hh & _).
  split; [|done].
  eapply reach_Add; [exact Hr|exact Hm|by rewrite Hfresh|by rewrite Hfresh
                    |by rewrite Hfresh|exact Hrun].
Qed.

Lemma three_added_reachable vs : reachable (Scenario.the (Scenario.three_added vs)).
Proof.
  destruct (reach_Add_step (Scenario.start vs {[10%N; 11%N]}) 1%nat)
    as (w1 & E1 & R1 & L1 & H1); [apply start_reachable|apply not_elem_of_nil|done|].
  destruct (reach_Add_step w1 2%nat) as (w2 & E2 & R2 & L2 & H2);
    [done|rewrite L1; cbn; set_solver|by rewrite H1|].
  destruct (reach_Add_step w2 3%nat) as (w3 & E3 & R3 & L3 & H3);
    [done|rewrite L2, L1; cbn; set_solver|by rewrite H2, H1|].
  unfold Scenario.three_added. rewrite E1. cbn [mbind Result_bind].
  rewrite E2. cbn [mbind Result_bind]. by rewrite E3.
Qed.

(** X2.  In every state the flush scheduler reaches, [size] returns the
    number of members of the list: its assertion does not fire. *)
Theorem size_counts_members w :
  reachable w → size w = Returned (Z.of_nat (length (memlist_ (this w)))).
Proof.
  intros Hr.
  destruct (list_invariant_bounds w (reachable_invariant w Hr)) as [[_ Hle] Hs].
  unfold size, assert.
  destruct (Z.leb_spec (num_flush_not_started_ (this w)) (size_ (this w))); [|lia].
  cbn. by rewrite Hs.
Qed.

(** An instance: three memtables added. *)
Lemma size_counts_members_witness :
  size (Scenario.the (Scenario.three_added Scenario.always_ok)) = Returned 3.
Proof.
  exact (size_counts_members _ (three_added_reachable Scenario.always_ok)).
Defined.

(** X3.  In every state the flush scheduler reaches, the flush-needed signal
    is set exactly when some member of the list is not yet
    [flush_in_progress_], and [num_flush_not_started_] is the number of such
    members. *)
Theorem signal_set_iff_member_queued w :
  reachable w →
  (imm_flush_needed (this w) = true
   ↔ ∃ m, m ∈ memlist_ (this w) ∧ flush_in_progress_ (heap w m) = false)
  ∧ num_flush_not_started_ (this w)
    = Z.of_nat (length (filter (not_started (heap w)) (memlist_ (this w)))).
Proof.
  intros Hr. pose proof (reachable_signal w Hr) as Hsig.
  pose proof (inv_count _ (reachable_invariant w Hr)) as Hc.
  split; [|exact Hc].
  unfold signal_matches_count in Hsig. rewrite Hsig, Hc, Z.ltb_lt.
  destruct (filter (not_started (heap w)) (memlist_ (this w))) as [|x l] eqn:Hfil.
  - cbn. split; [lia|]. intros (m & Hm & Hfip).
    assert (Hin : m ∈ filter (not_started (heap w)) (memlist_ (this w)))
      by (by apply list_elem_of_filter).
    rewrite Hfil in Hin. by apply elem_of_nil in Hin.
  - split; [|cbn [length]; lia]. intros _. exists x.
    assert (Hx : x ∈ filter (not_started (heap w)) (memlist_ (this w)))
      by (rewrite Hfil; by left).
    apply list_elem_of_filter in Hx as [Hp Hx]. by split.
Qed.

(** An instance: memtable 1 added and selected, nothing is queued. *)
Lemma signal_set_iff_member_queued_witness :
  imm_flush_needed (this (Scenario.the Scenario.one_selected)) = false
  ∧ num_flush_not_started_ (this (Scenario.the Scenario.one_selected)) = 0.
Proof.
  destruct (signal_set_iff_member_queued _ one_selected_reachable) as [_ Hn].
  split; [reflexivity|exact Hn].
Defined.

(** X4.  In every state the flush scheduler reaches, [IsFlushPending] with a
    threshold of at least one returns, and its answer is whether at least
    that many members of the list are not yet [flush_in_progress_]. *)
Theorem IsFlushPending_counts_queued n w :
  reachable w → 0 < n →
  IsFlushPending n w
  = Returned (n <=? Z.of_nat (length (filter (not_started (heap w))
                                        (memlist_ (this w))))).
Proof.
  intros Hr Hn. pose proof (reachable_signal w Hr) as Hsig.
  pose proof (inv_count _ (reachable_invariant w Hr)) as Hc.
  unfold signal_matches_count in Hsig. unfold IsFlushPending. rewrite <- Hc.
  destruct (Z.leb_spec n (num_flush_not_started_ (this w))); [|done].
  rewrite Hsig. destruct (Z.ltb_spec 0 (num_flush_not_started_ (this w))); [done|lia].
Qed.

(** An instance: with three memtables queued, three are enough to merge and
    four are not. *)
Lemma IsFlushPending_counts_queued_witness :
  IsFlushPending 3 (Scenario.the (Scenario.three_added Scenario.always_ok))
  = Returned true
  ∧ IsFlushPending 4 (Scenario.the (Scenario.three_added Scenario.always_ok))
    = Returned false.
Proof.
  split.
  - apply (IsFlushPending_counts_queued 3 _
             (three_added_reachable Scenario.always_ok)). lia.
  - apply (IsFlushPending_counts_queued 4 _
             (three_added_reachable Scenario.always_ok)). lia.
Defined.

(** X5.  A threshold of zero or less is not supported when nothing is
    queued: the comparison with [num_flush_not_started_ = 0] succeeds and
    the assertion on the signal, which is then unset, fails. *)
Theorem IsFlushPending_zero_threshold_aborts n w :
  reachable w → n ≤ 0 →
  (∀ m, m ∈ memlist_ (this w) → flush_in_progress_ (heap w m) = true) →
  IsFlushPending n w = AssertionFailed.
Proof.
  intros Hr Hn Hall. pose proof (reachable_signal w Hr) as Hsig.
  pose proof (inv_count _ (reachable_invariant w Hr)) as Hc.
  rewrite (filter_not_started_nil _ _ Hall) in Hc. change (Z.of_nat (length [])) with 0 in Hc.
  unfold signal_matches_count in Hsig. unfold IsFlushPending.
  rewrite Hsig, Hc.
  destruct (Z.leb_spec n 0); [reflexivity|lia].
Qed.

(** An instance: the empty list. *)
Lemma IsFlushPending_zero_threshold_aborts_witness :
  IsFlushPending 0 (Scenario.start Scenario.always_ok ∅) = AssertionFailed.
Proof.
  apply IsFlushPending_zero_threshold_aborts.
  - apply start_reachable.
  - lia.
  - intros m Hm. by apply elem_of_nil in Hm.
Defined.

Lemma GetMemTables_app w output :
  GetMemTables w output = output ++ memlist_ (this w).
Proof.
  unfold GetMemTables. revert output.
  induction (memlist_ (this w)) as [|m l IH]; intros output; cbn [foldl].
  - by rewrite app_nil_r.
  - by rewrite IH, <- app_assoc.
Qed.

(** X6.  In every state the flush scheduler reaches, [Add] returns for any
    memtable: it touches no memtable, [GetMemTables] then reports the new
    memtable first, followed by the former members, [size] has grown by
    one, and a flush is pending for a threshold of one. *)
Theorem Add_makes_flush_pending m w output :
  reachable w →
  ∃ w', Add m w = Returned w'
    ∧ heap w' = heap w
    ∧ GetMemTables w' output = output ++ m :: memlist_ (this w)
    ∧ size w' = Returned (Z.of_nat (S (length (memlist_ (this w)))))
    ∧ IsFlushPending 1 w' = Returned true.
Proof.
  intros Hr. pose proof (reachable_signal w Hr) as Hsig.
  destruct (list_invariant_bounds w (reachable_invariant w Hr)) as [[H0 Hle] Hs].
  destruct (Add_total m w Hle) as [w' Hrun]. exists w'. split; [exact Hrun|].
  destruct (Add_Returned _ _ _ Hrun) as (_ & Hl & Hsz & Hn & _ & Hf & Hh & _).
  split; [exact Hh|]. split; [by rewrite GetMemTables_app, Hl|].
  unfold signal_matches_count in Hsig. split.
  - unfold size, assert. rewrite Hn, Hsz.
    destruct (Z.leb_spec (num_flush_not_started_ (this w) + 1) (size_ (this w) + 1));
      [|lia].
    cbn. f_equal. lia.
  - unfold IsFlushPending. rewrite Hn, Hf, Hsig.
    destruct (Z.leb_spec 1 (num_flush_not_started_ (this w) + 1)); [|lia].
    destruct (Z.eqb_spec (num_flush_not_started_ (this w) + 1) 1); [done|].
    destruct (Z.ltb_spec 0 (num_flush_not_started_ (this w))); [done|lia].
Qed.

(** An instance: a second memtable is added while the first is being
    flushed. *)
Lemma Add_makes_flush_pending_witness :
  ∃ w', Add 2%nat (Scenario.the Scenario.one_selected) = Returned w'
    ∧ GetMemTables w' [] = [2; 1]%nat
    ∧ size w' = Returned 2
    ∧ IsFlushPending 1 w' = Returned true.
Proof.
  destruct (Add_makes_flush_pending 2%nat _ [] one_selected_reachable)
    as (w' & Hrun & _ & Hget & Hsize & Hpend).
  exists w'. split; [exact Hrun|]. split; [exact Hget|]. split; [exact Hsize|exact Hpend].
Defined.

End signal.

(** ** Selecting twice, and selecting again after a failed flush *)

Section pick_again.

Lemma selection_Returned (r : Result (World * list MemTablePtr)) :
  Scenario.returned r = true →
  r = Returned ((Cases.selection r).1, (Cases.selection r).2).
Proof. destruct r as [[w l]| | |]; done. Qed.

Lemma pick_loop_Returned (its : list MemTablePtr) w ret w' ret' :
  pick_loop its w ret = Returned (w', ret') →
  ∀ m, m ∈ its → flush_in_progress_ (heap w m) = false →
       flush_completed_ (heap w m) = false.
Proof.
  revert w ret. induction its as [|a its IH]; intros w ret Hrun m Hm Hfip.
  - by apply elem_of_nil in Hm.
  - cbn [pick_loop] in Hrun.
    destruct (flush_in_progress_ (heap w a)) eqn:Ha; cbn [negb] in Hrun.
    + apply elem_of_cons in Hm as [->|Hm]; [congruence|]. by eapply IH.
    + destruct (flush_completed_ (heap w a)) eqn:Hca; [done|].
      cbn [negb assert mbind Result_bind] in Hrun.
      destruct (decide (m = a)) as [->|Hne]; [done|].
      apply elem_of_cons in Hm as [->|Hm]; [done|].
      match type of Hrun with pick_loop _ ?W _ = _ =>
        assert (Hh : heap W m = heap w m)
      end.
      { rewrite heap_update_ne by done. by destruct (_ =? 0). }
      rewrite <- Hh. eapply IH; [exact Hrun|exact Hm|by rewrite Hh].
Qed.

Lemma pick_loop_none (its : list MemTablePtr) w ret :
  (∀ m, m ∈ its → flush_in_progress_ (heap w m) = true) →
  pick_loop its w ret = Returned (w, ret).
Proof.
  induction its as [|a its IH]; intros Hall; [done|].
  cbn [pick_loop]. rewrite (Hall a) by (by left). cbn [negb].
  apply IH. intros m Hm. apply Hall. by right.
Qed.

(** X7.  After a call of [PickMemtablesToFlush] has returned, every member
    of the list is [flush_in_progress_], and a second call selects nothing
    and changes nothing: no memtable is handed to two flush jobs. *)
Theorem Pick_again_selects_nothing w ret w' ret' ret2 :
  PickMemtablesToFlush w ret = Returned (w', ret') →
  (∀ m, m ∈ memlist_ (this w') → flush_in_progress_ (heap w' m) = true)
  ∧ PickMemtablesToFlush w' ret2 = Returned (w', ret2).
Proof.
  intros Hrun. unfold PickMemtablesToFlush in Hrun.
  destruct (pick_loop_spec (reverse (memlist_ (this w))) w ret
              (pick_loop_Returned _ _ _ _ _ Hrun))
    as (w2 & sel & Hrun2 & _ & Hmem & _ & _ & Hin & Hout & _ & _ & Hl & _).
  rewrite Hrun in Hrun2. injection Hrun2 as <- ->.
  assert (Hall : ∀ m, m ∈ memlist_ (this w') → flush_in_progress_ (heap w' m) = true).
  { intros m Hm. rewrite Hl in Hm. destruct (flush_in_progress_ (heap w m)) eqn:Hfip.
    - rewrite Hout; [done|]. rewrite Hmem. intros [_ ?]. congruence.
    - rewrite Hin; [done|]. apply Hmem. split; [by apply elem_of_reverse|done]. }
  split; [exact Hall|].
  apply pick_loop_none. intros m Hm. apply Hall. by rewrite elem_of_reverse in Hm.
Qed.

(** An instance: three memtables added and selected; the next selection is
    empty. *)
Lemma Pick_again_selects_nothing_witness :
  Cases.three_picked.2 = [1; 2; 3]%nat
  ∧ PickMemtablesToFlush Cases.three_picked.1 [] = Returned (Cases.three_picked.1, []).
Proof.
  split; [reflexivity|].
  apply (Pick_again_selects_nothing
           (Scenario.the (Scenario.three_added Scenario.always_ok)) []
           Cases.three_picked.1 Cases.three_picked.2 []).
  apply selection_Returned. reflexivity.
Defined.

Lemma three_picked_reachable : reachable Cases.three_picked.1.
Proof.
  eapply (reach_Pick (Scenario.the (Scenario.three_added Scenario.always_ok)) []
            _ Cases.three_picked.2).
  - apply three_added_reachable.
  - apply selection_Returned. reflexivity.
Qed.

(** X8.  A batch whose flush failed is selected again.  After a call of
    [InstallMemtableFlushResults] with a failed flush status has returned
    in a state the flush scheduler reaches, the next
    [PickMemtablesToFlush] returns, and it selects, oldest first and each
    once, exactly the members of the failed batch together with the members
    that were not yet in progress. *)
Theorem failed_flush_is_picked_again fuel mems flushStatus file_number w w1 s ret :
  reachable w →
  ok flushStatus = false →
  InstallMemtableFlushResults fuel mems flushStatus file_number w = Returned (w1, s) →
  ∃ w2 sel, PickMemtablesToFlush w1 ret = Returned (w2, ret ++ sel)
    ∧ NoDup sel
    ∧ sel `sublist_of` reverse (memlist_ (this w))
    ∧ (∀ m, m ∈ sel ↔
            m ∈ mems ∨ (m ∈ memlist_ (this w) ∧ flush_in_progress_ (heap w m) = false))
    ∧ (∀ m, m ∈ memlist_ (this w) → flush_in_progress_ (heap w2 m) = true).
Proof.
  intros Hr Hfs Hrun. pose proof (reachable_invariant w Hr) as Hinv.
  apply Install_Returned in Hrun as [(_ & _ & Hreset)|(Hfs' & _)]; [|congruence].
  pose proof (list_invariant_reset _ _ _ _ Hinv Hreset) as Hinv1.
  destruct (reset_loop_Returned _ _ _ _ Hreset) as [Hndm Hpre].
  destruct (reset_loop_spec mems file_number w Hndm Hpre)
    as (w' & Hreset' & Hl & _ & _ & _ & _ & _ & _ & _ & Hin & Hout).
  rewrite Hreset in Hreset'. injection Hreset' as <-.
  assert (Hsub : ∀ m, m ∈ mems → m ∈ memlist_ (this w)).
  { intros m Hm. destruct (Hpre m Hm) as [Hf Hfn].
    destruct (decide (m ∈ memlist_ (this w))) as [|Hnot]; [done|].
    by destruct (inv_outside _ Hinv m Hnot Hf). }
  unfold PickMemtablesToFlush.
  destruct (pick_loop_spec (reverse (memlist_ (this w1))) w1 ret)
    as (w2 & sel & Hpick & Hnd & Hmem & Hsl & _ & Hsin & Hsout & _).
  { intros m Hm Hfip. rewrite elem_of_reverse in Hm.
    by destruct (inv_queued _ Hinv1 m Hm Hfip). }
  exists w2, sel. split; [exact Hpick|]. split; [exact Hnd|].
  rewrite Hl in Hsl, Hmem. split; [exact Hsl|]. split.
  - intros m. rewrite Hmem, elem_of_reverse.
    destruct (decide (m ∈ mems)) as [Hm|Hm].
    + rewrite (Hin m Hm). cbn. split; [by left|]. intros _. split; [by apply Hsub|done].
    + rewrite (Hout m Hm). tauto.
  - intros m Hm. destruct (flush_in_progress_ (heap w1 m)) eqn:Hfip.
    + rewrite Hsout; [done|]. rewrite Hmem. intros [_ ?]. congruence.
    + rewrite Hsin; [done|]. apply Hmem. split; [by apply elem_of_reverse|done].
Qed.

(** An instance: of three memtables selected together, the flush of 1 and 2
    failed; they are selected again and 3 is not. *)
Lemma failed_flush_is_picked_again_witness :
  ∃ w2 sel, PickMemtablesToFlush Cases.two_failed.1 [] = Returned (w2, [] ++ sel)
    ∧ 1%nat ∈ sel ∧ 2%nat ∈ sel ∧ 3%nat ∉ sel.
Proof.
  destruct (failed_flush_is_picked_again 0 [1; 2]%nat Scenario.flush_failed 10
              Cases.three_picked.1 Cases.two_failed.1 Cases.two_failed.2 [])
    as (w2 & sel & Hrun & _ & _ & Hmem & _).
  - exact three_picked_reachable.
  - reflexivity.
  - apply outcome_Returned. reflexivity.
  - exists w2, sel. split; [exact Hrun|].
    split; [apply Hmem; left; by left|].
    split; [apply Hmem; left; by right; left|].
    rewrite Hmem. intros [Hin|[_ Hfip]]; [clear -Hin; set_solver|].
    vm_compute in Hfip. done.
Defined.

End pick_again.

(** ** What a successful call has done *)

Section success.

Lemma commit_scan_stop fuel file_number s w w' s' :
  commit_scan fuel file_number s w = Returned (w', s') →
  ok s' = true →
  ∀ m, last (memlist_ (this w')) = Some m → flush_completed_ (heap w' m) = false.
Proof.
  revert s w. induction fuel as [|fuel IH]; intros s w Hrun Hs'; [done|].
  destruct (ok s) eqn:Hs;
    [|rewrite commit_scan_error in Hrun by done; injection Hrun as <- <-; congruence].
  destruct (last (memlist_ (this w))) as [m|] eqn:Hlast;
    [|apply last_None in Hlast as Hnil; rewrite commit_scan_empty in Hrun by done;
      injection Hrun as <- <-; intros m; by rewrite Hlast].
  destruct (flush_completed_ (heap w m)) eqn:Hfc;
    [|rewrite (commit_scan_break _ _ _ _ m) in Hrun by done;
      injection Hrun as <- <-; intros m'; rewrite Hlast; by intros [= <-]].
  rewrite (commit_scan_turn _ _ _ _ m) in Hrun by done. cbn zeta in Hrun.
  destruct (batch_loop _ _ _ _ _ _) as [[w1 s1]| | |] eqn:Hb; try done.
  cbn [mbind Result_bind] in Hrun. by eapply IH.
Qed.

(** X9.  When a call with a successful flush that found the guard free
    returns ok, over a list without repeated members: the memtables it
    removed are a block at the old end of the list; each of them has lost
    one reference and carries a non-zero file number that is no longer
    pending; the size has dropped by their number; the not-started count
    and the signal are as before and the guard is free again; every other
    memtable is as it was, but for the flush result recorded on the batch.
    And nothing that could be committed is left behind: the oldest
    remaining member, if any, is not [flush_completed_]. *)
Theorem successful_install_commits_all_completed fuel mems flushStatus file_number
    w w' s :
  InstallMemtableFlushResults fuel mems flushStatus file_number w = Returned (w', s) →
  ok flushStatus = true →
  commit_in_progress_ (this w) = false →
  NoDup (memlist_ (this w)) →
  ok s = true →
  ∃ committed,
    memlist_ (this w) = memlist_ (this w') ++ committed
    ∧ (∀ m, last (memlist_ (this w')) = Some m → flush_completed_ (heap w' m) = false)
    ∧ size_ (this w') = size_ (this w) - Z.of_nat (length committed)
    ∧ num_flush_not_started_ (this w') = num_flush_not_started_ (this w)
    ∧ imm_flush_needed (this w') = imm_flush_needed (this w)
    ∧ commit_in_progress_ (this w') = false
    ∧ pending_outputs w' = pending_outputs w ∖ file_numbers (heap w') committed
    ∧ (∀ x, x ∈ committed →
            (x ∉ memlist_ (this w'))
            ∧ refs_ (heap w' x) = refs_ (heap w x) - 1
            ∧ file_number_ (heap w' x) ≠ 0%N
            ∧ (file_number_ (heap w' x) ∉ pending_outputs w'))
    ∧ (∀ x, x ∉ committed →
            heap w' x = if decide (x ∈ mems)
                        then mark_memtable file_number (heap w x) else heap w x).
Proof.
  intros Hrun Hfs Hcip Hnd Hs.
  apply Install_Returned in Hrun
    as [(Hfs' & _)|(_ & wm & Hm & [(Hcip' & _ & _)|(_ & ws & Hscan & ->)])];
    [congruence| |].
  { destruct (mark_loop_spec mems file_number true w (mark_loop_Returned _ _ _ _ _ Hm))
      as (w2 & Hm2 & Ht & _).
    rewrite Hm in Hm2. injection Hm2 as <-. rewrite Ht in Hcip'. congruence. }
  destruct (mark_loop_spec mems file_number true w (mark_loop_Returned _ _ _ _ _ Hm))
    as (w2 & Hm2 & Ht & _ & _ & Hpm & Hin & Hout).
  rewrite Hm in Hm2. injection Hm2 as <-.
  pose proof (commit_scan_stop _ _ _ _ _ _ Hscan Hs) as Hstop.
  apply commit_scan_effect in Hscan as (c & wf & Heff & Hend);
    [|done|cbn; by rewrite Ht].
  destruct Hend as [[_ Heff2]|(-> & _)]; [|done].
  assert (Hndm : NoDup (memlist_ (this (set_commit_in_progress true wm))))
    by (cbn; by rewrite Ht).
  pose proof (committed_effect_trans _ _ _ _ _ Hndm Heff Heff2) as Hall.
  cbn [app] in Hall.
  destruct Hall as (Hl1 & Hsz1 & Hn1 & _ & Hf1 & Hp1 & Hin1 & Hout1).
  cbn in Hl1, Hsz1, Hn1, Hf1, Hp1, Hin1, Hout1. rewrite Ht in Hl1, Hsz1, Hn1, Hf1.
  assert (Hndf : NoDup (memlist_ (this ws) ++ c)) by (by rewrite <- Hl1).
  apply NoDup_app in Hndf as (_ & Hdisj & _).
  assert (Hwm : ∀ x, heap wm x = if decide (x ∈ mems)
                                  then mark_memtable file_number (heap w x)
                                  else heap w x).
  { intros x. destruct (decide (x ∈ mems)); [by apply Hin|by apply Hout]. }
  assert (Hfn : file_numbers (heap ws) c = file_numbers (heap wm) c).
  { unfold file_numbers. f_equal. apply list_fmap_ext.
    intros i x Hx%list_elem_of_lookup_2. by destruct (Hin1 x Hx) as [-> _]. }
  exists c. cbn. rewrite Hfn.
  split; [done|]. split; [exact Hstop|].
  split; [done|]. split; [done|]. split; [done|]. split; [done|].
  split; [by rewrite Hp1, Hpm|]. split.
  - intros x Hx. destruct (Hin1 x Hx) as [-> Hne].
    split; [intros Hx'; by apply (Hdisj x)|].
    split; [cbn; rewrite Hwm; by destruct (decide (x ∈ mems))|].
    split; [done|].
    rewrite Hp1. cbn. intros [_ Hin']%elem_of_difference. apply Hin'.
    by apply elem_of_file_numbers.
  - intros x Hx. by rewrite (Hout1 x Hx).
Qed.

(** An instance: the three memtables of [Scenario.all_completed] are all
    committed by the call that installs memtable 1. *)
Lemma successful_install_commits_all_completed_witness :
  ∃ committed,
    memlist_ (this Scenario.all_completed)
    = memlist_ (this Scenario.all_completed_outcome.1) ++ committed
    ∧ size_ (this Scenario.all_completed_outcome.1)
      = size_ (this Scenario.all_completed) - Z.of_nat (length committed)
    ∧ commit_in_progress_ (this Scenario.all_completed_outcome.1) = false.
Proof.
  destruct (successful_install_commits_all_completed 4 [1%nat] StatusOK 10
              Scenario.all_completed Scenario.all_completed_outcome.1
              Scenario.all_completed_outcome.2)
    as (committed & Hl & _ & Hsz & _ & _ & Hcip & _).
  - apply outcome_Returned. reflexivity.
  - reflexivity.
  - reflexivity.
  - compute_done.
  - reflexivity.
  - exists committed. split; [exact Hl|]. split; [exact Hsz|exact Hcip].
Defined.

Lemma file_numbers_constant (h : Heap) (c : list MemTablePtr) n :
  c ≠ [] → (∀ x, x ∈ c → file_number_ (h x) = n) → file_numbers h c = {[n]}.
Proof.
  intros Hne Hall. unfold file_numbers. apply set_eq. intros k.
  rewrite elem_of_list_to_set, list_elem_of_fmap, elem_of_singleton. split.
  - intros (x & -> & Hx). by apply Hall.
  - intros ->. destruct c as [|x c]; [done|]. exists x.
    split; [symmetry; apply Hall|]; by left.
Qed.

(** X10.  The usual case from end to end.  The list holds exactly the batch
    (the memtables that one [PickMemtablesToFlush] returned, oldest
    first), only the first memtable of the batch carries an edit, the guard
    is free, the file number is a real one and the metadata log accepts the
    edit.  Then, with fuel for one turn per member, the call returns ok and
    the list is empty: the metadata log was called once, with the edit of
    the oldest member; the file number is no longer pending; every member
    has the flush result recorded and one reference less; the counters other
    than the size are untouched. *)
Theorem whole_list_batch_commits_at_once fuel file_number w m followers :
  memlist_ (this w) = reverse (m :: followers) →
  NoDup (m :: followers) →
  (∀ x, x ∈ followers → edit_ (heap w x) = []) →
  commit_in_progress_ (this w) = false →
  file_number ≠ 0%N →
  ok (oracle (vset w) (calls (vset w)) (edit_ (heap w m))) = true →
  (length followers < fuel)%nat →
  ∃ w', InstallMemtableFlushResults (S fuel) (m :: followers) StatusOK file_number w
        = Returned (w', StatusOK)
    ∧ memlist_ (this w') = []
    ∧ size_ (this w') = size_ (this w) - Z.of_nat (S (length followers))
    ∧ num_flush_not_started_ (this w') = num_flush_not_started_ (this w)
    ∧ imm_flush_needed (this w') = imm_flush_needed (this w)
    ∧ commit_in_progress_ (this w') = false
    ∧ calls (vset w') = calls (vset w) ++ [(edit_ (heap w m), StatusOK)]
    ∧ pending_outputs w' = pending_outputs w ∖ {[file_number]}
    ∧ info_log w'
      = info_log w ++ CommitStarted file_number
                      :: CommitDone file_number false
                      :: ((λ _, CommitDone file_number true) <$> followers)
    ∧ (∀ x, x ∈ m :: followers →
            heap w' x = Unref (mark_memtable file_number (heap w x)))
    ∧ (∀ x, x ∉ m :: followers → heap w' x = heap w x).
Proof.
  intros Hlist Hnd Hedits Hcip Hfile Hok Hfuel.
  rewrite reverse_cons in Hlist.
  destruct (mark_loop_spec (m :: followers) file_number true w Hedits)
    as (wm & Hm & Ht & Hv & Hlog & Hp & Hin & Hout).
  unfold InstallMemtableFlushResults. cbn [ok negb]. rewrite Hm.
  cbn [mbind Result_bind]. rewrite Ht, Hcip.
  assert (Hmm : heap wm m = mark_memtable file_number (heap w m))
    by (apply Hin; by left).
  rewrite (commit_scan_turn _ _ _ _ m);
    [|done|proj_simpl; by rewrite Ht, Hlist, last_snoc|proj_simpl; by rewrite Hmm].
  cbn zeta. unfold LogAndApply. proj_simpl. cbn [fst snd].
  rewrite Hmm, Hv. cbn [edit_ file_number_ mark_memtable].
  destruct (oracle (vset w) (calls (vset w)) (edit_ (heap w m))) eqn:Hs; [|done].
  match goal with |- context [batch_loop fuel file_number true m StatusOK ?W0] =>
    destruct (batch_loop_run file_number [] followers Hfile fuel true m W0)
      as (w1 & Hrun & Hl1 & Hsz1 & Hn1 & Hc1 & Hf1 & Hv1 & Hlog1 & Hp1 & Hin1 & Hout1)
  end.
  { proj_simpl. by rewrite Ht, Hlist. }
  { proj_simpl. by rewrite Ht, Hlist, <- reverse_cons, reverse_Permutation. }
  { proj_simpl. by rewrite Hmm. }
  { intros x Hx. proj_simpl. rewrite (Hin x) by (by right). done. }
  { done. }
  { done. }
  rewrite Hrun. cbn [mbind Result_bind].
  destruct fuel as [|fuel]; [lia|].
  rewrite commit_scan_empty by done. cbn [mbind Result_bind].
  eexists. split; [reflexivity|]. proj_simpl.
  rewrite Hl1, Hsz1, Hn1, Hf1, Hv1, Hlog1, Hp1. proj_simpl.
  rewrite Ht, Hlog, Hp, Hmm. cbn [file_number_ mark_memtable calls].
  split; [done|]. split; [done|]. split; [done|]. split; [done|]. split; [done|].
  split; [done|]. split.
  { f_equal. apply file_numbers_constant; [done|].
    intros x Hx. proj_simpl. by rewrite (Hin x Hx). }
  split; [by rewrite <- app_assoc|]. split.
  - intros x Hx. rewrite (Hin1 x Hx). proj_simpl. by rewrite (Hin x Hx).
  - intros x Hx. rewrite (Hout1 x Hx). proj_simpl. by rewrite (Hout x Hx).
Qed.

(** An instance: memtable 1 was selected and flushed to file 10. *)
Lemma whole_list_batch_commits_at_once_witness :
  ∃ w', InstallMemtableFlushResults 2 [1%nat] StatusOK 10 Cases.one_flushed
        = Returned (w', StatusOK)
    ∧ memlist_ (this w') = []
    ∧ calls (vset w') = [([10%N], StatusOK)]
    ∧ (10%N ∉ pending_outputs w').
Proof.
  destruct (whole_list_batch_commits_at_once 1 10 Cases.one_flushed 1%nat [])
    as (w' & Hrun & Hl & _ & _ & _ & _ & Hcalls & Hp & _).
  - reflexivity.
  - apply NoDup_singleton.
  - intros x Hx. by apply elem_of_nil in Hx.
  - reflexivity.
  - done.
  - reflexivity.
  - cbn. lia.
  - exists w'. split; [exact Hrun|]. split; [exact Hl|]. split; [exact Hcalls|].
    rewrite Hp. set_unfold. tauto.
Defined.

End success.

(** ** What a call never does *)

Section frame.

Lemma only_shrinks_refl w : only_shrinks w w.
Proof. repeat split; try done; lia. Qed.

Lemma only_shrinks_trans w1 w2 w3 :
  only_shrinks w1 w2 → only_shrinks w2 w3 → only_shrinks w1 w3.
Proof.
  intros (Hl1 & Hs1 & Hp1 & Hc1 & Ho1 & Hi1 & Hr1 & Hh1)
         (Hl2 & Hs2 & Hp2 & Hc2 & Ho2 & Hi2 & Hr2 & Hh2).
  split; [by etrans|]. split; [lia|]. split; [by etrans|]. split; [by etrans|].
  split; [congruence|]. split; [by etrans|]. split.
  - intros x. specialize (Hr1 x). specialize (Hr2 x). lia.
  - intros x Hx. rewrite Hh2, Hh1; [done..|]. intros Hx2. apply Hx. by apply Hl1.
Qed.

Lemma commit_one_shrinks m first w w1 :
  last (memlist_ (this w)) = Some m →
  commit_one m first w = Returned w1 →
  only_shrinks w w1.
Proof.
  intros Hlast Hrun.
  destruct (commit_one_Returned _ _ _ _ Hrun)
    as (_ & Hl & Hsz & _ & _ & _ & Hv & Hlog & Hp & Hm & Ho).
  split; [rewrite Hl; intros x [_ Hx]%list_elem_of_filter; exact Hx|].
  split; [lia|]. split; [rewrite Hp; set_solver|]. split; [by rewrite Hv|].
  split; [by rewrite Hv|]. split; [rewrite Hlog; by eexists|]. split.
  - intros x. destruct (decide (x = m)) as [->|Hne].
    + rewrite Hm. cbn. lia.
    + rewrite Ho by done. lia.
  - intros x Hx. apply Ho. intros ->. apply Hx. by eapply last_Some_elem_of.
Qed.

Lemma rollback_one_shrinks m w :
  last (memlist_ (this w)) = Some m →
  only_shrinks w (rollback_one m w).1.
Proof.
  intros Hlast.
  destruct (rollback_one_spec m w)
    as (_ & Hl & Hsz & _ & _ & _ & Hv & Hlog & Hp & Hm & Ho).
  cbn zeta in Hl, Hsz, Hv, Hlog, Hp, Hm, Ho.
  split; [by rewrite Hl|].
  split; [lia|]. split; [rewrite Hp; set_solver|]. split; [by rewrite Hv|].
  split; [by rewrite Hv|]. split; [rewrite Hlog; by eexists|]. split.
  - intros x. destruct (decide (x = m)) as [->|Hne].
    + rewrite Hm. cbn. lia.
    + rewrite Ho by done. lia.
  - intros x Hx. apply Ho. intros ->. apply Hx. by eapply last_Some_elem_of.
Qed.

Lemma batch_loop_shrinks fuel file_number first m s w w' s' :
  last (memlist_ (this w)) = Some m →
  batch_loop fuel file_number first m s w = Returned (w', s') →
  only_shrinks w w'.
Proof.
  revert first m s w.
  induction fuel as [|fuel IH]; intros first m s w Hlast Hrun; [done|].
  destruct (ok s) eqn:Hs.
  - destruct (commit_one_cases m first w) as [[w1 Hc]|Hc];
      [|by rewrite (batch_loop_commit_fails _ _ _ _ _ _ Hs Hc) in Hrun].
    rewrite (batch_loop_commit _ _ _ _ _ _ _ Hs Hc) in Hrun.
    pose proof (commit_one_shrinks _ _ _ _ Hlast Hc) as H1.
    destruct (last (memlist_ (this w1))) as [m'|] eqn:Hlast1;
      [|by injection Hrun as <- <-].
    destruct (file_number_ (heap w1 m') =? file_number)%N;
      [|by injection Hrun as <- <-].
    eapply only_shrinks_trans; [exact H1|]. by eapply (IH false m' s w1).
  - apply batch_loop_failed in Hrun as (_ & -> & _); try done.
    by apply rollback_one_shrinks.
Qed.

Lemma commit_scan_shrinks fuel file_number s w w' s' :
  commit_scan fuel file_number s w = Returned (w', s') →
  only_shrinks w w'.
Proof.
  revert s w. induction fuel as [|fuel IH]; intros s w Hrun; [done|].
  destruct (ok s) eqn:Hs;
    [|rewrite commit_scan_error in Hrun by done; injection Hrun as <- <-;
      apply only_shrinks_refl].
  destruct (last (memlist_ (this w))) as [m|] eqn:Hlast;
    [|apply last_None in Hlast; rewrite commit_scan_empty in Hrun by done;
      injection Hrun as <- <-; apply only_shrinks_refl].
  destruct (flush_completed_ (heap w m)) eqn:Hfc;
    [|rewrite (commit_scan_break _ _ _ _ m) in Hrun by done;
      injection Hrun as <- <-; apply only_shrinks_refl].
  rewrite (commit_scan_turn _ _ _ _ m) in Hrun by done. cbn zeta in Hrun.
  destruct (batch_loop _ _ _ _ _ _) as [[w1 s1]| | |] eqn:Hb; try done.
  cbn [mbind Result_bind] in Hrun.
  apply batch_loop_shrinks in Hb; [|done].
  apply IH in Hrun.
  eapply only_shrinks_trans; [|exact Hrun].
  eapply only_shrinks_trans; [|exact Hb].
  repeat split; try done; try lia.
  - cbn. by eexists.
  - cbn. by eexists.
Qed.

(** X11.  What a returning call of [InstallMemtableFlushResults] never
    does, whatever its arguments: it adds no member to the list and does
    not raise [size_]; it adds no file number to the pending outputs; it
    rewrites nothing of what the metadata log and the info log have
    recorded, which only grow; it takes no reference on any memtable; and a
    memtable that is neither in the batch nor in the list is left exactly as
    it was. *)
Theorem Install_only_shrinks fuel mems flushStatus file_number w w' s :
  InstallMemtableFlushResults fuel mems flushStatus file_number w = Returned (w', s) →
  memlist_ (this w') ⊆ memlist_ (this w)
  ∧ size_ (this w') ≤ size_ (this w)
  ∧ pending_outputs w' ⊆ pending_outputs w
  ∧ calls (vset w) `prefix_of` calls (vset w')
  ∧ info_log w `prefix_of` info_log w'
  ∧ (∀ x, refs_ (heap w' x) ≤ refs_ (heap w x))
  ∧ (∀ x, x ∉ mems → x ∉ memlist_ (this w) → heap w' x = heap w x).
Proof.
  intros Hrun.
  apply Install_Returned in Hrun
    as [(_ & _ & Hr)|(Hs & wm & Hm & Hcase)].
  - destruct (reset_loop_Returned _ _ _ _ Hr) as [Hndm Hpre].
    destruct (reset_loop_spec mems file_number w Hndm Hpre)
      as (w2 & Hrun2 & Hl & Hsz & _ & _ & _ & Hp & Hv & Hlog & Hin & Hout).
    rewrite Hr in Hrun2. injection Hrun2 as <-.
    rewrite Hl, Hsz, Hv, Hlog, Hp.
    split; [done|]. split; [lia|]. split; [destruct mems; set_solver|].
    split; [done|]. split; [done|]. split.
    + intros x. destruct (decide (x ∈ mems)) as [Hx|Hx].
      * rewrite (Hin x Hx). cbn. lia.
      * rewrite (Hout x Hx). lia.
    + intros x Hx _. by apply Hout.
  - destruct (mark_loop_spec mems file_number true w (mark_loop_Returned _ _ _ _ _ Hm))
      as (w2 & Hm2 & Ht & Hv & Hlog & Hp & Hin & Hout).
    rewrite Hm in Hm2. injection Hm2 as <-.
    assert (Hrefs : ∀ x, refs_ (heap wm x) = refs_ (heap w x)).
    { intros x. destruct (decide (x ∈ mems)) as [Hx|Hx];
        [by rewrite (Hin x Hx)|by rewrite (Hout x Hx)]. }
    destruct Hcase as [(_ & -> & _)|(_ & ws & Hscan & ->)].
    + rewrite Ht, Hv, Hlog, Hp.
      split; [done|]. split; [lia|]. split; [done|]. split; [done|].
      split; [done|]. split; [intros x; rewrite Hrefs; lia|].
      intros x Hx _. by apply Hout.
    + apply commit_scan_shrinks in Hscan
        as (Hl1 & Hsz1 & Hp1 & Hc1 & _ & Hi1 & Hr1 & Hh1).
      revert Hl1 Hsz1 Hp1 Hc1 Hi1 Hr1 Hh1. proj_simpl.
      rewrite Ht, Hv, Hlog, Hp. intros Hl1 Hsz1 Hp1 Hc1 Hi1 Hr1 Hh1.
      split; [done|]. split; [done|]. split; [done|]. split; [done|].
      split; [done|]. split.
      * intros x. specialize (Hr1 x). rewrite Hrefs in Hr1. done.
      * intros x Hx Hxl. rewrite Hh1 by done. by apply Hout.
Qed.

(** An instance: the call that commits the three memtables of
    [Scenario.all_completed]. *)
Lemma Install_only_shrinks_witness :
  pending_outputs Scenario.all_completed_outcome.1
    ⊆ pending_outputs Scenario.all_completed
  ∧ calls (vset Scenario.all_completed)
      `prefix_of` calls (vset Scenario.all_completed_outcome.1)
  ∧ heap Scenario.all_completed_outcome.1 7%nat = heap Scenario.all_completed 7%nat.
Proof.
  destruct (Install_only_shrinks 4 [1%nat] StatusOK 10
              Scenario.all_completed Scenario.all_completed_outcome.1
              Scenario.all_completed_outcome.2)
    as (_ & _ & Hp & Hc & _ & _ & Hh).
  - apply outcome_Returned. reflexivity.
  - split; [exact Hp|]. split; [exact Hc|]. apply Hh.
    + by intros ?%list_elem_of_singleton.
    + intros Hin. vm_compute in Hin. clear -Hin. set_solver.
Defined.

End frame.

(** ** The end of the scan *)

Section fuel.

Lemma batch_loop_more_fuel fuel file_number first m s w :
  batch_loop fuel file_number first m s w ≠ OutOfFuel →
  batch_loop (S fuel) file_number first m s w
  = batch_loop fuel file_number first m s w.
Proof.
  revert first m s w. induction fuel as [|fuel IH]; intros first m s w Hne; [done|].
  destruct (ok s) eqn:Hs.
  - destruct (commit_one_cases m first w) as [[w1 Hc]|Hc].
    + rewrite (batch_loop_commit (S fuel) _ _ _ _ _ _ Hs Hc).
      rewrite (batch_loop_commit fuel _ _ _ _ _ _ Hs Hc) in Hne |- *.
      destruct (last (memlist_ (this w1))) as [m'|]; [|done].
      destruct (file_number_ (heap w1 m') =? file_number)%N; [|done].
      by apply IH.
    + by rewrite !batch_loop_commit_fails.
  - rewrite (batch_loop_rollback (S fuel) _ _ _ _ _ Hs).
    rewrite (batch_loop_rollback fuel _ _ _ _ _ Hs) in Hne |- *. cbn zeta in *.
    destruct (last (memlist_ (this (rollback_one m w).1))) as [m'|]; [|done].
    destruct (file_number_ (heap (rollback_one m w).1 m') =? file_number)%N; [|done].
    by apply IH.
Qed.

Lemma commit_scan_more_fuel fuel file_number s w :
  commit_scan fuel file_number s w ≠ OutOfFuel →
  commit_scan (S fuel) file_number s w = commit_scan fuel file_number s w.
Proof.
  revert s w. induction fuel as [|fuel IH]; intros s w Hne; [done|].
  destruct (ok s) eqn:Hs; [|by rewrite !commit_scan_error].
  destruct (last (memlist_ (this w))) as [m|] eqn:Hlast;
    [|apply last_None in Hlast; by rewrite !commit_scan_empty].
  destruct (flush_completed_ (heap w m)) eqn:Hfc;
    [|by rewrite !(commit_scan_break _ _ _ _ m)].
  rewrite (commit_scan_turn (S fuel) _ _ _ m) by done.
  rewrite (commit_scan_turn fuel _ _ _ m) in Hne |- * by done. cbn zeta in *.
  rewrite batch_loop_more_fuel.
  - destruct (batch_loop fuel _ _ _ _ _) as [[w1 s1]| | |]; try done.
    cbn [mbind Result_bind] in *. by apply IH.
  - intros Hb. rewrite Hb in Hne. by apply Hne.
Qed.

Lemma commit_scan_fuel_le fuel fuel' file_number s w :
  commit_scan fuel file_number s w ≠ OutOfFuel →
  (fuel ≤ fuel')%nat →
  commit_scan fuel' file_number s w = commit_scan fuel file_number s w.
Proof.
  intros Hne Hle. induction Hle as [|k Hle IH]; [done|].
  rewrite commit_scan_more_fuel; [done|]. by rewrite IH.
Qed.

(** X12.  The scan comes to an end.  For a real (non-zero) file number, one
    turn per member of the list and one more are enough for
    [InstallMemtableFlushResults] to finish (by returning or by a failed
    assertion), and what it does is the same for any larger bound: the
    outcome of the call does not depend on the fuel of the model. *)
Theorem Install_finishes fuel fuel' mems flushStatus file_number w :
  file_number ≠ 0%N →
  (length (memlist_ (this w)) < fuel)%nat →
  (fuel ≤ fuel')%nat →
  InstallMemtableFlushResults fuel mems flushStatus file_number w ≠ OutOfFuel
  ∧ InstallMemtableFlushResults fuel' mems flushStatus file_number w
    = InstallMemtableFlushResults fuel mems flushStatus file_number w.
Proof.
  intros Hfile Hfuel Hle. split; [by apply Install_enough_fuel|].
  unfold InstallMemtableFlushResults.
  destruct (ok flushStatus); cbn [negb]; [|done].
  destruct (mark_loop mems file_number true w) as [wm| | |] eqn:Hm; try done.
  cbn [mbind Result_bind].
  destruct (mark_loop_spec mems file_number true w (mark_loop_Returned _ _ _ _ _ Hm))
    as (w2 & Hm2 & Ht & _).
  rewrite Hm in Hm2. injection Hm2 as <-.
  destruct (commit_in_progress_ (this wm)); [done|].
  rewrite (commit_scan_fuel_le fuel fuel'); [done| |done].
  apply commit_scan_enough_fuel; [done|]. cbn. by rewrite Ht.
Qed.

(** An instance: four turns or forty for the three memtables of
    [Scenario.all_completed]. *)
Lemma Install_finishes_witness :
  InstallMemtableFlushResults 4 [1%nat] StatusOK 10 Scenario.all_completed ≠ OutOfFuel
  ∧ InstallMemtableFlushResults 40 [1%nat] StatusOK 10 Scenario.all_completed
    = InstallMemtableFlushResults 4 [1%nat] StatusOK 10 Scenario.all_completed.
Proof.
  apply (Install_finishes 4 40 [1%nat] StatusOK 10 Scenario.all_completed).
  - done.
  - vm_compute. lia.
  - lia.
Defined.

(** X13.  File number zero is not a file number.  When a batch that holds
    the oldest member of the list is installed with file number 0 and the
    metadata log refuses the edit, the rollback gives the member file number
    0 again, the test that ends the inner loop compares it with the file
    number of the call and finds them equal, and the loop runs the rollback
    once more, for ever: the call finishes for no bound on the number of
    turns. *)
Theorem Install_file_number_zero_never_ends fuel (mems : list MemTablePtr) w m :
  (∀ x, x ∈ tail mems → edit_ (heap w x) = []) →
  commit_in_progress_ (this w) = false →
  last (memlist_ (this w)) = Some m →
  m ∈ mems →
  ok (oracle (vset w) (calls (vset w)) (edit_ (heap w m))) = false →
  InstallMemtableFlushResults fuel mems StatusOK 0 w = OutOfFuel.
Proof.
  intros Hedits Hcip Hlast Hm Hrefuse.
  destruct (mark_loop_spec mems 0 true w Hedits)
    as (wm & Hmark & Ht & Hv & _ & _ & Hin & _).
  unfold InstallMemtableFlushResults. cbn [ok negb]. rewrite Hmark.
  cbn [mbind Result_bind]. rewrite Ht, Hcip.
  destruct fuel as [|fuel]; [done|].
  rewrite (commit_scan_turn _ _ _ _ m);
    [|done|proj_simpl; by rewrite Ht|proj_simpl; by rewrite (Hin m Hm)].
  cbn zeta. rewrite batch_loop_zero_never_ends; [done| |proj_simpl; by rewrite Ht].
  unfold LogAndApply. proj_simpl. cbn [fst]. by rewrite (Hin m Hm), Hv.
Qed.

(** An instance: memtable 1, flushed, is installed with file number 0 and
    the metadata log refuses its edit. *)
Lemma Install_file_number_zero_never_ends_witness :
  InstallMemtableFlushResults 1000 [1%nat] StatusOK 0 Cases.one_refused = OutOfFuel.
Proof.
  apply (Install_file_number_zero_never_ends 1000 [1%nat] Cases.one_refused 1%nat).
  - intros x Hx. by apply elem_of_nil in Hx.
  - reflexivity.
  - reflexivity.
  - by left.
  - reflexivity.
Defined.

End fuel.

(** ** Lookups and memory estimates *)

Section lookup.

Context {LookupKey Options : Type}.
Variable MemTable_Get : MemTablePtr → LookupKey → Lookup → Options → bool * Lookup.

Lemma get_loop_app G (l1 l2 : list MemTablePtr) (key : LookupKey) out
    (options : Options) :
  get_loop G (l1 ++ l2) key out options
  = if (get_loop G l1 key out options).1 then get_loop G l1 key out options
    else get_loop G l2 key (get_loop G l1 key out options).2 options.
Proof.
  revert out. induction l1 as [|a l1 IH]; intros out; cbn [app get_loop]; [done|].
  destruct (G a key out options) as [[] out1]; [done|]. apply IH.
Qed.

Lemma get_loop_ext G1 G2 (l : list MemTablePtr) (key : LookupKey) out
    (options : Options) :
  (∀ x, x ∈ l → G1 x = G2 x) →
  get_loop G1 l key out options = get_loop G2 l key out options.
Proof.
  revert out. induction l as [|a l IH]; intros out Hext; [done|].
  cbn [get_loop]. rewrite (Hext a) by (by left).
  destruct (G2 a key out options) as [[] out1]; [done|].
  apply IH. intros x Hx. apply Hext. by right.
Qed.

(** X14.  [Get] answers with the newest memtable that settles the lookup.
    When the members newer than [m] leave the lookup open (handing on the
    out-parameters [out1]) and [m] settles it, [Get] returns true with what
    [m] wrote, and the members older than [m] are not consulted: the answer
    is the same for any other contents [G] of the older memtables. *)
Theorem Get_newest_wins G key out options w newer m older out1 out2 :
  memlist_ (this w) = newer ++ m :: older →
  Get MemTable_Get key out options (set_memlist newer w) = (false, out1) →
  MemTable_Get m key out1 options = (true, out2) →
  (∀ x, x ∈ newer ∨ x = m → G x = MemTable_Get x) →
  Get G key out options w = (true, out2).
Proof.
  unfold Get. proj_simpl. intros -> Hnewer Hm Hext.
  rewrite (get_loop_app G newer (m :: older)).
  rewrite (get_loop_ext G MemTable_Get newer) by (intros x Hx; apply Hext; by left).
  rewrite Hnewer. cbn [fst snd get_loop].
  rewrite (Hext m) by (by right). by rewrite Hm.
Qed.

(** X15.  After [Add m], [Get] consults [m] first: if [m] settles the
    lookup that is the answer, and otherwise the lookup goes on through the
    former members as before, with the out-parameters as [m] left them. *)
Theorem Get_after_Add m w w' key out options :
  Add m w = Returned w' →
  Get MemTable_Get key out options w'
  = if (MemTable_Get m key out options).1
    then (true, (MemTable_Get m key out options).2)
    else Get MemTable_Get key (MemTable_Get m key out options).2 options w.
Proof.
  intros (_ & Hl & _)%Add_Returned. unfold Get. rewrite Hl. cbn [get_loop].
  by destruct (MemTable_Get m key out options) as [[] out1].
Qed.

End lookup.

Section lookup_instances.

(** An instance: memtable 3 adds an operand, memtable 2 settles the
    lookup, memtable 1 is not consulted. *)
Lemma Get_newest_wins_witness :
  Get Cases.other_tables "k" Cases.nothing_found tt
    (Scenario.the (Scenario.three_added Scenario.always_ok))
  = (true, mkLookup "new" StatusOK ["operand"]).
Proof.
  apply (Get_newest_wins Cases.tables Cases.other_tables "k" Cases.nothing_found tt
           (Scenario.the (Scenario.three_added Scenario.always_ok))
           [3%nat] 2%nat [1%nat] (mkLookup "" StatusOK ["operand"])).
  - reflexivity.
  - reflexivity.
  - reflexivity.
  - intros x [->%list_elem_of_singleton| ->]; reflexivity.
Defined.

(** An instance: memtable 2 is added to a list that holds memtable 1. *)
Lemma Get_after_Add_witness :
  ∃ w', Add 2%nat (Scenario.the Scenario.one_selected) = Returned w'
    ∧ Get Cases.tables "k" Cases.nothing_found tt w'
      = (true, mkLookup "new" StatusOK []).
Proof.
  destruct (Add_total 2%nat (Scenario.the Scenario.one_selected)) as [w' Hrun];
    [vm_compute; discriminate|].
  exists w'. split; [exact Hrun|].
  exact (Get_after_Add Cases.tables 2%nat _ w' "k" Cases.nothing_found tt Hrun).
Defined.

End lookup_instances.

Section usage.

Variable usage : MemTablePtr → Z.

Lemma foldl_size_t_add (l : list MemTablePtr) a :
  foldl (λ size m, size_t_add size (usage m)) (a mod 2 ^ 64) l
  = (a + total_usage usage l) mod 2 ^ 64.
Proof.
  revert a. induction l as [|x l IH]; intros a; cbn [foldl total_usage foldr].
  - by rewrite Z.add_0_r.
  - change (size_t_add (a mod 2 ^ 64) (usage x))
      with ((a mod 2 ^ 64 + usage x) mod 2 ^ 64).
    rewrite IH, <- Z.add_assoc, Zplus_mod_idemp_l. done.
Qed.

Lemma total_usage_Permutation (l1 l2 : list MemTablePtr) :
  l1 ≡ₚ l2 → total_usage usage l1 = total_usage usage l2.
Proof.
  induction 1 as [|x l1 l2 _ IH|x y l|l1 l2 l3 _ IH1 _ IH2]; cbn [total_usage foldr];
    [done| |lia|congruence].
  unfold total_usage in IH. lia.
Qed.

Lemma total_usage_nonneg (l : list MemTablePtr) :
  (∀ m, m ∈ l → 0 ≤ usage m) → 0 ≤ total_usage usage l.
Proof.
  induction l as [|x l IH]; intros Hall; cbn [total_usage foldr]; [done|].
  assert (0 ≤ usage x) by (apply Hall; by left).
  assert (0 ≤ total_usage usage l) by (apply IH; intros; apply Hall; by right).
  unfold total_usage in *. lia.
Qed.

Lemma ApproximateMemoryUsage_total w :
  ApproximateMemoryUsage usage w = total_usage usage (memlist_ (this w)) mod 2 ^ 64.
Proof.
  unfold ApproximateMemoryUsage.
  change 0 with (0 mod 2 ^ 64) at 1. by rewrite foldl_size_t_add.
Qed.

(** X16.  [ApproximateMemoryUsage] returns the sum of the estimates of the
    members, reduced modulo [2^64] as [size_t] addition does: it is the
    exact sum whenever the estimates are non-negative and their sum fits in
    a [size_t]; it does not depend on the order of the members; and [Add]
    raises it by the estimate of the new memtable (modulo [2^64]). *)
Theorem ApproximateMemoryUsage_wrapped_sum w :
  ApproximateMemoryUsage usage w = total_usage usage (memlist_ (this w)) mod 2 ^ 64
  ∧ ((∀ m, m ∈ memlist_ (this w) → 0 ≤ usage m) →
     total_usage usage (memlist_ (this w)) < 2 ^ 64 →
     ApproximateMemoryUsage usage w = total_usage usage (memlist_ (this w)))
  ∧ (∀ w2, memlist_ (this w2) ≡ₚ memlist_ (this w) →
           ApproximateMemoryUsage usage w2 = ApproximateMemoryUsage usage w)
  ∧ (∀ m w', Add m w = Returned w' →
             ApproximateMemoryUsage usage w'
             = size_t_add (ApproximateMemoryUsage usage w) (usage m)).
Proof.
  split; [apply ApproximateMemoryUsage_total|]. split; [|split].
  - intros Hpos Hfit. rewrite ApproximateMemoryUsage_total.
    apply Z.mod_small. split; [by apply total_usage_nonneg|done].
  - intros w2 Hperm. rewrite !ApproximateMemoryUsage_total.
    by rewrite (total_usage_Permutation _ _ Hperm).
  - intros m w' (_ & Hl & _)%Add_Returned. rewrite !ApproximateMemoryUsage_total, Hl.
    unfold size_t_add. cbn [total_usage foldr]. rewrite Zplus_mod_idemp_l.
    f_equal. unfold total_usage. lia.
Qed.

End usage.

Section usage_instance.

(** An instance: three memtables of 4096, 8192 and 12288 bytes. *)
Lemma ApproximateMemoryUsage_wrapped_sum_witness :
  ApproximateMemoryUsage Cases.bytes
    (Scenario.the (Scenario.three_added Scenario.always_ok))
  = 24576.
Proof.
  destruct (ApproximateMemoryUsage_wrapped_sum Cases.bytes
              (Scenario.the (Scenario.three_added Scenario.always_ok)))
    as (_ & Hexact & _).
  rewrite Hexact; [reflexivity| |reflexivity].
  intros m _. unfold Cases.bytes. lia.
Defined.

End usage_instance.

(** * Further properties of the merging iterator *)

Section switch_again.

Context {Key : Type} (cmp : Comparator Key).

Lemma SwitchToForward_switched (it : MergingIterator Key) cur ccur K :
  comparator_ it = Some cmp →
  current_ it = Some cur →
  children_ it !! cur = Some ccur →
  keys ccur !! pos ccur = Some K →
  SwitchToForward cmp it = Returned (switched cmp K cur it).
Proof.
  intros Hcmp Hcur Hccur HK.
  unfold SwitchToForward. cbn zeta. rewrite (ClearHeaps_switching cmp K cur).
  replace (length (children_ (switching cmp K cur 0 it)))
    with (length (children_ it)) by (cbn; by rewrite length_imap).
  rewrite (switch_loop_switching cmp K cur ccur it (length (children_ it)));
    try done.
  cbn [mbind Result_bind Nat.add]. by rewrite switching_all.
Qed.

Lemma repositioned_same_keys K (c1 c2 : IteratorWrapper Key) :
  keys c1 = keys c2 → repositioned cmp K c1 = repositioned cmp K c2.
Proof. unfold repositioned, child_Seek. cbn. by intros ->. Qed.

Lemma switched_children_twice K cur (cs : list (IteratorWrapper Key)) :
  switched_children cmp K cur (switched_children cmp K cur cs)
  = switched_children cmp K cur cs.
Proof.
  unfold switched_children. apply list_eq. intros i. rewrite !list_lookup_imap.
  destruct (cs !! i) as [c|]; [|done]. cbn.
  destruct (decide (i = cur)); [done|]. f_equal.
  apply repositioned_same_keys, keys_repositioned.
Qed.

(** X17.  [SwitchToForward] is idempotent.  On an iterator whose
    [current_] is a valid child, the state a call returns is one on which a
    second call changes nothing: where the children other than [current_]
    end up depends on their keys and on the key of [current_], not on where
    they stood. *)
Theorem SwitchToForward_idempotent (it : MergingIterator Key) cur ccur K :
  comparator_ it = Some cmp →
  current_ it = Some cur →
  children_ it !! cur = Some ccur →
  keys ccur !! pos ccur = Some K →
  ∃ it', SwitchToForward cmp it = Returned it'
    ∧ SwitchToForward cmp it' = Returned it'.
Proof.
  intros Hcmp Hcur Hccur HK. exists (switched cmp K cur it).
  split; [by eapply SwitchToForward_switched|].
  rewrite (SwitchToForward_switched _ cur ccur K); try done.
  - f_equal. unfold switched.
    cbn [is_arena_mode_ comparator_ children_ current_ direction_ minHeap_
         maxHeap_ prefix_seek_mode_].
    rewrite switched_children_twice. f_equal. by destruct (maxHeap_ it).
  - cbn. unfold switched_children. rewrite list_lookup_imap, Hccur. cbn.
    by rewrite decide_True.
Qed.

(** X18.  An iterator over a single child, which is then [current_], needs
    no comparator to switch: whatever [comparator_] is (a null pointer
    included), [SwitchToForward] leaves the child where it stands, puts it
    in the forward heap, empties the reverse heap if there is one and sets
    the direction. *)
Theorem SwitchToForward_single_child (it : MergingIterator Key) c k :
  children_ it = [c] →
  current_ it = Some 0%nat →
  keys c !! pos c = Some k →
  SwitchToForward cmp it
  = Returned (mkMergingIterator (is_arena_mode_ it) (comparator_ it) [c] (Some 0%nat)
                kForward [0%nat] ((λ _, []) <$> maxHeap_ it) (prefix_seek_mode_ it)).
Proof.
  intros Hcs Hcur Hk.
  assert (Hv : child_Valid c = true) by (apply child_Valid_lookup; by rewrite Hk).
  destruct it as [am co cs cu di mi ma pr]. cbn in Hcs, Hcur. subst cs cu.
  unfold SwitchToForward, ClearHeaps.
  destruct ma as [h|]; cbn -[child_Valid decide]; rewrite decide_True by done;
    cbn -[child_Valid]; by rewrite Hv.
Qed.

Lemma switch_child_Returned i (it it1 : MergingIterator Key) :
  switch_child cmp i it = Returned it1 →
  ∃ c c', children_ it !! i = Some c
    ∧ keys c' = keys c
    ∧ (current_ it = Some i → c' = c)
    ∧ children_ it1 = <[i := c']> (children_ it)
    ∧ minHeap_ it1 = minHeap_ it ++ (if child_Valid c' then [i] else [])
    ∧ is_arena_mode_ it1 = is_arena_mode_ it
    ∧ comparator_ it1 = comparator_ it
    ∧ current_ it1 = current_ it
    ∧ direction_ it1 = direction_ it
    ∧ maxHeap_ it1 = maxHeap_ it
    ∧ prefix_seek_mode_ it1 = prefix_seek_mode_ it.
Proof.
  unfold switch_child. destruct (children_ it !! i) as [c|] eqn:Hc; [|done].
  match goal with |- (?inner ≫= _) = _ → _ =>
    destruct inner as [c'| | |] eqn:Hinner; [|done..]
  end.
  cbn [mbind Result_bind]. intros Hrun. exists c, c'. split; [done|].
  assert (Hkeys : keys c' = keys c ∧ (current_ it = Some i → c' = c)).
  { destruct (decide (current_ it = Some i)) as [Hcur|Hcur].
    - injection Hinner as <-. done.
    - split; [|done]. clear Hrun.
      destruct (key it) as [k| | |]; try done. cbn [mbind Result_bind] in Hinner.
      destruct (child_Valid (child_Seek cmp k c)) eqn:Hv;
        [|by injection Hinner as <-].
      destruct (comparator_ it) as [co|]; [|done].
      cbn [from_option mbind Result_bind] in Hinner.
      destruct (child_key (child_Seek cmp k c)) as [ck| | |]; try done.
      cbn [mbind Result_bind] in Hinner.
      destruct (Equal co k ck); [|by injection Hinner as <-].
      unfold child_Next, assert in Hinner. rewrite Hv in Hinner.
      cbn in Hinner. by injection Hinner as <-. }
  destruct Hkeys as [Hkeys Hsame]. split; [done|]. split; [done|].
  destruct (child_Valid c'); injection Hrun as <-; cbn; by rewrite ?app_nil_r.
Qed.

Lemma switch_loop_Returned k : ∀ j (it it' : MergingIterator Key),
  switch_loop cmp (seq j k) it = Returned it' →
  keys <$> children_ it' = keys <$> children_ it
  ∧ (∀ i, (i < j)%nat → children_ it' !! i = children_ it !! i)
  ∧ (∀ cur, current_ it = Some cur → children_ it' !! cur = children_ it !! cur)
  ∧ (∃ h, minHeap_ it' = minHeap_ it ++ h
       ∧ h `sublist_of` seq j k
       ∧ ∀ i, i ∈ h → valid_at (children_ it') i = true)
  ∧ is_arena_mode_ it' = is_arena_mode_ it
  ∧ comparator_ it' = comparator_ it
  ∧ current_ it' = current_ it
  ∧ direction_ it' = direction_ it
  ∧ maxHeap_ it' = maxHeap_ it
  ∧ prefix_seek_mode_ it' = prefix_seek_mode_ it.
Proof.
  induction k as [|k IH]; intros j it it' Hrun.
  - injection Hrun as <-. repeat split; try done.
    exists []. rewrite app_nil_r. split; [done|]. split; [done|].
    intros i Hi. by apply elem_of_nil in Hi.
  - cbn [seq switch_loop] in Hrun.
    destruct (switch_child cmp j it) as [it1| | |] eqn:Hstep; try done.
    cbn [mbind Result_bind] in Hrun.
    destruct (switch_child_Returned _ _ _ Hstep)
      as (c & c' & Hc & Hkeys & Hsame & Hcs & Hheap & Ham & Hco & Hcu & Hdi & Hma & Hpr).
    destruct (IH _ _ _ Hrun)
      as (Hk' & Hbefore & Hcur' & (h & Hh & Hsub & Hvalid) & Ham' & Hco' & Hcu' & Hdi'
          & Hma' & Hpr').
    assert (Hj : (j < length (children_ it))%nat) by (by eapply lookup_lt_Some).
    split.
    { rewrite Hk', Hcs, list_fmap_insert, Hkeys.
      apply list_insert_id. by rewrite list_lookup_fmap, Hc. }
    split.
    { intros i Hi. rewrite Hbefore by lia. rewrite Hcs.
      by rewrite list_lookup_insert_ne by lia. }
    split.
    { intros cur Hcur. rewrite Hcur'; [|by rewrite Hcu]. rewrite Hcs.
      destruct (decide (cur = j)) as [->|Hne].
      - rewrite list_lookup_insert_eq by done. by rewrite Hsame, Hc.
      - by rewrite list_lookup_insert_ne. }
    split.
    { exists ((if child_Valid c' then [j] else []) ++ h).
      split; [by rewrite Hh, Hheap, app_assoc|].
      assert (Hj' : children_ it' !! j = Some c').
      { rewrite Hbefore by lia. rewrite Hcs. by rewrite list_lookup_insert_eq. }
      destruct (child_Valid c') eqn:Hv; cbn [app].
      - split; [by apply sublist_skip|].
        intros i [->|Hi]%elem_of_cons; [|by apply Hvalid].
        unfold valid_at. by rewrite Hj'.
      - split; [by apply sublist_cons|exact Hvalid]. }
    rewrite Ham', Hco', Hcu', Hdi', Hma', Hpr'. done.
Qed.

(** X20.  Whenever [SwitchToForward] returns, it has moved cursors only:
    every child holds the keys it held, [current_] and the child it points
    to are untouched, and so are the comparator and the mode flags.  The
    forward heap holds children of the iterator, each at most once, in the
    order of [children_], and each of them valid; the reverse heap is empty
    if it exists; the direction is forward. *)
Theorem SwitchToForward_moves_cursors_only (it it' : MergingIterator Key) :
  SwitchToForward cmp it = Returned it' →
  keys <$> children_ it' = keys <$> children_ it
  ∧ current_ it' = current_ it
  ∧ (∀ cur, current_ it = Some cur → children_ it' !! cur = children_ it !! cur)
  ∧ minHeap_ it' `sublist_of` seq 0 (length (children_ it))
  ∧ NoDup (minHeap_ it')
  ∧ (∀ i, i ∈ minHeap_ it' → valid_at (children_ it') i = true)
  ∧ maxHeap_ it' = (λ _, []) <$> maxHeap_ it
  ∧ direction_ it' = kForward
  ∧ comparator_ it' = comparator_ it
  ∧ is_arena_mode_ it' = is_arena_mode_ it
  ∧ prefix_seek_mode_ it' = prefix_seek_mode_ it.
Proof.
  unfold SwitchToForward. cbn zeta.
  destruct (switch_loop cmp _ (ClearHeaps it)) as [it1| | |] eqn:Hloop; try done.
  cbn [mbind Result_bind]. intros [= <-].
  assert (Hclear : children_ (ClearHeaps it) = children_ it
            ∧ current_ (ClearHeaps it) = current_ it
            ∧ minHeap_ (ClearHeaps it) = []
            ∧ maxHeap_ (ClearHeaps it) = (λ _, []) <$> maxHeap_ it
            ∧ comparator_ (ClearHeaps it) = comparator_ it
            ∧ is_arena_mode_ (ClearHeaps it) = is_arena_mode_ it
            ∧ prefix_seek_mode_ (ClearHeaps it) = prefix_seek_mode_ it).
  { unfold ClearHeaps. by destruct it as [? ? ? ? ? ? [?|] ?]. }
  destruct Hclear as (Hcs & Hcu & Hmi & Hma & Hco & Ham & Hpr).
  destruct (switch_loop_Returned _ _ _ _ Hloop)
    as (Hk' & _ & Hcur' & (h & Hh & Hsub & Hvalid) & Ham' & Hco' & Hcu' & _ & Hma' & Hpr').
  rewrite Hcs in Hk', Hcur', Hsub. rewrite Hmi in Hh. cbn [app] in Hh.
  cbn [set_direction is_arena_mode_ comparator_ children_ current_ direction_
       minHeap_ maxHeap_ prefix_seek_mode_].
  rewrite Hh, Hcu', Hcu, Hma', Hma, Hco', Hco, Ham', Ham, Hpr', Hpr.
  split; [done|]. split; [done|]. split; [intros cur Hc; apply Hcur'; congruence|].
  split; [done|]. split; [|done].
  eapply sublist_NoDup; [apply NoDup_seq|exact Hsub].
Qed.

(** X21.  [ClearHeaps] and [InitMaxHeap] on the two heaps.  [ClearHeaps]
    empties the forward heap and the reverse heap but neither allocates nor
    frees the reverse heap; [InitMaxHeap] allocates an empty reverse heap
    only when there is none and keeps the content of an existing one; each
    of them is idempotent, they commute, and neither touches the children,
    [current_] or the direction. *)
Theorem heaps_cleared_and_allocated (it : MergingIterator Key) :
  minHeap_ (ClearHeaps it) = []
  ∧ maxHeap_ (ClearHeaps it) = (λ _, []) <$> maxHeap_ it
  ∧ maxHeap_ (InitMaxHeap it) = Some (default [] (maxHeap_ it))
  ∧ minHeap_ (InitMaxHeap it) = minHeap_ it
  ∧ ClearHeaps (ClearHeaps it) = ClearHeaps it
  ∧ InitMaxHeap (InitMaxHeap it) = InitMaxHeap it
  ∧ InitMaxHeap (ClearHeaps it) = ClearHeaps (InitMaxHeap it)
  ∧ children_ (ClearHeaps it) = children_ it
  ∧ children_ (InitMaxHeap it) = children_ it
  ∧ current_ (ClearHeaps it) = current_ it
  ∧ current_ (InitMaxHeap it) = current_ it
  ∧ direction_ (ClearHeaps it) = direction_ it
  ∧ direction_ (InitMaxHeap it) = direction_ it.
Proof. by destruct it as [? ? ? ? ? ? [?|] ?]. Qed.

End switch_again.

Section switch_again_instances.

(** An instance: the iterator of [Scenario.reversing]. *)
Lemma SwitchToForward_idempotent_witness :
  ∃ it', SwitchToForward Scenario.int_order Scenario.reversing = Returned it'
    ∧ SwitchToForward Scenario.int_order it' = Returned it'.
Proof.
  apply (SwitchToForward_idempotent Scenario.int_order Scenario.reversing
           0%nat (mkIteratorWrapper [1; 3; 5] 1) 3); reflexivity.
Defined.

(** An instance: one child, no comparator. *)
Lemma SwitchToForward_single_child_witness :
  SwitchToForward Scenario.int_order
    (mkMergingIterator true None [mkIteratorWrapper [4; 7] 1] (Some 0%nat)
       kReverse [] (Some [0%nat]) false)
  = Returned (mkMergingIterator true None [mkIteratorWrapper [4; 7] 1] (Some 0%nat)
                kForward [0%nat] (Some []) false).
Proof.
  apply (SwitchToForward_single_child Scenario.int_order
           (mkMergingIterator true None [mkIteratorWrapper [4; 7] 1] (Some 0%nat)
              kReverse [] (Some [0%nat]) false)
           (mkIteratorWrapper [4; 7] 1) 7); reflexivity.
Defined.

(** An instance: the iterator of [Scenario.reversing]. *)
Lemma SwitchToForward_moves_cursors_only_witness :
  ∃ it', SwitchToForward Scenario.int_order Scenario.reversing = Returned it'
    ∧ keys <$> children_ it' = [[1; 3; 5]; [2; 3; 4]; [3]; [1; 2]]
    ∧ NoDup (minHeap_ it').
Proof.
  eexists. split; [reflexivity|].
  edestruct (SwitchToForward_moves_cursors_only Scenario.int_order Scenario.reversing)
    as (Hkeys & _ & _ & _ & Hnd & _); [reflexivity|].
  split; [exact Hkeys|exact Hnd].
Defined.

End switch_again_instances.


Section builder.

Context {Key : Type} (sizeof_MergingIterator : N).

Lemma AddIterators_spec (iters : list (IteratorWrapper Key)) :
  ∀ (it0 : MergingIterator Key) a,
  ∃ it, AddIterators iters (mkMergeIteratorBuilder (Some it0) a)
        = Returned (mkMergeIteratorBuilder (Some it) a)
    ∧ children_ it = children_ it0 ++ iters
    ∧ is_arena_mode_ it = is_arena_mode_ it0
    ∧ comparator_ it = comparator_ it0
    ∧ prefix_seek_mode_ it = prefix_seek_mode_ it0.
Proof.
  induction iters as [|iter iters IH]; intros it0 a; cbn [AddIterators].
  - exists it0. by rewrite app_nil_r.
  - unfold AddIterator at 1. cbn [merge_iter arena mbind Result_bind].
    destruct (IH (MergingIterator_AddIterator iter it0) a)
      as (it & Hrun & Hcs & Ham & Hco & Hpr).
    exists it. split; [exact Hrun|].
    rewrite Hcs, Ham, Hco, Hpr. unfold MergingIterator_AddIterator.
    destruct (child_Valid iter); cbn; by rewrite <- app_assoc.
Qed.

(** X22.  The life of a [MergeIteratorBuilder] built on an arena.  The
    constructor takes one block of [sizeof(MergingIterator)] from the
    arena and no [AddIterator] takes another; after any number of
    [AddIterator] calls [Finish] hands out the merging iterator, in arena
    mode, over exactly the iterators added, in the order they were added,
    with the comparator and the prefix-seek mode given to the constructor.
    [Finish] leaves the builder with a null [merge_iter]: a second
    [Finish] returns a null pointer, and an [AddIterator] after [Finish]
    dereferences it. *)
Theorem builder_hands_out_once (cmp : option (Comparator Key)) ar mode
    (iters : list (IteratorWrapper Key)) (late : IteratorWrapper Key) :
  ∃ b it,
    (b0 ← new_MergeIteratorBuilder sizeof_MergingIterator cmp (Some ar) mode;
     AddIterators iters b0) = Returned b
    ∧ arena b = Some (mkArena (blocks ar ++ [sizeof_MergingIterator]))
    ∧ (Finish b).1 = Some it
    ∧ children_ it = iters
    ∧ is_arena_mode_ it = true
    ∧ comparator_ it = cmp
    ∧ prefix_seek_mode_ it = mode
    ∧ (Finish (Finish b).2).1 = None
    ∧ arena (Finish b).2 = arena b
    ∧ AddIterator late (Finish b).2 = NullDereference.
Proof.
  cbn [new_MergeIteratorBuilder AllocateAligned mbind Result_bind].
  destruct (AddIterators_spec iters (new_MergingIterator cmp [] true mode)
              (Some (mkArena (blocks ar ++ [sizeof_MergingIterator]))))
    as (it & Hrun & Hcs & Ham & Hco & Hpr).
  eexists _, it. split; [exact Hrun|]. cbn. done.
Qed.

End builder.

(** * Operations composed *)

Section composed.

Lemma occurrences_member (m : MemTablePtr) (l : list MemTablePtr) :
  m ∈ l → (0 < occurrences m l)%nat.
Proof.
  unfold occurrences. induction l as [|a l IH]; intros Hm; [by apply elem_of_nil in Hm|].
  rewrite filter_cons. destruct (decide (a = m)) as [->|Hne]; cbn [length]; [lia|].
  apply IH. by apply elem_of_cons in Hm as [->|Hm].
Qed.

Lemma Install_drops_one_reference fuel mems flushStatus file_number w w' s :
  NoDup (memlist_ (this w)) →
  InstallMemtableFlushResults fuel mems flushStatus file_number w = Returned (w', s) →
  ∀ x, refs_ (heap w x) - (if decide (x ∈ memlist_ (this w)) then 1 else 0)
       ≤ refs_ (heap w' x).
Proof.
  intros Hnd Hrun x.
  assert (Hle : 0 ≤ (if decide (x ∈ memlist_ (this w)) then 1 else 0))
    by (destruct (decide (x ∈ memlist_ (this w))); lia).
  apply Install_Returned in Hrun
    as [(_ & _ & Hr)|(Hs & wm & Hm & Hcase)].
  - destruct (reset_loop_Returned _ _ _ _ Hr) as [Hndm Hpre].
    destruct (reset_loop_spec mems file_number w Hndm Hpre)
      as (w2 & Hrun2 & _ & _ & _ & _ & _ & _ & _ & _ & Hin & Hout).
    rewrite Hr in Hrun2. injection Hrun2 as <-.
    destruct (decide (x ∈ mems)) as [Hx|Hx];
      [rewrite (Hin x Hx); cbn; lia|rewrite (Hout x Hx); lia].
  - destruct (mark_loop_spec mems file_number true w (mark_loop_Returned _ _ _ _ _ Hm))
      as (w2 & Hm2 & Ht & _ & _ & _ & Hin & Hout).
    rewrite Hm in Hm2. injection Hm2 as <-.
    assert (Hrefs : refs_ (heap wm x) = refs_ (heap w x)).
    { destruct (decide (x ∈ mems)) as [Hx|Hx];
        [by rewrite (Hin x Hx)|by rewrite (Hout x Hx)]. }
    destruct Hcase as [(_ & -> & _)|(_ & ws & Hscan & ->)]; [lia|].
    apply commit_scan_effect in Hscan as (c & wf & Heff & Hend);
      [|done|cbn; by rewrite Ht].
    destruct Heff as (Hl1 & _ & _ & _ & _ & _ & Hin1 & Hout1).
    revert Hl1 Hin1 Hout1. proj_simpl. rewrite Ht. intros Hl1 Hin1 Hout1.
    assert (Hwf : refs_ (heap w x) - (if decide (x ∈ memlist_ (this w)) then 1 else 0)
                  ≤ refs_ (heap wf x)).
    { destruct (decide (x ∈ c)) as [Hx|Hx].
      - destruct (Hin1 x Hx) as [-> _]. cbn. rewrite Hrefs.
        rewrite decide_True; [lia|]. rewrite Hl1, elem_of_app. by right.
      - rewrite (Hout1 x Hx), Hrefs. lia. }
    destruct Hend as [(_ & _ & _ & _ & _ & _ & _ & _ & Hout2)
                     |(_ & _ & m & _ & _ & _ & _ & _ & _ & _ & _ & _ & Hm2 & Ho2)].
    + by rewrite (Hout2 x) by apply not_elem_of_nil.
    + destruct (decide (x = m)) as [->|Hne]; [by rewrite Hm2|by rewrite Ho2].
Qed.

(** X23.  [RefAll] keeps every memtable alive through a commit.  After a
    reader has called [RefAll] on a list without repeated members, a
    returning call of [InstallMemtableFlushResults], whatever it commits or
    rolls back, leaves no memtable with a lower reference count than it had
    before the [RefAll]: a commit drops one reference of a member, and
    [RefAll] had taken one. *)
Theorem RefAll_outlives_commit fuel mems flushStatus file_number w w' s :
  NoDup (memlist_ (this w)) →
  InstallMemtableFlushResults fuel mems flushStatus file_number (RefAll w)
  = Returned (w', s) →
  ∀ x, refs_ (heap w x) ≤ refs_ (heap w' x).
Proof.
  intros Hnd Hrun x.
  assert (Hnd' : NoDup (memlist_ (this (RefAll w)))) by (by rewrite RefAll_this).
  pose proof (Install_drops_one_reference _ _ _ _ _ _ _ Hnd' Hrun x) as Hle.
  rewrite RefAll_this, RefAll_heap in Hle. cbn [refs_] in Hle.
  destruct (decide (x ∈ memlist_ (this w))) as [Hx|Hx]; [|lia].
  pose proof (occurrences_member _ _ Hx). lia.
Qed.

(** An instance: the three memtables of [Scenario.all_completed] are
    committed while a reader holds them. *)
Lemma RefAll_outlives_commit_witness :
  memlist_ (this Cases.committed_under_reader.1) = []
  ∧ ∀ x, refs_ (heap Scenario.all_completed x)
         ≤ refs_ (heap Cases.committed_under_reader.1 x).
Proof.
  split; [reflexivity|].
  apply (RefAll_outlives_commit 4 [1%nat] StatusOK 10 Scenario.all_completed
           Cases.committed_under_reader.1 Cases.committed_under_reader.2).
  - compute_done.
  - apply outcome_Returned. reflexivity.
Defined.

(** X24.  A selection can always be handed back.  In a state the flush
    scheduler reaches, the batch that [PickMemtablesToFlush] returns can be
    installed with a failed flush status: the call returns that status (no
    assertion fails) and undoes the selection.  The list object is exactly
    as before the selection, every memtable is as before but for the edit of
    a selected one, which is empty, and only the file number has left the
    pending outputs. *)
Theorem failed_flush_undoes_selection fuel flushStatus file_number w w1 sel :
  reachable w →
  PickMemtablesToFlush w [] = Returned (w1, sel) →
  ok flushStatus = false →
  ∃ w2, InstallMemtableFlushResults fuel sel flushStatus file_number w1
        = Returned (w2, flushStatus)
    ∧ this w2 = this w
    ∧ (∀ m, heap w2 m = if decide (m ∈ sel) then set_edit [] (heap w m) else heap w m)
    ∧ pending_outputs w2
      = (if decide (sel = []) then pending_outputs w
         else pending_outputs w ∖ {[file_number]})
    ∧ vset w2 = vset w
    ∧ info_log w2 = info_log w.
Proof.
  intros Hr Hpick Hfs. pose proof (reachable_invariant w Hr) as Hinv.
  pose proof (reachable_signal w Hr) as Hsig. unfold signal_matches_count in Hsig.
  destruct Hinv as [Hnd Hs Hc Hq Ho].
  unfold PickMemtablesToFlush in Hpick.
  destruct (pick_loop_spec (reverse (memlist_ (this w))) w [])
    as (w' & sel' & Hpick' & Hnds & Hmem & _ & Hfil & Hin & Hout & Hn & Hf & Hl & Hsz
        & Hcip & Hv & Hlog & Hp).
  { intros m Hm Hfip. rewrite elem_of_reverse in Hm. by destruct (Hq m Hm Hfip). }
  rewrite Hpick in Hpick'. cbn [app] in Hpick'. injection Hpick' as <- <-.
  assert (Hlen : num_flush_not_started_ (this w) = Z.of_nat (length sel)).
  { rewrite Hc, Hfil, filter_reverse, length_reverse
      by (by rewrite reverse_Permutation). done. }
  assert (Hsel : ∀ m, m ∈ sel →
            flush_in_progress_ (heap w m) = false
            ∧ flush_completed_ (heap w m) = false
            ∧ file_number_ (heap w m) = 0%N).
  { intros m [Hm Hfip]%Hmem. rewrite elem_of_reverse in Hm.
    destruct (Hq m Hm Hfip). done. }
  destruct (reset_loop_spec sel file_number w1 Hnds)
    as (w2 & Hreset & Hl2 & Hsz2 & Hn2 & Hcip2 & Hf2 & Hp2 & Hv2 & Hlog2 & Hin2 & Hout2).
  { intros m Hm. rewrite (Hin m Hm). cbn. destruct (Hsel m Hm) as (_ & _ & Hfn). done. }
  exists w2. unfold InstallMemtableFlushResults. rewrite Hfs. cbn [negb].
  rewrite Hreset. cbn [mbind Result_bind]. split; [done|].
  split.
  { assert (Hflag : imm_flush_needed (this w2) = imm_flush_needed (this w)).
    { rewrite Hf2, Hf, Hsig, Hlen. destruct sel as [|m0 sel0]; [done|].
      cbn [length]. symmetry. apply Z.ltb_lt. lia. }
    destruct (this w2) as [l2 sz2 n2 c2 f2], (this w) as [l0 sz0 n0 c0 f0],
      (this w1) as [l1 sz1 n1 c1 f1].
    cbn in *. f_equal; try congruence. lia. }
  split.
  { intros m. destruct (decide (m ∈ sel)) as [Hm|Hm].
    - rewrite (Hin2 m Hm), (Hin m Hm). destruct (Hsel m Hm) as (Hfip & Hfc & Hfn).
      destruct (heap w m). cbn in *. by subst.
    - by rewrite (Hout2 m Hm), (Hout m Hm). }
  split; [|by rewrite Hv2, Hlog2].
  rewrite Hp2, Hp. by destruct sel.
Qed.

(** An instance: three memtables are selected and the selection is handed
    back. *)
Lemma failed_flush_undoes_selection_witness :
  ∃ w2, InstallMemtableFlushResults 0 Cases.three_picked.2 Scenario.flush_failed 10
          Cases.three_picked.1
        = Returned (w2, Scenario.flush_failed)
    ∧ this w2 = this (Scenario.the (Scenario.three_added Scenario.always_ok)).
Proof.
  destruct (failed_flush_undoes_selection 0 Scenario.flush_failed 10
              (Scenario.the (Scenario.three_added Scenario.always_ok))
              Cases.three_picked.1 Cases.three_picked.2)
    as (w2 & Hrun & Ht & _).
  - apply three_added_reachable.
  - apply selection_Returned. reflexivity.
  - reflexivity.
  - exists w2. split; [exact Hrun|exact Ht].
Defined.

End composed.
